(** * File encryption system: the XOR stream transform of [file_encrypt.c]

    A shallow embedding of the functions [validateKey], [getFileSize],
    [xorCipher], [encryptFile] and [decryptFile] of [src/file_encrypt.c],
    and the properties of the chunked transform stated over it.

    Conventions.
    - An [unsigned char] is a [Z] in [0, 256); a [char] of the key is any
      [Z], converted by [to_uchar] where the source casts it.
    - A C string is the list of the characters stored in its buffer;
      [strlen] counts up to the first NUL.
    - The file system is a finite map from paths to file contents.
    - A call of the C library whose outcome the program cannot decide
      (opening, seeking, reading, writing, closing) takes its outcome
      from an [env], fixed for the run.
    - Undefined behaviour of the C program (a remainder by zero, an access
      outside an array) is the outcome [Undefined]. *)

From Stdlib Require Import ZArith Lia.
From stdpp Require Import base tactics option list strings gmap.

Local Open Scope Z_scope.

(** ** Constants of the source *)

Definition MAX_KEY_LENGTH : nat := 128.
Definition BUFFER_SIZE : nat := 4096.
Definition MIN_KEY_LENGTH : nat := 4.

(** ** Bytes and C strings *)

Definition is_uchar (z : Z) : Prop := 0 <= z < 256.

(** The conversion [(unsigned char) c]. *)
Definition to_uchar (c : Z) : Z := c mod 256.

(** [d ^= (unsigned char) c] on an [unsigned char] lvalue [d]. *)
Definition xor_uchar (d c : Z) : Z := to_uchar (Z.lxor d (to_uchar c)).

(** [strlen]: the number of characters before the first NUL. *)
Fixpoint strlen (s : list Z) : nat :=
  match s with
  | [] => O
  | c :: s' => if Z.eqb c 0 then O else S (strlen s')
  end.

(** ** The XOR engine *)

(** The body of the loop of [xorCipher] at index [i]:
    [data[i] ^= (unsigned char)key[i % keyLen]]. *)
Definition xorCipher_body (key : list Z) (keyLen : nat) (data : list Z) (i : nat)
  : option (list Z) :=
  if Nat.eqb keyLen 0 then None
  else
    d ← data !! i;
    c ← key !! (i mod keyLen)%nat;
    Some (<[i := xor_uchar d c]> data).

(** [for (i = from; i < from + count; i++) body]. *)
Fixpoint xorCipher_for (count from : nat) (key : list Z) (keyLen : nat) (data : list Z)
  : option (list Z) :=
  match count with
  | O => Some data
  | S count' =>
      data' ← xorCipher_body key keyLen data from;
      xorCipher_for count' (S from) key keyLen data'
  end.

(** [xorCipher(data, dataLen, key, keyLen)]; [None] is undefined behaviour. *)
Definition xorCipher (data : list Z) (dataLen : nat) (key : list Z) (keyLen : nat)
  : option (list Z) :=
  xorCipher_for dataLen 0 key keyLen data.

(** ** Console output *)

(** One constructor per [printf] of the functions modelled; the arguments
    are the values the format string prints. *)
Inductive message : Type :=
| MsgKeyTooShort (min : nat)
| MsgKeyTooLong (max : nat)
| MsgCannotOpenInput (path : string)
| MsgCannotDetermineSize
| MsgInputEmpty
| MsgCannotCreateOutput (path : string)
| MsgWriteFailed
| MsgReadFailed
| MsgCloseInputFailed
| MsgCloseOutputFailed
| MsgProgress (current total : Z).

(** ** Key validation *)

(** [validateKey(key)]: the value returned and what is printed. *)
Definition validateKey (key : list Z) : Z * list message :=
  let len := strlen key in
  if (len <? MIN_KEY_LENGTH)%nat then (-1, [MsgKeyTooShort MIN_KEY_LENGTH])
  else if (MAX_KEY_LENGTH - 1 <=? len)%nat then (-1, [MsgKeyTooLong (MAX_KEY_LENGTH - 1)])
  else (0, []).

(** ** Files, streams and the C library *)

Inductive handle : Type := InFile | OutFile.

(** What a run does to the outside, in order. *)
Inductive event : Type :=
| EvOpen (h : handle) (path : string) (ok : bool)
| EvRead (requested got : nat)
| EvWrite (requested written : nat)
| EvClose (h : handle) (ok : bool)
| EvPrint (m : message).

(** The outcomes of the library calls that the program does not control.
    [fread_fault p = Some m]: a read that starts at offset [p] of the source
    hits a device error after [m] bytes.  [fwrite_fault n = Some m]: a write
    to a destination that holds [n] bytes stores at most [m] bytes. *)
Record env : Type := Env {
  fopen_in_ok : bool;
  fseek_end_ok : bool;
  ftell_ok : bool;
  fseek_set_ok : bool;
  fopen_out_ok : bool;
  fread_fault : nat -> option nat;
  fwrite_fault : nat -> option nat;
  fclose_in_ok : bool;
  fclose_out_ok : bool
}.

(** The environment in which no call fails. *)
Definition calm : env :=
  Env true true true true true (fun _ => None) (fun _ => None) true true.

(** The file system, the events so far, and the state of the stream
    [inFile]: its position and its error indicator. *)
Record world : Type := World {
  fs : gmap string (list Z);
  trace : list event;
  in_pos : nat;
  in_err : bool
}.

Definition emit (ev : event) (w : world) : world :=
  World (fs w) (trace w ++ [ev]) (in_pos w) (in_err w).

Definition print (m : message) (w : world) : world := emit (EvPrint m) w.

Definition content (path : string) (w : world) : list Z :=
  default [] (fs w !! path).

(** [fopen(inputFile, "rb")]: fails when the file does not exist. *)
Definition fopen_in (e : env) (inputFile : string) (w : world) : bool * world :=
  let ok := fopen_in_ok e && bool_decide (is_Some (fs w !! inputFile)) in
  (ok, emit (EvOpen InFile inputFile ok) (World (fs w) (trace w) 0 false)).

(** [fopen(outputFile, "wb")]: creates the file or truncates it. *)
Definition fopen_out (e : env) (outputFile : string) (w : world) : bool * world :=
  if fopen_out_ok e
  then (true, emit (EvOpen OutFile outputFile true)
                (World (<[outputFile := []]> (fs w)) (trace w) (in_pos w) (in_err w)))
  else (false, emit (EvOpen OutFile outputFile false) w).

(** [fread(buffer, 1, count, inFile)]: the bytes stored in [buffer]. A read
    is short only at the end of the file or on an error. *)
Definition fread (e : env) (inputFile : string) (count : nat) (w : world)
  : list Z * world :=
  let full := take count (drop (in_pos w) (content inputFile w)) in
  let faulty :=
    match fread_fault e (in_pos w) with
    | Some m => (m <? length full)%nat
    | None => false
    end in
  let got :=
    match fread_fault e (in_pos w) with
    | Some m => if (m <? length full)%nat then take m full else full
    | None => full
    end in
  (got, emit (EvRead count (length got))
          (World (fs w) (trace w) (in_pos w + length got) (in_err w || faulty))).

(** [fwrite(buffer, 1, count, outFile)]: the number of bytes written. *)
Definition fwrite (e : env) (outputFile : string) (buffer : list Z) (count : nat)
    (w : world) : nat * world :=
  let old := content outputFile w in
  let written :=
    match fwrite_fault e (length old) with
    | Some m => Nat.min m count
    | None => count
    end in
  (written, emit (EvWrite count written)
              (World (<[outputFile := old ++ take written buffer]> (fs w))
                     (trace w) (in_pos w) (in_err w))).

(** [fclose(inFile) != 0] and [fclose(outFile) != 0]. *)
Definition fclose (e : env) (h : handle) (w : world) : bool * world :=
  let ok := match h with InFile => fclose_in_ok e | OutFile => fclose_out_ok e end in
  (ok, emit (EvClose h ok) w).

(** [getFileSize(file)]: seek to the end, ask the position, seek back. *)
Definition getFileSize (e : env) (inputFile : string) (w : world) : Z * world :=
  if negb (fseek_end_ok e) then (-1, w)
  else
    let w1 := World (fs w) (trace w) (length (content inputFile w)) (in_err w) in
    if negb (ftell_ok e) then (-1, w1)
    else
      let size := Z.of_nat (in_pos w1) in
      if negb (fseek_set_ok e) then (-1, w1)
      else (size, World (fs w1) (trace w1) 0 (in_err w1)).

(** ** The stream transformer *)

Inductive outcome (A : Type) : Type :=
| Done (a : A)
| Undefined
| OutOfFuel.
Arguments Done {A} a.
Arguments Undefined {A}.
Arguments OutOfFuel {A}.

(** The [while] loop of [encryptFile], with the capacity [cap] of [buffer]
    as a parameter ([BUFFER_SIZE] in the source).  [buffer] stands for the
    cells of the array that [fread] filled.  The loop returns [result]. *)
Fixpoint transform_loop (fuel cap : nat) (e : env) (inputFile outputFile : string)
    (key : list Z) (keyLen : nat) (fileSize totalProcessed : Z) (w : world)
  : outcome (Z * world) :=
  match fuel with
  | O => OutOfFuel
  | S fuel' =>
      let '(buffer, w1) := fread e inputFile cap w in
      let bytesRead := length buffer in
      if (0 <? bytesRead)%nat then
        match xorCipher buffer bytesRead key keyLen with
        | None => Undefined
        | Some buffer' =>
            let '(bytesWritten, w2) := fwrite e outputFile buffer' bytesRead w1 in
            if negb (bytesWritten =? bytesRead)%nat then
              Done (-1, print MsgWriteFailed w2)
            else
              let totalProcessed' := totalProcessed + Z.of_nat bytesRead in
              transform_loop fuel' cap e inputFile outputFile key keyLen fileSize
                totalProcessed' (print (MsgProgress totalProcessed' fileSize) w2)
        end
      else Done (0, w1)
  end.

(** The tail of [encryptFile] after the loop: the [ferror] check and the two
    [fclose] calls. *)
Definition finish (e : env) (result : Z) (w : world) : Z * world :=
  let '(result1, w1) :=
    if in_err w then (-1, print MsgReadFailed w) else (result, w) in
  let '(in_closed, w2) := fclose e InFile w1 in
  let w3 := if in_closed then w2 else print MsgCloseInputFailed w2 in
  let '(out_closed, w4) := fclose e OutFile w3 in
  if out_closed then (result1, w4) else (-1, print MsgCloseOutputFailed w4).

(** [encryptFile] with a buffer of [cap] bytes, run on the file system
    [files]. *)
Definition encryptFile_with (cap fuel : nat) (e : env) (inputFile outputFile : string)
    (key : list Z) (files : gmap string (list Z)) : outcome (Z * world) :=
  let keyLen := strlen key in
  let '(in_opened, w1) := fopen_in e inputFile (World files [] 0 false) in
  if negb in_opened then Done (-1, print (MsgCannotOpenInput inputFile) w1)
  else
    let '(fileSize, w2) := getFileSize e inputFile w1 in
    if fileSize =? -1 then
      Done (-1, snd (fclose e InFile (print MsgCannotDetermineSize w2)))
    else if fileSize =? 0 then
      Done (-1, snd (fclose e InFile (print MsgInputEmpty w2)))
    else
      let '(out_opened, w3) := fopen_out e outputFile w2 in
      if negb out_opened then
        Done (-1, snd (fclose e InFile (print (MsgCannotCreateOutput outputFile) w3)))
      else
        match transform_loop fuel cap e inputFile outputFile key keyLen fileSize 0 w3 with
        | Done (result, w4) => Done (finish e result w4)
        | Undefined => Undefined
        | OutOfFuel => OutOfFuel
        end.

(** [encryptFile(inputFile, outputFile, key)]. *)
Definition encryptFile : nat -> env -> string -> string -> list Z ->
    gmap string (list Z) -> outcome (Z * world) :=
  encryptFile_with BUFFER_SIZE.

(** [decryptFile(inputFile, outputFile, key)]. *)
Definition decryptFile (fuel : nat) (e : env) (inputFile outputFile : string)
    (key : list Z) (files : gmap string (list Z)) : outcome (Z * world) :=
  encryptFile fuel e inputFile outputFile key files.

(** ** The contract of the XOR engine, as the specification words it *)

(** The key byte used at stream offset [i]. *)
Definition key_at (key : list Z) (keyLen : nat) (i : nat) : Z :=
  default 0 (key !! (i mod keyLen)%nat).

(** [transform(buffer, length, key, key_length, start_offset)]:
    [buffer[i] ^= key[(start_offset + i) mod key_length]]. *)
Definition transform_spec (buffer key : list Z) (keyLen start_offset : nat) : list Z :=
  imap (fun i d => xor_uchar d (key_at key keyLen (start_offset + i))) buffer.

(** What the chunked loop computes: the key phase restarts every [cap]
    bytes. *)
Definition chunked_xor (cap : nat) (D key : list Z) (keyLen : nat) : list Z :=
  imap (fun j d => xor_uchar d (key_at key keyLen (j mod cap))) D.

(** The array after the loop of [xorCipher] has run over the indices
    [from, from + count). *)
Definition xor_range (key : list Z) (keyLen from count : nat) (data : list Z) : list Z :=
  imap (fun j d =>
          if bool_decide (from <= j < from + count)%nat
          then xor_uchar d (key_at key keyLen j) else d) data.

(** ** Traces *)

(** The events of the loop, with the value it leaves in [result]: full
    chunks, then either the read that finds the end of the stream or a
    short write. *)
Inductive loop_trace (cap : nat) : Z -> list event -> Prop :=
| loop_trace_end :
    loop_trace cap 0 [EvRead cap 0]
| loop_trace_abort got written :
    written <> got ->
    loop_trace cap (-1) [EvRead cap got; EvWrite got written; EvPrint MsgWriteFailed]
| loop_trace_chunk got current total r tr :
    loop_trace cap r tr ->
    loop_trace cap r
      (EvRead cap got :: EvWrite got got :: EvPrint (MsgProgress current total) :: tr).

(** The events of [finish]; [err] is the error indicator of [inFile]. *)
Definition closing (e : env) (err : bool) : list event :=
  (if err then [EvPrint MsgReadFailed] else []) ++
  [EvClose InFile (fclose_in_ok e)] ++
  (if fclose_in_ok e then [] else [EvPrint MsgCloseInputFailed]) ++
  [EvClose OutFile (fclose_out_ok e)] ++
  (if fclose_out_ok e then [] else [EvPrint MsgCloseOutputFailed]).

Definition handle_eqb (h1 h2 : handle) : bool :=
  match h1, h2 with
  | InFile, InFile | OutFile, OutFile => true
  | _, _ => false
  end.

(** Whether the stream [h] is open after the events [tr], when [before]
    tells whether it was open before them. *)
Fixpoint is_open (h : handle) (before : bool) (tr : list event) : bool :=
  match tr with
  | [] => before
  | EvOpen h' _ ok :: tr' => is_open h (if handle_eqb h h' then ok else before) tr'
  | EvClose h' _ :: tr' => is_open h (if handle_eqb h h' then false else before) tr'
  | _ :: tr' => is_open h before tr'
  end.

(** Reads and writes of file data. *)
Definition is_transfer (ev : event) : bool :=
  match ev with
  | EvRead _ _ | EvWrite _ _ => true
  | _ => false
  end.

(** The same environment with another outcome of [fclose]. *)
Definition set_fclose_in (b : bool) (e : env) : env :=
  Env (fopen_in_ok e) (fseek_end_ok e) (ftell_ok e) (fseek_set_ok e) (fopen_out_ok e)
      (fread_fault e) (fwrite_fault e) b (fclose_out_ok e).

Definition set_fclose_out (b : bool) (e : env) : env :=
  Env (fopen_in_ok e) (fseek_end_ok e) (ftell_ok e) (fseek_set_ok e) (fopen_out_ok e)
      (fread_fault e) (fwrite_fault e) (fclose_in_ok e) b.

(** The world in which the loop of [encryptFile] starts: both files
    open, the destination empty. *)
Definition opened (inputFile outputFile : string) (files : gmap string (list Z)) : world :=
  World (<[outputFile := []]> files)
        [EvOpen InFile inputFile true; EvOpen OutFile outputFile true] 0 false.

(** The value [encryptFile] returns after the loop has left [result] and
    the error indicator [err]. *)
Definition final_result (e : env) (result : Z) (err : bool) : Z :=
  if fclose_out_ok e then (if err then -1 else result) else -1.

(** The bytes of the destination after a run. *)
Definition destination (outputFile : string) (o : outcome (Z * world)) : option (list Z) :=
  match o with
  | Done (_, w) => fs w !! outputFile
  | _ => None
  end.

(** The chunked loop run without faults on a source [D], with a buffer of
    [cap] bytes: the bytes it leaves in the destination. *)
Definition chunked_run (cap : nat) (D key : list Z) : option (list Z) :=
  destination "out"
    (encryptFile_with cap (S (length D)) calm "in" "out" key {[ "in" := D ]}).

(** The messages that report a failure of [encryptFile]; the warning about
    closing the input and the progress bar are not among them. *)
Definition is_failure (ev : event) : bool :=
  match ev with
  | EvPrint (MsgCannotOpenInput _) | EvPrint MsgCannotDetermineSize
  | EvPrint MsgInputEmpty | EvPrint (MsgCannotCreateOutput _)
  | EvPrint MsgWriteFailed | EvPrint MsgReadFailed
  | EvPrint MsgCloseOutputFailed => true
  | _ => false
  end.

Definition failed (tr : list event) : bool := existsb is_failure tr.

(** ** The keyboard *)

Definition MAX_FILENAME_LENGTH : nat := 256.

(** The standard input is the list of the characters not read yet; its end
    is the end of the input.  ['\n'] is 10. *)
Definition NEWLINE : Z := 10.

(** The characters [fgets] stores when the buffer has room for [room] of
    them, and the input left: it stops after a newline, which it stores. *)
Fixpoint fgets_chars (room : nat) (input : list Z) : list Z * list Z :=
  match room, input with
  | S room', c :: rest =>
      if c =? NEWLINE then ([c], rest)
      else let '(line, rest') := fgets_chars room' rest in (c :: line, rest')
  | _, _ => ([], input)
  end.

(** [fgets(buffer, size, stdin)]: [None] is the [NULL] returned at the end
    of the input, when the buffer is left as it was; otherwise the characters
    stored, which the terminating NUL follows. *)
Definition fgets (size : nat) (input : list Z) : option (list Z) * list Z :=
  match input with
  | [] => (None, [])
  | _ :: _ =>
      let '(line, rest) := fgets_chars (size - 1) input in (Some line, rest)
  end.

(** The C string held in a buffer. *)
Definition cstring (buffer : list Z) : list Z := take (strlen buffer) buffer.

(** [buffer[i]]; the cell after the characters stored is the NUL. *)
Definition char_at (buffer : list Z) (i : nat) : Z := default 0 (buffer !! i).

(** What the interactive functions print, one constructor per message;
    [UiReport] carries the messages of [validateKey] and [UiTransform] the
    call of [encryptFile] or [decryptFile] made by [main]: its arguments,
    the files before it, the value returned and its events. *)
Inductive ui : Type :=
| UiEnterChoice
| UiInvalidInput
| UiInvalidChoice
| UiPrompt (text : string)
| UiFilenameReadFailed
| UiFilenameEmpty
| UiEnterKey (min : nat)
| UiReport (m : message)
| UiBanner
| UiMenu
| UiGoodbye
| UiFileMissing (name : list Z)
| UiSameFile
| UiOverwrite (name : list Z)
| UiCancelled
| UiProcessing
| UiTransform (choice : Z) (inputFile outputFile key : list Z)
    (before : gmap string (list Z)) (result : Z) (events : list event)
| UiEncrypted (inputFile outputFile : list Z)
| UiDecrypted (inputFile outputFile : list Z)
| UiBlank.

(** [secureKeyInput(key, maxLen)]: the new content of [key] and the input
    left. *)
Definition secureKeyInput (maxLen : nat) (input : list Z) : list Z * list Z :=
  match fgets maxLen input with
  | (None, rest) => ([0], rest)
  | (Some key, rest) =>
      let len := strlen key in
      if (0 <? len)%nat && (char_at key (len - 1) =? NEWLINE)
      then (<[(len - 1)%nat := 0]> key, rest)
      else (key, rest)
  end.

(** [getEncryptionKey(key)]: the value returned, the content of [key], the
    input left and what was printed. *)
Definition getEncryptionKey (input : list Z) : Z * list Z * list Z * list ui :=
  let '(key, rest) := secureKeyInput MAX_KEY_LENGTH input in
  let '(status, printed) := validateKey key in
  let out := UiEnterKey MIN_KEY_LENGTH :: map UiReport printed in
  if negb (status =? 0) then (-1, key, rest, out) else (0, key, rest, out).

(** [getFilename(filename, prompt)]. *)
Definition getFilename (filename : list Z) (prompt : string) (input : list Z)
  : Z * list Z * list Z * list ui :=
  match fgets MAX_FILENAME_LENGTH input with
  | (None, rest) => (-1, filename, rest, [UiPrompt prompt; UiFilenameReadFailed])
  | (Some line, rest) =>
      let len := strlen line in
      let stripped := (0 <? len)%nat && (char_at line (len - 1) =? NEWLINE) in
      let filename' := if stripped then <[(len - 1)%nat := 0]> line else line in
      let len' := if stripped then (len - 1)%nat else len in
      if (len' =? 0)%nat
      then (-1, filename', rest, [UiPrompt prompt; UiFilenameEmpty])
      else (0, filename', rest, [UiPrompt prompt])
  end.

(** [clearInputBuffer()]: the input left. *)
Fixpoint clearInputBuffer (input : list Z) : list Z :=
  match input with
  | [] => []
  | c :: rest => if c =? NEWLINE then rest else clearInputBuffer rest
  end.
(** A line as typed: no newline and no NUL inside. *)
Definition plain_line (line : list Z) : Prop :=
  Forall (fun c => c <> NEWLINE /\ c <> 0) line.

(** What follows a line in the input: a newline and the rest, or the end
    of the input. *)
Definition line_end (ending : list Z) : Prop :=
  ending = [] \/ exists rest, ending = NEWLINE :: rest.

(** ** Reading the menu choice *)

(** [isspace] and [isdigit] in the C locale. *)
Definition is_space (c : Z) : bool := (c =? 32) || ((9 <=? c) && (c <=? 13)).
Definition is_digit (c : Z) : bool := (48 <=? c) && (c <=? 57).

Fixpoint skip_spaces (input : list Z) : list Z :=
  match input with
  | [] => []
  | c :: rest => if is_space c then skip_spaces rest else input
  end.

(** The decimal digits at the head of the input, as a number. *)
Fixpoint read_digits (acc : Z) (input : list Z) : Z * list Z :=
  match input with
  | [] => (acc, [])
  | c :: rest =>
      if is_digit c then read_digits (10 * acc + (c - 48)) rest else (acc, input)
  end.

(** The range of [int], taken to be 32 bits wide. *)
Definition INT_MIN : Z := -2147483648.
Definition INT_MAX : Z := 2147483647.

(** The three outcomes of [scanf("%d", &choice)]: one item converted, none
    (a matching failure or the end of the input), or a number that [int]
    cannot hold, for which the behaviour is undefined. *)
Inductive scanned : Type :=
| Converted (value : Z)
| NotConverted
| Unrepresentable.

(** [scanf("%d", &choice)]: white space is skipped, then an optional sign
    and the digits are read; the first character that is not part of the
    number stays in the input. *)
Definition scanf_int (input : list Z) : scanned * list Z :=
  match skip_spaces input with
  | [] => (NotConverted, [])
  | c :: rest =>
      let negative := c =? 45 in
      let body := if negative || (c =? 43) then rest else c :: rest in
      match body with
      | [] => (NotConverted, [])
      | d :: _ =>
          if is_digit d then
            let '(n, rest') := read_digits 0 body in
            let value := if negative then - n else n in
            if (INT_MIN <=? value) && (value <=? INT_MAX)
            then (Converted value, rest')
            else (Unrepresentable, rest')
          else (NotConverted, body)
      end
  end.

(** [getChoice()]: the choice, the input left and what was printed after
    [printed]. *)
Fixpoint getChoice (fuel : nat) (input : list Z) (printed : list ui)
  : outcome (Z * list Z * list ui) :=
  match fuel with
  | O => OutOfFuel
  | S fuel' =>
      let printed1 := printed ++ [UiEnterChoice] in
      match scanf_int input with
      | (Converted choice, rest) =>
          let rest' := clearInputBuffer rest in
          if (1 <=? choice) && (choice <=? 3) then Done (choice, rest', printed1)
          else getChoice fuel' rest' (printed1 ++ [UiInvalidChoice])
      | (NotConverted, rest) =>
          getChoice fuel' (clearInputBuffer rest) (printed1 ++ [UiInvalidInput])
      | (Unrepresentable, _) => Undefined
      end
  end.

(** ** The main loop *)

(** The file name held in a buffer, as a path of the file system: its
    characters as bytes. *)
Definition path_of (buffer : list Z) : string :=
  String.string_of_list_ascii
    (map (fun c => Ascii.ascii_of_N (Z.to_N (to_uchar c))) (cstring buffer)).

(** [fileExists(filename)]: opening the file for reading succeeds when it
    exists. *)
Definition fileExists (filename : list Z) (files : gmap string (list Z)) : bool :=
  bool_decide (is_Some (files !! path_of filename)).

(** [strcmp(a, b) == 0]. *)
Definition same_string (a b : list Z) : bool :=
  bool_decide (cstring a = cstring b).

(** [tolower] in the C locale. *)
Definition tolower (c : Z) : Z := if (65 <=? c) && (c <=? 90) then c + 32 else c.

(** [scanf(" %c", &confirm)]: white space is skipped and one character
    read; [None] at the end of the input, when [confirm] is not set. *)
Definition scanf_char (input : list Z) : option Z * list Z :=
  match skip_spaces input with
  | [] => (None, [])
  | c :: rest => (Some c, rest)
  end.

(** The variables of [main] and the world around it. *)
Record session : Type := Session {
  stdin : list Z;
  disk : gmap string (list Z);
  console : list ui;
  inputFile : list Z;
  outputFile : list Z;
  key_buffer : list Z
}.

Definition say (u : ui) (s : session) : session :=
  Session (stdin s) (disk s) (console s ++ [u]) (inputFile s) (outputFile s)
    (key_buffer s).

(** The block guarded by [fileExists(outputFile)]: whether to go on, and
    the session after the question.  [None]: [confirm] is read without
    having been set. *)
Definition confirm_overwrite (s : session) : option (bool * session) :=
  if fileExists (outputFile s) (disk s) then
    let s1 := say (UiOverwrite (cstring (outputFile s))) s in
    match scanf_char (stdin s1) with
    | (None, _) => None
    | (Some confirm, rest) =>
        let s2 := Session (clearInputBuffer rest) (disk s1) (console s1)
                    (inputFile s1) (outputFile s1) (key_buffer s1) in
        if negb (tolower confirm =? 121) then Some (false, say UiCancelled s2)
        else Some (true, s2)
    end
  else Some (true, s).

(** The call of [encryptFile] or [decryptFile] chosen in the menu and the
    messages after it. *)
Definition transform (fuel : nat) (e : env) (choice : Z) (s : session)
  : outcome session :=
  let run (success : ui) :=
    match encryptFile fuel e (path_of (inputFile s)) (path_of (outputFile s))
            (key_buffer s) (disk s) with
    | Done (result, w) =>
        let s1 := Session (stdin s) (fs w)
                    (console s ++
                     [UiTransform choice (inputFile s) (outputFile s) (key_buffer s)
                        (disk s) result (trace w)])
                    (inputFile s) (outputFile s) (key_buffer s) in
        Done (if result =? 0 then say success s1 else s1)
    | Undefined => Undefined
    | OutOfFuel => OutOfFuel
    end in
  if choice =? 1
  then run (UiEncrypted (cstring (inputFile s)) (cstring (outputFile s)))
  else if choice =? 2
  then run (UiDecrypted (cstring (inputFile s)) (cstring (outputFile s)))
  else Done s.

(** The [while (1)] loop of [main]. *)
Fixpoint main_loop (fuel : nat) (e : env) (s : session) : outcome (Z * session) :=
  match fuel with
  | O => OutOfFuel
  | S fuel' =>
      match getChoice fuel' (stdin s) (console s ++ [UiMenu]) with
      | Undefined => Undefined
      | OutOfFuel => OutOfFuel
      | Done (choice, rest, printed) =>
          let s1 := Session rest (disk s) printed (inputFile s) (outputFile s)
                      (key_buffer s) in
          if choice =? 3 then Done (0, say UiGoodbye s1)
          else
            let '(status, name, rest, printed) :=
              getFilename (inputFile s1) "Enter input filename: " (stdin s1) in
            let s2 := Session rest (disk s1) (console s1 ++ printed) name
                        (outputFile s1) (key_buffer s1) in
            if negb (status =? 0) then main_loop fuel' e s2
            else if negb (fileExists (inputFile s2) (disk s2))
            then main_loop fuel' e (say (UiFileMissing (cstring (inputFile s2))) s2)
            else
              let '(status, name, rest, printed) :=
                getFilename (outputFile s2) "Enter output filename: " (stdin s2) in
              let s3 := Session rest (disk s2) (console s2 ++ printed) (inputFile s2)
                          name (key_buffer s2) in
              if negb (status =? 0) then main_loop fuel' e s3
              else if same_string (inputFile s3) (outputFile s3)
              then main_loop fuel' e (say UiSameFile s3)
              else
                match confirm_overwrite s3 with
                | None => Undefined
                | Some (false, s4) => main_loop fuel' e s4
                | Some (true, s4) =>
                    let '(status, key, rest, printed) := getEncryptionKey (stdin s4) in
                    let s5 := Session rest (disk s4) (console s4 ++ printed)
                                (inputFile s4) (outputFile s4) key in
                    if negb (status =? 0) then main_loop fuel' e s5
                    else
                      match transform fuel' e choice (say UiProcessing s5) with
                      | Done s6 => main_loop fuel' e (say UiBlank s6)
                      | Undefined => Undefined
                      | OutOfFuel => OutOfFuel
                      end
                end
      end
  end.

(** [main()], started with the input [input] and the files [files]. *)
Definition main (fuel : nat) (e : env) (input : list Z) (files : gmap string (list Z))
  : outcome (Z * session) :=
  main_loop fuel e (Session input files [UiBanner] [] [] []).

(** What [main] checks before it starts a transform. *)
Definition guarded (u : ui) : Prop :=
  match u with
  | UiTransform choice inputFile outputFile key before _ _ =>
      (choice = 1 \/ choice = 2) /\
      path_of inputFile <> path_of outputFile /\
      is_Some (before !! path_of inputFile) /\
      (4 <= strlen key <= 126)%nat
  | _ => True
  end.

(** The state that [main] keeps: characters are bytes and every transform
    recorded was guarded. *)
Definition sane (s : session) : Prop :=
  Forall is_uchar (stdin s) /\ Forall is_uchar (inputFile s) /\
  Forall is_uchar (outputFile s) /\ Forall guarded (console s).

(** The session in which [main] starts a transform after the three
    answers [a], [b], [k]. *)
Definition answered (s : session) (a b k rest : list Z) : session :=
  say UiProcessing
    (Session rest (disk s)
       (console s ++
        [UiMenu; UiEnterChoice; UiPrompt "Enter input filename: ";
         UiPrompt "Enter output filename: "; UiEnterKey 4])
       (a ++ [0]) (b ++ [0]) (k ++ [0])).

(** ** Bytes *)

Section Bytes.

Lemma to_uchar_range c : is_uchar (to_uchar c).
Proof. unfold is_uchar, to_uchar. apply Z.mod_pos_bound. lia. Qed.

Lemma to_uchar_id z : is_uchar z -> to_uchar z = z.
Proof. unfold is_uchar, to_uchar. intros H. apply Z.mod_small. exact H. Qed.

Lemma lxor_mod_256 a b :
  Z.lxor a b mod 256 = Z.lxor (a mod 256) (b mod 256).
Proof.
  change 256 with (2 ^ 8).
  apply Z.bits_inj'. intros n Hn.
  rewrite Z.lxor_spec.
  destruct (Z.lt_ge_cases n 8) as [Hlt | Hge].
  - rewrite !Z.mod_pow2_bits_low by lia. apply Z.lxor_spec.
  - rewrite !Z.mod_pow2_bits_high by lia. reflexivity.
Qed.

Lemma lxor_uchar a b : is_uchar a -> is_uchar b -> is_uchar (Z.lxor a b).
Proof.
  intros Ha Hb.
  rewrite <- (to_uchar_id a Ha), <- (to_uchar_id b Hb).
  unfold to_uchar. rewrite <- lxor_mod_256. apply to_uchar_range.
Qed.

Lemma xor_uchar_range d c : is_uchar (xor_uchar d c).
Proof. apply to_uchar_range. Qed.

Lemma xor_uchar_involutive d c :
  is_uchar d -> xor_uchar (xor_uchar d c) c = d.
Proof.
  intros Hd. unfold xor_uchar.
  pose proof (to_uchar_range c) as Hc.
  rewrite (to_uchar_id (Z.lxor d (to_uchar c))) by (apply lxor_uchar; assumption).
  rewrite Z.lxor_assoc, Z.lxor_nilpotent, Z.lxor_0_r.
  apply to_uchar_id. exact Hd.
Qed.

Lemma strlen_le s : (strlen s <= length s)%nat.
Proof.
  induction s as [| c s IH]; simpl; [lia |].
  destruct (Z.eqb c 0); simpl; lia.
Qed.

End Bytes.

(** ** The XOR engine computes the contract at offset 0 *)

Section XorEngine.

Variables (key : list Z) (keyLen : nat).

Lemma xorCipher_body_defined data i :
  (0 < keyLen <= length key)%nat -> (i < length data)%nat ->
  xorCipher_body key keyLen data i = Some (xor_range key keyLen i 1 data).
Proof.
  intros [Hpos Hle] Hi. unfold xorCipher_body.
  destruct (Nat.eqb_spec keyLen 0) as [-> | _]; [lia |].
  destruct (lookup_lt_is_Some_2 data i Hi) as [d Hd].
  assert (i mod keyLen < length key)%nat as Hk.
  { pose proof (Nat.mod_upper_bound i keyLen). lia. }
  destruct (lookup_lt_is_Some_2 key _ Hk) as [c Hc].
  rewrite Hd, Hc. simpl. f_equal.
  apply list_eq. intros j. unfold xor_range. rewrite list_lookup_imap.
  destruct (decide (i = j)) as [<- | Hne].
  - rewrite list_lookup_insert_eq by exact Hi. rewrite Hd. simpl.
    rewrite bool_decide_eq_true_2 by lia.
    unfold key_at. rewrite Hc. reflexivity.
  - rewrite list_lookup_insert_ne by exact Hne.
    rewrite bool_decide_eq_false_2 by lia.
    destruct (data !! j); reflexivity.
Qed.

Lemma xor_range_length from count data :
  length (xor_range key keyLen from count data) = length data.
Proof. unfold xor_range. apply length_imap. Qed.

Lemma xor_range_grow from count data :
  xor_range key keyLen (S from) count (xor_range key keyLen from 1 data) = xor_range key keyLen from (S count) data.
Proof.
  apply list_eq. intros j. unfold xor_range. rewrite !list_lookup_imap.
  destruct (data !! j) as [d |]; simpl; [| reflexivity].
  f_equal.
  destruct (decide (j = from)) as [-> | Hne].
  - rewrite (bool_decide_eq_false_2 (S from <= from < _)%nat) by lia.
    rewrite !bool_decide_eq_true_2 by lia. reflexivity.
  - rewrite (bool_decide_eq_false_2 (from <= j < from + 1)%nat) by lia.
    rewrite (bool_decide_ext (S from <= j < S from + count)%nat
                             (from <= j < from + S count)%nat) by lia.
    reflexivity.
Qed.

Lemma xorCipher_for_defined count : forall from data,
  (0 < keyLen <= length key)%nat -> (from + count <= length data)%nat ->
  xorCipher_for count from key keyLen data = Some (xor_range key keyLen from count data).
Proof.
  induction count as [| count IH]; intros from data Hkey Hlen; simpl.
  - f_equal. apply list_eq. intros j. unfold xor_range.
    rewrite list_lookup_imap. rewrite bool_decide_eq_false_2 by lia.
    destruct (data !! j); reflexivity.
  - rewrite xorCipher_body_defined by (auto; lia). simpl.
    rewrite IH by (rewrite ?xor_range_length; auto; lia).
    rewrite xor_range_grow. reflexivity.
Qed.

(** With a key of positive length the engine is total and computes the
    contract with [start_offset = 0]. *)
Lemma xorCipher_defined data :
  (0 < keyLen <= length key)%nat ->
  xorCipher data (length data) key keyLen = Some (transform_spec data key keyLen 0).
Proof.
  intros Hkey. unfold xorCipher.
  rewrite xorCipher_for_defined by (auto; lia). f_equal.
  apply list_eq. intros j. unfold xor_range, transform_spec.
  rewrite !list_lookup_imap.
  destruct (data !! j) as [d |] eqn:Hd; simpl; [| reflexivity].
  apply lookup_lt_Some in Hd.
  rewrite bool_decide_eq_true_2 by lia. reflexivity.
Qed.

(** With [keyLen = 0] the first remainder [i % keyLen] is undefined. *)
Lemma xorCipher_undefined data :
  keyLen = O -> data <> [] ->
  xorCipher data (length data) key keyLen = None.
Proof.
  intros -> Hne. destruct data as [| d data]; [congruence |]. reflexivity.
Qed.

End XorEngine.

(** ** Chunks *)

Section Chunks.

Variables (cap : nat) (key : list Z) (keyLen : nat).
Hypothesis cap_pos : (0 < cap)%nat.

Lemma chunked_xor_length D : length (chunked_xor cap D key keyLen) = length D.
Proof. unfold chunked_xor. apply length_imap. Qed.

Lemma chunked_xor_lookup D j d c :
  D !! j = Some d -> key !! ((j mod cap) mod keyLen)%nat = Some c ->
  chunked_xor cap D key keyLen !! j = Some (xor_uchar d c).
Proof.
  intros Hd Hc. unfold chunked_xor. rewrite list_lookup_imap, Hd. simpl.
  unfold key_at. rewrite Hc. reflexivity.
Qed.

(** The first chunk is transformed from key index 0, and so is the rest. *)
Lemma chunked_xor_step D :
  chunked_xor cap D key keyLen =
  transform_spec (take cap D) key keyLen 0 ++ chunked_xor cap (drop cap D) key keyLen.
Proof.
  rewrite <- (take_drop cap D) at 1.
  unfold chunked_xor, transform_spec. rewrite imap_app. f_equal.
  - apply imap_ext. intros i d Hi. simpl.
    apply lookup_lt_Some in Hi. rewrite length_take in Hi.
    rewrite Nat.mod_small by lia. reflexivity.
  - apply imap_ext. intros i d Hi. simpl.
    apply lookup_lt_Some in Hi. rewrite length_drop in Hi.
    rewrite length_take, Nat.min_l by lia.
    replace (cap + i)%nat with (i + 1 * cap)%nat by lia.
    rewrite Nat.Div0.mod_add. reflexivity.
Qed.

(** A source that fits one buffer is transformed by one call. *)
Lemma chunked_xor_one_chunk D :
  (length D <= cap)%nat -> chunked_xor cap D key keyLen = transform_spec D key keyLen 0.
Proof.
  intros Hle. unfold chunked_xor, transform_spec.
  apply imap_ext. intros i d Hi. simpl.
  apply lookup_lt_Some in Hi. rewrite Nat.mod_small by lia. reflexivity.
Qed.

(** When the key length divides the capacity the phase restart is
    invisible. *)
Lemma chunked_xor_divides D :
  (keyLen | cap)%nat -> chunked_xor cap D key keyLen = transform_spec D key keyLen 0.
Proof.
  intros [q Hq]. unfold chunked_xor, transform_spec.
  apply imap_ext. intros i d _. simpl. unfold key_at.
  destruct (Nat.eq_dec keyLen O) as [-> | Hk].
  - replace cap with O in cap_pos by lia. lia.
  - rewrite (Nat.div_mod_eq i cap) at 2. rewrite Hq.
    replace (q * keyLen * (i / (q * keyLen)) + i mod (q * keyLen))%nat
      with (i mod (q * keyLen) + (q * (i / (q * keyLen))) * keyLen)%nat by lia.
    rewrite Nat.Div0.mod_add. reflexivity.
Qed.

End Chunks.

(** ** The library calls *)

Section Library.

Variables (e : env) (inputFile outputFile : string).

Lemma fread_inv count w buffer w1 :
  fread e inputFile count w = (buffer, w1) ->
  fs w1 = fs w /\
  trace w1 = trace w ++ [EvRead count (length buffer)] /\
  in_pos w1 = (in_pos w + length buffer)%nat /\
  (in_err w = true -> in_err w1 = true) /\
  (in_err w1 = false ->
     in_err w = false /\ buffer = take count (drop (in_pos w) (content inputFile w))) /\
  (length buffer <= length (content inputFile w) - in_pos w)%nat.
Proof.
  unfold fread. intros H. injection H as Hbuf Hw. subst w1. simpl.
  set (full := take count (drop (in_pos w) (content inputFile w))) in *.
  assert (length full <= length (content inputFile w) - in_pos w)%nat as Hfull.
  { unfold full. rewrite length_take, length_drop. lia. }
  split; [reflexivity |].
  split; [rewrite Hbuf; reflexivity |].
  split; [rewrite Hbuf; reflexivity |].
  split; [intros ->; reflexivity |].
  split.
  - intros Herr. apply orb_false_iff in Herr as [Herr Hfault]. split; [exact Herr |].
    subst buffer. destruct (fread_fault e (in_pos w)); [| reflexivity].
    rewrite Hfault. reflexivity.
  - subst buffer. destruct (fread_fault e (in_pos w)) as [m |]; [| exact Hfull].
    destruct (m <? length full)%nat; [| exact Hfull].
    rewrite length_take. lia.
Qed.

(** With no read fault a read delivers all that was asked for, up to the
    end of the file. *)
Lemma fread_no_fault count w :
  fread_fault e (in_pos w) = None ->
  fread e inputFile count w =
    (take count (drop (in_pos w) (content inputFile w)),
     emit (EvRead count (length (take count (drop (in_pos w) (content inputFile w)))))
       (World (fs w) (trace w)
          (in_pos w + length (take count (drop (in_pos w) (content inputFile w))))
          (in_err w))).
Proof.
  intros Hnone. unfold fread. rewrite Hnone. rewrite orb_false_r. reflexivity.
Qed.

Lemma fwrite_inv buffer count w written w2 :
  fwrite e outputFile buffer count w = (written, w2) ->
  fs w2 = <[outputFile := content outputFile w ++ take written buffer]> (fs w) /\
  trace w2 = trace w ++ [EvWrite count written] /\
  in_pos w2 = in_pos w /\
  in_err w2 = in_err w /\
  (written <= count)%nat.
Proof.
  unfold fwrite. intros H. injection H as Hwritten Hw. subst w2. simpl.
  rewrite Hwritten. repeat split.
  subst written. destruct (fwrite_fault e _); lia.
Qed.

End Library.

(** ** The loop *)

Section Loop.

Variables (cap : nat) (e : env) (inputFile outputFile : string).
Variables (key : list Z) (keyLen : nat) (fileSize : Z).
Hypothesis keyLen_le : (keyLen <= length key)%nat.

(** The engine never fails on a chunk when the key is not empty, and
    always does when it is. *)
Lemma xorCipher_chunk buffer :
  buffer <> [] ->
  xorCipher buffer (length buffer) key keyLen =
    if Nat.eqb keyLen 0 then None else Some (transform_spec buffer key keyLen 0).
Proof.
  intros Hne. destruct (Nat.eqb_spec keyLen 0) as [H0 | Hpos].
  - apply xorCipher_undefined; assumption.
  - apply xorCipher_defined. lia.
Qed.

Lemma transform_spec_length buffer off :
  length (transform_spec buffer key keyLen off) = length buffer.
Proof. unfold transform_spec. apply length_imap. Qed.

(** What a run of the loop that returns has done to the files. *)
Lemma transform_loop_output fuel : forall total w r w',
  inputFile <> outputFile -> (0 < cap)%nat ->
  transform_loop fuel cap e inputFile outputFile key keyLen fileSize total w
    = Done (r, w') ->
  (forall p, p <> outputFile -> fs w' !! p = fs w !! p) /\
  (is_Some (fs w !! outputFile) -> is_Some (fs w' !! outputFile)) /\
  (in_err w = true -> in_err w' = true) /\
  (r = 0 -> in_err w' = false ->
   content outputFile w' =
     content outputFile w ++
     chunked_xor cap (drop (in_pos w) (content inputFile w)) key keyLen).
Proof.
  induction fuel as [| fuel IH]; intros total w r w' Hne Hcap Hrun; [discriminate |].
  cbn [transform_loop] in Hrun.
  destruct (fread e inputFile cap w) as [buffer w1] eqn:Hread.
  apply fread_inv in Hread as (Hfs1 & _ & Hpos1 & Herr1 & Hfull & Hlen1).
  destruct (Nat.ltb_spec 0 (length buffer)) as [Hgot | Hgot].
  - assert (buffer <> []) as Hbuf by (intros ->; simpl in Hgot; lia).
    rewrite (xorCipher_chunk buffer Hbuf) in Hrun.
    destruct (Nat.eqb keyLen 0); [discriminate |].
    destruct (fwrite e outputFile _ (length buffer) w1) as [written w2] eqn:Hwrite.
    apply fwrite_inv in Hwrite as (Hfs2 & _ & Hpos2 & Herr2 & Hle).
    destruct (Nat.eqb_spec written (length buffer)) as [Hall | Hshort]; simpl in Hrun.
    + apply IH in Hrun as (Hother & Hsome & Herr & Hout); [| assumption ..].
      simpl in Hother, Hsome, Herr, Hout.
      rewrite Hfs2, Hfs1 in Hother, Hsome.
      split; [| split; [| split]].
      * intros p Hp. rewrite Hother by exact Hp. apply lookup_insert_ne. congruence.
      * intros _. apply Hsome. rewrite lookup_insert_eq. eauto.
      * intros Hw. apply Herr. rewrite Herr2. auto.
      * intros Hr Hok. specialize (Hout Hr Hok).
        assert (in_err w1 = false) as Hok1.
        { destruct (in_err w1) eqn:E; [| reflexivity].
          rewrite Herr in Hok; [discriminate | congruence]. }
        destruct (Hfull Hok1) as [_ Hbuffer].
        rewrite Hout. unfold content at 1 2 3. simpl.
        rewrite Hfs2, Hfs1, lookup_insert_eq, lookup_insert_ne by congruence. simpl.
        fold (content inputFile w). unfold content at 1. rewrite Hfs1.
        fold (content outputFile w).
        rewrite <- app_assoc. f_equal.
        rewrite (chunked_xor_step cap key keyLen Hcap (drop (in_pos w) _)).
        rewrite <- Hbuffer.
        rewrite Hall, take_ge by (rewrite transform_spec_length; lia). f_equal.
        rewrite Hpos2, Hpos1, drop_drop. f_equal.
        rewrite Hbuffer, length_take, length_drop in *.
        destruct (Nat.le_gt_cases cap (length (content inputFile w) - in_pos w)).
        -- f_equal. lia.
        -- rewrite !drop_ge by lia. reflexivity.
    + injection Hrun as <- <-. simpl. rewrite Hfs2, Hfs1.
      split; [| split; [| split]].
      * intros p Hp. apply lookup_insert_ne. congruence.
      * intros _. rewrite lookup_insert_eq. eauto.
      * intros Hw. rewrite Herr2. auto.
      * discriminate.
  - injection Hrun as <- <-. rewrite Hfs1.
    split; [| split; [| split]]; auto.
    intros _ Hok. destruct (Hfull Hok) as [_ Hbuffer].
    unfold content at 1. rewrite Hfs1. fold (content outputFile w).
    assert (drop (in_pos w) (content inputFile w) = []) as ->.
    { assert (length buffer = 0)%nat as H0 by lia.
      rewrite Hbuffer, length_take in H0.
      apply nil_length_inv. lia. }
    rewrite app_nil_r. reflexivity.
Qed.

(** The events of a run of the loop that returns. *)
Lemma transform_loop_trace fuel : forall total w r w',
  transform_loop fuel cap e inputFile outputFile key keyLen fileSize total w
    = Done (r, w') ->
  exists tr, trace w' = trace w ++ tr /\ loop_trace cap r tr.
Proof.
  induction fuel as [| fuel IH]; intros total w r w' Hrun; [discriminate |].
  cbn [transform_loop] in Hrun.
  destruct (fread e inputFile cap w) as [buffer w1] eqn:Hread.
  apply fread_inv in Hread as (_ & Htr1 & _).
  destruct (Nat.ltb_spec 0 (length buffer)) as [Hgot | Hgot].
  - destruct (xorCipher buffer (length buffer) key keyLen) as [buffer' |];
      [| discriminate].
    destruct (fwrite e outputFile _ (length buffer) w1) as [written w2] eqn:Hwrite.
    apply fwrite_inv in Hwrite as (_ & Htr2 & _).
    destruct (Nat.eqb_spec written (length buffer)) as [Hall | Hshort]; simpl in Hrun.
    + apply IH in Hrun as (tr & Htr & Hloop). simpl in Htr.
      eexists. split; [| apply loop_trace_chunk; exact Hloop].
      rewrite Htr, Htr2, Htr1, Hall, <- !app_assoc. reflexivity.
    + injection Hrun as <- <-. simpl.
      eexists. split; [| apply (loop_trace_abort cap (length buffer) written Hshort)].
      rewrite Htr2, Htr1, <- !app_assoc. reflexivity.
  - injection Hrun as <- <-.
    exists [EvRead cap 0]. split; [| constructor].
    rewrite Htr1. replace (length buffer) with O by lia. reflexivity.
Qed.

(** The loop returns once the fuel exceeds the number of unread bytes, and
    with no fault it returns 0. *)
Lemma transform_loop_returns fuel : forall total w,
  (0 < keyLen)%nat ->
  inputFile <> outputFile \/ (length (content inputFile w) <= in_pos w)%nat ->
  (length (content inputFile w) - in_pos w < fuel)%nat ->
  exists r w',
    transform_loop fuel cap e inputFile outputFile key keyLen fileSize total w
      = Done (r, w') /\
    ((forall p, fread_fault e p = None) -> (forall n, fwrite_fault e n = None) ->
     in_err w = false -> r = 0 /\ in_err w' = false).
Proof.
  induction fuel as [| fuel IH]; intros total w Hkey Hpaths Hfuel; [lia |].
  cbn [transform_loop].
  destruct (fread e inputFile cap w) as [buffer w1] eqn:Hread.
  pose proof Hread as Hread'.
  apply fread_inv in Hread as (Hfs1 & _ & Hpos1 & _ & _ & Hlen1).
  destruct (Nat.ltb_spec 0 (length buffer)) as [Hgot | Hgot].
  - assert (buffer <> []) as Hbuf by (intros ->; simpl in Hgot; lia).
    rewrite (xorCipher_chunk buffer Hbuf).
    destruct (Nat.eqb_spec keyLen 0) as [H0 | _]; [lia |].
    destruct Hpaths as [Hne | Hend]; [| lia].
    destruct (fwrite e outputFile _ (length buffer) w1) as [written w2] eqn:Hwrite.
    pose proof Hwrite as Hwrite'.
    apply fwrite_inv in Hwrite as (Hfs2 & _ & Hpos2 & Herr2 & _).
    destruct (Nat.eqb_spec written (length buffer)) as [Hall | Hshort]; simpl.
    + set (w3 := print _ w2).
      assert (content inputFile w3 = content inputFile w) as Hsame.
      { unfold content. simpl. rewrite Hfs2, Hfs1, lookup_insert_ne by congruence.
        reflexivity. }
      destruct (IH (total + Z.of_nat (length buffer)) w3 Hkey (or_introl Hne))
        as (r & w' & Hrun & Hcalm).
      { rewrite Hsame. simpl. rewrite Hpos2, Hpos1. lia. }
      exists r, w'. split; [exact Hrun |].
      intros Hr Hw Herr. apply Hcalm; try assumption.
      simpl. rewrite Herr2.
      rewrite (fread_no_fault e inputFile cap w (Hr _)) in Hread'.
      injection Hread' as _ <-. simpl. exact Herr.
    + eexists _, _. split; [reflexivity |].
      intros _ Hw _. exfalso. apply Hshort.
      unfold fwrite in Hwrite'. rewrite Hw in Hwrite'. congruence.
  - eexists _, _. split; [reflexivity |].
    intros Hr _ Herr. split; [reflexivity |].
    rewrite (fread_no_fault e inputFile cap w (Hr _)) in Hread'.
    injection Hread' as _ <-. simpl. exact Herr.
Qed.

End Loop.

(** The loop consults the environment for read and write faults only. *)
Lemma transform_loop_env e e' cap inputFile outputFile key keyLen fileSize fuel :
  (forall p, fread_fault e' p = fread_fault e p) ->
  (forall n, fwrite_fault e' n = fwrite_fault e n) ->
  forall total w,
    transform_loop fuel cap e' inputFile outputFile key keyLen fileSize total w =
    transform_loop fuel cap e inputFile outputFile key keyLen fileSize total w.
Proof.
  intros Hr Hw. induction fuel as [| fuel IH]; intros total w; [reflexivity |].
  cbn [transform_loop].
  assert (fread e' inputFile cap w = fread e inputFile cap w) as ->.
  { unfold fread. rewrite Hr. reflexivity. }
  destruct (fread e inputFile cap w) as [buffer w1].
  destruct (0 <? length buffer)%nat; [| reflexivity].
  destruct (xorCipher buffer (length buffer) key keyLen) as [buffer' |]; [| reflexivity].
  assert (fwrite e' outputFile buffer' (length buffer) w1 =
          fwrite e outputFile buffer' (length buffer) w1) as ->.
  { unfold fwrite. rewrite Hw. reflexivity. }
  destruct (fwrite e outputFile buffer' (length buffer) w1) as [written w2].
  destruct (negb (written =? length buffer)%nat); [reflexivity |].
  apply IH.
Qed.

(** ** The whole of [encryptFile] *)

(** Closes the goal of an exit path whose events are explicit. *)
Ltac early_exit :=
  eexists; split; [reflexivity |]; simpl;
  repeat split; try reflexivity;
  intros; rewrite ?elem_of_cons, ?elem_of_nil in *; intuition discriminate.

Section EncryptFile.

Variables (cap fuel : nat) (e : env) (inputFile outputFile : string).
Variables (key : list Z) (files : gmap string (list Z)).

Lemma finish_inv result w :
  fs (finish e result w).2 = fs w /\
  trace (finish e result w).2 = trace w ++ closing e (in_err w) /\
  (finish e result w).1 = final_result e result (in_err w).
Proof.
  unfold finish, final_result, closing, fclose, print, emit.
  destruct (in_err w), (fclose_in_ok e), (fclose_out_ok e); simpl;
    rewrite <- ?app_assoc; auto.
Qed.

(** The path through [encryptFile] that reaches the loop. *)
Lemma encryptFile_main D :
  fopen_in_ok e = true -> fseek_end_ok e = true -> ftell_ok e = true ->
  fseek_set_ok e = true -> fopen_out_ok e = true ->
  files !! inputFile = Some D -> D <> [] ->
  encryptFile_with cap fuel e inputFile outputFile key files =
    match transform_loop fuel cap e inputFile outputFile key (strlen key)
            (Z.of_nat (length D)) 0 (opened inputFile outputFile files) with
    | Done (result, w) => Done (finish e result w)
    | Undefined => Undefined
    | OutOfFuel => OutOfFuel
    end.
Proof.
  intros Hin Hend Htell Hset Hout HD Hne.
  unfold encryptFile_with, fopen_in, getFileSize, fopen_out, content. simpl.
  rewrite Hin, Hend, Htell, Hset, Hout, HD. simpl.
  destruct D as [| d D]; [congruence |]. reflexivity.
Qed.

(** Every other path returns -1 before the destination is written. *)
Lemma encryptFile_early :
  fopen_in_ok e && fseek_end_ok e && ftell_ok e && fseek_set_ok e && fopen_out_ok e
    = false \/
  files !! inputFile = None \/ files !! inputFile = Some [] ->
  exists w,
    encryptFile_with cap fuel e inputFile outputFile key files = Done (-1, w) /\
    fs w = files /\
    (forall n m, EvWrite n m ∉ trace w) /\
    (forall p, EvOpen OutFile p true ∉ trace w) /\
    is_open InFile false (trace w) = false /\
    is_open OutFile false (trace w) = false /\
    (EvOpen InFile inputFile true ∈ trace w ->
     EvClose InFile (fclose_in_ok e) ∈ trace w).
Proof.
  intros Hcase.
  unfold encryptFile_with, fopen_in, getFileSize, fopen_out, fclose, print, emit, content.
  simpl.
  destruct (fopen_in_ok e); simpl; [| early_exit].
  destruct (files !! inputFile) as [D |] eqn:HD; simpl; [| early_exit].
  destruct (fseek_end_ok e); simpl; [| early_exit].
  destruct (ftell_ok e); simpl; [| early_exit].
  destruct (fseek_set_ok e); simpl; [| early_exit].
  destruct D as [| d D]; simpl; [early_exit |].
  destruct (fopen_out_ok e); simpl; [| early_exit].
  exfalso. destruct Hcase as [? | [? | ?]]; discriminate.
Qed.

Lemma encryptFile_paths :
  (fopen_in_ok e && fseek_end_ok e && ftell_ok e && fseek_set_ok e && fopen_out_ok e
     = false \/
   files !! inputFile = None \/ files !! inputFile = Some []) \/
  (exists D,
     files !! inputFile = Some D /\ D <> [] /\
     fopen_in_ok e = true /\ fseek_end_ok e = true /\ ftell_ok e = true /\
     fseek_set_ok e = true /\ fopen_out_ok e = true).
Proof.
  destruct (files !! inputFile) as [[| d D] |]; [auto | | auto].
  destruct (fopen_in_ok e), (fseek_end_ok e), (ftell_ok e), (fseek_set_ok e),
    (fopen_out_ok e); simpl; auto.
  right. exists (d :: D). repeat split; congruence.
Qed.

(** A run that returns 0 went through the loop, saw no read error, wrote
    every chunk in full and closed the destination. *)
Lemma encryptFile_zero w :
  encryptFile_with cap fuel e inputFile outputFile key files = Done (0, w) ->
  exists D wl,
    files !! inputFile = Some D /\ D <> [] /\
    transform_loop fuel cap e inputFile outputFile key (strlen key)
      (Z.of_nat (length D)) 0 (opened inputFile outputFile files) = Done (0, wl) /\
    in_err wl = false /\ fclose_out_ok e = true /\
    fs w = fs wl /\ trace w = trace wl ++ closing e false.
Proof.
  intros Hrun.
  destruct encryptFile_paths as [Hearly | (D & HD & Hne & Hin & Hend & Htell & Hset & Hout)].
  - destruct (encryptFile_early Hearly) as (w' & Hrun' & _). congruence.
  - rewrite (encryptFile_main D) in Hrun by assumption.
    destruct (transform_loop _ _ _ _ _ _ _ _ _ _) as [[rl wl] | |] eqn:Hloop;
      try discriminate.
    injection Hrun as Hfin.
    destruct (finish_inv rl wl) as (Hfs & Htr & Hres).
    rewrite Hfin in Hfs, Htr, Hres. simpl in Hfs, Htr, Hres.
    unfold final_result in Hres.
    destruct (fclose_out_ok e); [| discriminate].
    destruct (in_err wl) eqn:Herr; [discriminate |].
    subst rl. exists D, wl. repeat split; assumption.
Qed.

(** The destination after a run that returns 0. *)
Lemma encryptFile_success w D :
  encryptFile_with cap fuel e inputFile outputFile key files = Done (0, w) ->
  files !! inputFile = Some D -> inputFile <> outputFile -> (0 < cap)%nat ->
  D <> [] /\ (0 < strlen key)%nat /\
  fs w = <[outputFile := chunked_xor cap D key (strlen key)]> files.
Proof.
  intros Hrun HD Hne Hcap.
  destruct (encryptFile_zero w Hrun) as (D' & wl & HD' & Hnil & Hloop & Herr & _ & Hfs & _).
  assert (D' = D) as -> by congruence.
  split; [exact Hnil |].
  split.
  { destruct (strlen key) eqn:Hk; [| lia]. exfalso.
    destruct fuel as [| fuel']; [discriminate |].
    cbn [transform_loop] in Hloop.
    destruct (fread e inputFile cap _) as [buffer w1] eqn:Hread.
    apply fread_inv in Hread as (_ & _ & _ & _ & Hfull & _).
    destruct (Nat.ltb_spec 0 (length buffer)) as [Hgot | Hgot].
    - rewrite xorCipher_undefined in Hloop; [discriminate | reflexivity |].
      intros ->. simpl in Hgot. lia.
    - injection Hloop as <-. destruct (Hfull Herr) as [_ Hbuf].
      unfold content, opened in Hbuf. simpl in Hbuf.
      rewrite lookup_insert_ne, HD in Hbuf by congruence. simpl in Hbuf.
      rewrite Hbuf, length_take in Hgot. destruct D; [congruence | simpl in Hgot; lia]. }
  pose proof (transform_loop_output cap e inputFile outputFile key (strlen key)
                (Z.of_nat (length D)) (strlen_le key) fuel 0 _ 0 wl Hne Hcap Hloop)
    as (Hother & Hsome & _ & Hout).
  specialize (Hout eq_refl Herr).
  unfold content, opened in Hout, Hsome, Hother. simpl in Hout, Hsome, Hother.
  rewrite lookup_insert_eq, lookup_insert_ne, HD in Hout by congruence.
  simpl in Hout.
  destruct Hsome as [out Hsome]; [rewrite lookup_insert_eq; eauto |].
  rewrite Hsome in Hout. simpl in Hout. subst out.
  rewrite Hfs. apply map_eq. intros p.
  destruct (decide (p = outputFile)) as [-> | Hp].
  - rewrite lookup_insert_eq. exact Hsome.
  - rewrite Hother by exact Hp. rewrite !lookup_insert_ne by congruence. reflexivity.
Qed.

(** [encryptFile] returns once the fuel exceeds the size of the source. *)
Lemma encryptFile_returns :
  (0 < strlen key)%nat ->
  (length (default [] (files !! inputFile)) < fuel)%nat ->
  exists r w, encryptFile_with cap fuel e inputFile outputFile key files = Done (r, w).
Proof.
  intros Hkey Hfuel.
  destruct encryptFile_paths as [Hearly | (D & HD & Hne & Hin & Hend & Htell & Hset & Hout)].
  - destruct (encryptFile_early Hearly) as (w & Hrun & _). eauto.
  - rewrite (encryptFile_main D) by assumption.
    destruct (transform_loop_returns cap e inputFile outputFile key (strlen key)
                (Z.of_nat (length D)) (strlen_le key) fuel 0
                (opened inputFile outputFile files) Hkey)
      as (r & w & Hloop & _).
    + destruct (decide (inputFile = outputFile)) as [-> | Hneq]; [right | left; exact Hneq].
      unfold content, opened. simpl. rewrite lookup_insert_eq. simpl. lia.
    + unfold content, opened. simpl.
      destruct (decide (inputFile = outputFile)) as [-> | Hneq].
      * rewrite lookup_insert_eq. simpl. lia.
      * rewrite lookup_insert_ne, HD in * by congruence. simpl in *. lia.
    + rewrite Hloop. destruct (finish e r w) as [r' w'] eqn:Hfin. eauto.
Qed.

End EncryptFile.

(** With no fault, a non-empty source and a non-empty key, [encryptFile]
    returns 0. *)
Lemma encryptFile_calm cap fuel inputFile outputFile key files D :
  files !! inputFile = Some D -> D <> [] -> inputFile <> outputFile ->
  (0 < cap)%nat -> (0 < strlen key)%nat -> (length D < fuel)%nat ->
  exists w,
    encryptFile_with cap fuel calm inputFile outputFile key files = Done (0, w) /\
    fs w = <[outputFile := chunked_xor cap D key (strlen key)]> files.
Proof.
  intros HD Hnil Hne Hcap Hkey Hfuel.
  assert (exists w, encryptFile_with cap fuel calm inputFile outputFile key files
                    = Done (0, w)) as [w Hrun].
  { rewrite (encryptFile_main cap fuel calm inputFile outputFile key files D)
      by (try reflexivity; assumption).
    destruct (transform_loop_returns cap calm inputFile outputFile key (strlen key)
                (Z.of_nat (length D)) (strlen_le key) fuel 0
                (opened inputFile outputFile files) Hkey (or_introl Hne))
      as (r & w & Hloop & Hcalm).
    { unfold content, opened. simpl. rewrite lookup_insert_ne, HD by congruence.
      simpl. lia. }
    destruct Hcalm as [-> Herr]; try reflexivity.
    rewrite Hloop. unfold finish. rewrite Herr. simpl. eauto. }
  exists w. split; [exact Hrun |].
  eapply encryptFile_success; eassumption.
Qed.

(** ** Self-inverse *)

Lemma imap_xor_involutive (g : nat -> Z) (D : list Z) :
  Forall is_uchar D ->
  imap (fun j d => xor_uchar d (g j)) (imap (fun j d => xor_uchar d (g j)) D) = D.
Proof.
  intros HD. apply list_eq. intros j. rewrite !list_lookup_imap.
  destruct (D !! j) as [d |] eqn:Hd; simpl; [| reflexivity].
  f_equal. apply xor_uchar_involutive. exact (Forall_lookup_1 _ _ _ _ HD Hd).
Qed.

Lemma chunked_xor_involutive cap key keyLen D :
  Forall is_uchar D ->
  chunked_xor cap (chunked_xor cap D key keyLen) key keyLen = D.
Proof. apply imap_xor_involutive. Qed.

Lemma transform_spec_involutive key keyLen off D :
  Forall is_uchar D ->
  transform_spec (transform_spec D key keyLen off) key keyLen off = D.
Proof. apply imap_xor_involutive. Qed.

Lemma BUFFER_SIZE_pos : (0 < BUFFER_SIZE)%nat.
Proof. unfold BUFFER_SIZE. lia. Qed.

(** The key phase of the chunked loop is the global one exactly when the
    key length divides the capacity. *)
Lemma phase_restart_invisible cap k :
  (0 < cap)%nat ->
  (k | cap)%nat <-> (forall j, ((j mod cap) mod k = j mod k)%nat).
Proof.
  intros Hcap. split.
  - intros [q Hq] j.
    destruct (Nat.eq_dec k O) as [-> | Hk]; [lia |].
    rewrite (Nat.div_mod_eq j cap) at 2. rewrite Hq at 2.
    replace (q * k * (j / cap) + j mod cap)%nat
      with (j mod cap + (q * (j / cap)) * k)%nat by lia.
    rewrite Nat.Div0.mod_add. reflexivity.
  - intros H. specialize (H cap).
    rewrite Nat.Div0.mod_same, Nat.Div0.mod_0_l in H.
    apply Nat.Lcm0.mod_divide. congruence.
Qed.

(** The fault-free run of the loop with any capacity. *)
Lemma chunked_run_calm cap D key :
  D <> [] -> (0 < strlen key)%nat -> (0 < cap)%nat ->
  chunked_run cap D key = Some (chunked_xor cap D key (strlen key)).
Proof.
  intros Hnil Hkey Hcap. unfold chunked_run.
  destruct (encryptFile_calm cap (S (length D)) "in" "out" key {[ "in" := D ]} D)
    as (w & -> & Hfs); try assumption; try lia.
  - apply lookup_singleton_eq.
  - discriminate.
  - simpl. rewrite Hfs, lookup_insert_eq. reflexivity.
Qed.

Lemma strlen_replicate n : strlen (1 :: replicate n 2) = S n.
Proof. simpl. f_equal. induction n as [| n IH]; simpl; congruence. Qed.

(** A key length that does not divide the capacity shows in the output:
    one byte after the first chunk the loop uses [key[0]], the contract
    [key[cap mod keyLen]]. *)
Lemma chunked_xor_misaligned cap k :
  (0 < cap)%nat -> (0 < k)%nat -> ~ (k | cap)%nat ->
  chunked_xor cap (replicate (S cap) 0) (1 :: replicate (k - 1) 2) k <>
  transform_spec (replicate (S cap) 0) (1 :: replicate (k - 1) 2) k 0.
Proof.
  intros Hcap Hk Hdiv Heq.
  apply (f_equal (fun l => l !! cap)) in Heq.
  unfold chunked_xor, transform_spec in Heq.
  rewrite !list_lookup_imap, lookup_replicate_2 in Heq by lia.
  simpl in Heq. unfold key_at in Heq.
  rewrite Nat.Div0.mod_same, Nat.Div0.mod_0_l in Heq.
  destruct (cap mod k)%nat as [| m] eqn:Hm.
  - apply Hdiv. apply Nat.Lcm0.mod_divide. exact Hm.
  - pose proof (Nat.mod_upper_bound cap k) as Hlt.
    simpl in Heq. rewrite lookup_replicate_2 in Heq by lia.
    discriminate Heq.
Qed.

(** The fault-free runs compute the globally cycled transform for every
    source and every key of length [k] exactly when [k] divides the
    capacity. *)
Lemma chunked_run_global_iff cap k :
  (0 < cap)%nat -> (0 < k)%nat ->
  (k | cap)%nat <->
  (forall D key : list Z, D <> [] -> strlen key = k ->
     chunked_run cap D key = Some (transform_spec D key (strlen key) 0)).
Proof.
  intros Hcap Hk. split.
  - intros Hdiv D key Hnil Hlen.
    rewrite chunked_run_calm by (try assumption; lia).
    rewrite chunked_xor_divides by (try assumption; rewrite Hlen; exact Hdiv).
    reflexivity.
  - intros Hall.
    destruct (decide (k | cap)%nat) as [Hdiv | Hndiv]; [exact Hdiv | exfalso].
    assert (strlen (1 :: replicate (k - 1) 2) = k) as Hlen
      by (rewrite strlen_replicate; lia).
    assert (replicate (S cap) 0 <> []) as Hnil by discriminate.
    pose proof (Hall _ _ Hnil Hlen) as Heq.
    rewrite chunked_run_calm in Heq by (try assumption; lia).
    rewrite Hlen in Heq. apply (inj Some) in Heq.
    exact (chunked_xor_misaligned cap k Hcap Hk Hndiv Heq).
Qed.

(** * The properties of the transform *)

(** C1 (round trip). For a non-empty source [D] of bytes and a key of
    length between 1 and 126, encrypting and then decrypting with the same
    key restores [D]: the two fault-free runs return 0 and the restored file
    is [D]; whatever the environments, if both runs return 0 the restored
    file is [D]; and [xorCipher] applied twice to [D] gives [D]. *)
Theorem round_trip (e1 e2 : env) (fuel : nat) (inputFile encrypted restored : string)
    (key D : list Z) (files : gmap string (list Z)) :
  files !! inputFile = Some D -> D <> [] -> Forall is_uchar D ->
  (1 <= strlen key <= 126)%nat ->
  inputFile <> encrypted -> encrypted <> restored -> (length D < fuel)%nat ->
  (exists w1 w2,
     encryptFile fuel calm inputFile encrypted key files = Done (0, w1) /\
     decryptFile fuel calm encrypted restored key (fs w1) = Done (0, w2) /\
     fs w2 !! restored = Some D) /\
  (forall w1 w2,
     encryptFile fuel e1 inputFile encrypted key files = Done (0, w1) ->
     decryptFile fuel e2 encrypted restored key (fs w1) = Done (0, w2) ->
     fs w2 !! restored = Some D) /\
  (exists C,
     xorCipher D (length D) key (strlen key) = Some C /\
     xorCipher C (length C) key (strlen key) = Some D).
Proof.
  intros HD Hnil Hbytes Hkey Hne1 Hne2 Hfuel.
  assert (forall e e' w1 w2,
            encryptFile fuel e inputFile encrypted key files = Done (0, w1) ->
            decryptFile fuel e' encrypted restored key (fs w1) = Done (0, w2) ->
            fs w2 !! restored = Some D) as Hback.
  { intros e e' w1 w2 Hrun1 Hrun2. unfold decryptFile, encryptFile in *.
    destruct (encryptFile_success _ _ _ _ _ _ _ w1 D Hrun1 HD Hne1 BUFFER_SIZE_pos)
      as (_ & _ & Hfs1).
    assert (fs w1 !! encrypted = Some (chunked_xor BUFFER_SIZE D key (strlen key)))
      as Hmid by (rewrite Hfs1; apply lookup_insert_eq).
    destruct (encryptFile_success _ _ _ _ _ _ _ w2 _ Hrun2 Hmid Hne2 BUFFER_SIZE_pos)
      as (_ & _ & Hfs2).
    rewrite Hfs2, lookup_insert_eq, chunked_xor_involutive by exact Hbytes.
    reflexivity. }
  split; [| split].
  - destruct (encryptFile_calm BUFFER_SIZE fuel inputFile encrypted key files D)
      as (w1 & Hrun1 & Hfs1); try assumption; [apply BUFFER_SIZE_pos | lia |].
    destruct (encryptFile_calm BUFFER_SIZE fuel encrypted restored key (fs w1)
                (chunked_xor BUFFER_SIZE D key (strlen key)))
      as (w2 & Hrun2 & Hfs2); try assumption.
    + rewrite Hfs1. apply lookup_insert_eq.
    + intros Hempty. apply (f_equal length) in Hempty.
      rewrite chunked_xor_length in Hempty. destruct D; [congruence | discriminate].
    + apply BUFFER_SIZE_pos.
    + lia.
    + rewrite chunked_xor_length. exact Hfuel.
    + exists w1, w2. split; [exact Hrun1 |]. split; [exact Hrun2 |].
      exact (Hback calm calm w1 w2 Hrun1 Hrun2).
  - apply Hback.
  - exists (transform_spec D key (strlen key) 0).
    pose proof (strlen_le key).
    rewrite !xorCipher_defined by lia.
    rewrite transform_spec_involutive by exact Hbytes. auto.
Qed.

Lemma round_trip_witness :
  exists w1 w2,
    encryptFile 8 calm "notes.txt" "notes.enc" [107; 101; 121; 115; 33]
      {[ "notes.txt" := [72; 105; 10] ]} = Done (0, w1) /\
    decryptFile 8 calm "notes.enc" "notes.out" [107; 101; 121; 115; 33] (fs w1)
      = Done (0, w2) /\
    fs w2 !! "notes.out" = Some [72; 105; 10].
Proof.
  apply (round_trip calm calm 8 "notes.txt" "notes.enc" "notes.out"
           [107; 101; 121; 115; 33] [72; 105; 10] {[ "notes.txt" := [72; 105; 10] ]}).
  - reflexivity.
  - discriminate.
  - repeat constructor; unfold is_uchar; lia.
  - simpl. lia.
  - discriminate.
  - discriminate.
  - simpl. lia.
Defined.

(** C5 (size preservation). After a run of [encryptFile] that returns 0 the
    destination holds exactly as many bytes as the source, and the source
    is unchanged. *)
Theorem size_preservation (fuel : nat) (e : env) (inputFile outputFile : string)
    (key D : list Z) (files : gmap string (list Z)) (w : world) :
  encryptFile fuel e inputFile outputFile key files = Done (0, w) ->
  files !! inputFile = Some D -> inputFile <> outputFile ->
  exists out,
    fs w !! outputFile = Some out /\ length out = length D /\
    fs w !! inputFile = Some D.
Proof.
  intros Hrun HD Hne.
  destruct (encryptFile_success _ _ _ _ _ _ _ w D Hrun HD Hne BUFFER_SIZE_pos)
    as (_ & _ & Hfs).
  exists (chunked_xor BUFFER_SIZE D key (strlen key)).
  rewrite Hfs, lookup_insert_eq, lookup_insert_ne, chunked_xor_length by congruence.
  auto.
Qed.

Lemma size_preservation_witness :
  exists w out,
    encryptFile 8 calm "a.bin" "b.bin" [1; 2; 3; 4] {[ "a.bin" := [9; 8; 7; 6; 5] ]}
      = Done (0, w) /\
    fs w !! "b.bin" = Some out /\ length out = 5%nat.
Proof.
  destruct (encryptFile 8 calm "a.bin" "b.bin" [1; 2; 3; 4]
              {[ "a.bin" := [9; 8; 7; 6; 5] ]}) as [[r w] | |] eqn:Hrun;
    try (vm_compute in Hrun; discriminate).
  assert (r = 0) as -> by (vm_compute in Hrun; congruence).
  destruct (size_preservation 8 calm "a.bin" "b.bin" [1; 2; 3; 4] [9; 8; 7; 6; 5]
              {[ "a.bin" := [9; 8; 7; 6; 5] ]} w Hrun)
    as (out & Hout & Hlen & _); [reflexivity | discriminate |].
  exists w, out. auto.
Defined.

(** C10 (the output, byte by byte). After a run of [encryptFile] that
    returns 0 on a non-empty source with a key of length [keyLen > 0], the
    byte of the destination at position [j] is the byte of the source at [j]
    XOR [key[(j mod 4096) mod keyLen]]; that index is [j mod keyLen] at
    every position exactly when [keyLen] divides 4096; when it does the
    destination is the globally cycled transform of the source; and the
    fault-free runs give the globally cycled transform for all sources and
    all keys of that length exactly when [keyLen] divides 4096. *)
Theorem output_formula (fuel : nat) (e : env) (inputFile outputFile : string)
    (key D : list Z) (files : gmap string (list Z)) (w : world) :
  encryptFile fuel e inputFile outputFile key files = Done (0, w) ->
  files !! inputFile = Some D -> D <> [] -> (0 < strlen key)%nat ->
  inputFile <> outputFile ->
  (exists out,
     fs w !! outputFile = Some out /\ length out = length D /\
     forall j d, D !! j = Some d ->
       exists c, key !! ((j mod BUFFER_SIZE) mod strlen key)%nat = Some c /\
                 out !! j = Some (xor_uchar d c)) /\
  ((strlen key | BUFFER_SIZE)%nat <->
   (forall j, ((j mod BUFFER_SIZE) mod strlen key = j mod strlen key)%nat)) /\
  ((strlen key | BUFFER_SIZE)%nat ->
   fs w !! outputFile = Some (transform_spec D key (strlen key) 0)) /\
  ((strlen key | BUFFER_SIZE)%nat <->
   (forall D' key' : list Z, D' <> [] -> strlen key' = strlen key ->
      chunked_run BUFFER_SIZE D' key' = Some (transform_spec D' key' (strlen key') 0))).
Proof.
  intros Hrun HD Hnil Hkey Hne.
  destruct (encryptFile_success _ _ _ _ _ _ _ w D Hrun HD Hne BUFFER_SIZE_pos)
    as (_ & _ & Hfs).
  split; [| split; [| split]].
  - exists (chunked_xor BUFFER_SIZE D key (strlen key)).
    rewrite Hfs, lookup_insert_eq, chunked_xor_length.
    split; [reflexivity |]. split; [reflexivity |].
    intros j d Hd.
    assert ((j mod BUFFER_SIZE) mod strlen key < length key)%nat as Hlt.
    { pose proof (strlen_le key).
      pose proof (Nat.mod_upper_bound (j mod BUFFER_SIZE) (strlen key)). lia. }
    destruct (lookup_lt_is_Some_2 key _ Hlt) as [c Hc].
    exists c. split; [exact Hc |].
    apply chunked_xor_lookup; assumption.
  - apply phase_restart_invisible. apply BUFFER_SIZE_pos.
  - intros Hdiv. rewrite Hfs, lookup_insert_eq.
    rewrite chunked_xor_divides by (apply BUFFER_SIZE_pos || exact Hdiv).
    reflexivity.
  - apply chunked_run_global_iff; [apply BUFFER_SIZE_pos | exact Hkey].
Qed.

Lemma output_formula_witness :
  exists w out,
    encryptFile 8 calm "a.bin" "b.bin" [1; 2; 3; 4] {[ "a.bin" := [9; 8; 7; 6; 5] ]}
      = Done (0, w) /\
    fs w !! "b.bin" = Some out /\
    out !! 4%nat = Some (xor_uchar 5 1).
Proof.
  destruct (encryptFile 8 calm "a.bin" "b.bin" [1; 2; 3; 4]
              {[ "a.bin" := [9; 8; 7; 6; 5] ]}) as [[r w] | |] eqn:Hrun;
    try (vm_compute in Hrun; discriminate).
  assert (r = 0) as -> by (vm_compute in Hrun; congruence).
  destruct (output_formula 8 calm "a.bin" "b.bin" [1; 2; 3; 4] [9; 8; 7; 6; 5]
              {[ "a.bin" := [9; 8; 7; 6; 5] ]} w Hrun)
    as ((out & Hout & _ & Hbytes) & _);
    [reflexivity | discriminate | simpl; lia | discriminate |].
  destruct (Hbytes 4%nat 5 eq_refl) as (c & Hc & Hj).
  vm_compute in Hc. injection Hc as <-.
  exists w, out. auto.
Defined.

(** C2, as claimed, fails: with the 4-byte key [ABCD] and a source of 8
    zero bytes the capacities 1, 7, 4096 and 9 give three different
    outputs. *)
Lemma chunk_capacity_counterexample :
  validateKey [65; 66; 67; 68] = (0, []) /\
  chunked_run 1 [0; 0; 0; 0; 0; 0; 0; 0] [65; 66; 67; 68]
    = Some [65; 65; 65; 65; 65; 65; 65; 65] /\
  chunked_run 7 [0; 0; 0; 0; 0; 0; 0; 0] [65; 66; 67; 68]
    = Some [65; 66; 67; 68; 65; 66; 67; 65] /\
  chunked_run 4096 [0; 0; 0; 0; 0; 0; 0; 0] [65; 66; 67; 68]
    = Some [65; 66; 67; 68; 65; 66; 67; 68] /\
  chunked_run (length [0; 0; 0; 0; 0; 0; 0; 0] + 1) [0; 0; 0; 0; 0; 0; 0; 0]
    [65; 66; 67; 68]
    = Some [65; 66; 67; 68; 65; 66; 67; 68] /\
  ~ (chunked_run 1 [0; 0; 0; 0; 0; 0; 0; 0] [65; 66; 67; 68] =
       chunked_run 7 [0; 0; 0; 0; 0; 0; 0; 0] [65; 66; 67; 68] /\
     chunked_run 7 [0; 0; 0; 0; 0; 0; 0; 0] [65; 66; 67; 68] =
       chunked_run 4096 [0; 0; 0; 0; 0; 0; 0; 0] [65; 66; 67; 68] /\
     chunked_run 4096 [0; 0; 0; 0; 0; 0; 0; 0] [65; 66; 67; 68] =
       chunked_run (length [0; 0; 0; 0; 0; 0; 0; 0] + 1)
         [0; 0; 0; 0; 0; 0; 0; 0] [65; 66; 67; 68]).
Proof.
  repeat split; try (vm_compute; reflexivity).
  intros (H17 & _). vm_compute in H17. discriminate.
Qed.

(** C2, amended. Two chunk capacities that are each a positive multiple of
    the key length, or at least the length of the source, give the same
    output: the one of a single [xorCipher] call over the whole source. *)
Theorem chunk_capacity_aligned (cap1 cap2 : nat) (D key : list Z) :
  D <> [] -> (0 < strlen key)%nat ->
  (0 < cap1)%nat -> (strlen key | cap1)%nat \/ (length D <= cap1)%nat ->
  (0 < cap2)%nat -> (strlen key | cap2)%nat \/ (length D <= cap2)%nat ->
  chunked_run cap1 D key = chunked_run cap2 D key /\
  chunked_run cap1 D key = xorCipher D (length D) key (strlen key) /\
  chunked_run cap1 D key = Some (transform_spec D key (strlen key) 0).
Proof.
  intros Hnil Hkey Hcap1 Hal1 Hcap2 Hal2.
  assert (forall cap, (0 < cap)%nat ->
            (strlen key | cap)%nat \/ (length D <= cap)%nat ->
            chunked_run cap D key = Some (transform_spec D key (strlen key) 0)) as Hrun.
  { intros cap Hcap Hal. rewrite chunked_run_calm by assumption. f_equal.
    destruct Hal as [Hdiv | Hfit].
    - apply chunked_xor_divides; assumption.
    - apply chunked_xor_one_chunk; assumption. }
  rewrite !Hrun by assumption.
  pose proof (strlen_le key).
  rewrite xorCipher_defined by lia. auto.
Qed.

Lemma chunk_capacity_aligned_witness :
  chunked_run 4 [1; 2; 3; 4; 5; 6; 7; 8; 9] [65; 66] =
  chunked_run 10 [1; 2; 3; 4; 5; 6; 7; 8; 9] [65; 66].
Proof.
  apply (chunk_capacity_aligned 4 10 [1; 2; 3; 4; 5; 6; 7; 8; 9] [65; 66]).
  - discriminate.
  - simpl. lia.
  - lia.
  - left. exists 2%nat. reflexivity.
  - lia.
  - right. simpl. lia.
Defined.

(** C3 (key cycling across a chunk boundary). With the key [AB] and the
    source [00 00 00], the two calls of [xorCipher] on [00 00] and on [00]
    give together what one call on the three bytes gives, [41 42 41]; the
    second call computes what the contract computes from offset 2; and the
    loop with a 2-byte buffer writes those three bytes. *)
Theorem key_cycling_example :
  xorCipher [0; 0] 2 [0x41; 0x42] (strlen [0x41; 0x42]) = Some [0x41; 0x42] /\
  xorCipher [0] 1 [0x41; 0x42] (strlen [0x41; 0x42]) = Some [0x41] /\
  xorCipher [0; 0; 0] 3 [0x41; 0x42] (strlen [0x41; 0x42]) = Some [0x41; 0x42; 0x41] /\
  transform_spec [0; 0] [0x41; 0x42] 2 0 ++ transform_spec [0] [0x41; 0x42] 2 2
    = [0x41; 0x42; 0x41] /\
  chunked_run 2 [0; 0; 0] [0x41; 0x42] = Some [0x41; 0x42; 0x41].
Proof. repeat split; vm_compute; reflexivity. Qed.

(** C6 (decryption is encryption). [decryptFile] returns what [encryptFile]
    returns on the same arguments and leaves the same files. *)
Theorem decrypt_is_encrypt (fuel : nat) (e : env) (inputFile outputFile : string)
    (key : list Z) (files : gmap string (list Z)) :
  decryptFile fuel e inputFile outputFile key files =
  encryptFile fuel e inputFile outputFile key files.
Proof. reflexivity. Qed.

(** [validateKey] accepts the keys of 4 to 126 characters. *)
Lemma validateKey_accepts key :
  (validateKey key).1 = 0 <-> (4 <= strlen key <= 126)%nat.
Proof.
  unfold validateKey, MIN_KEY_LENGTH, MAX_KEY_LENGTH.
  change (128 - 1)%nat with 127%nat.
  destruct (Nat.ltb_spec (strlen key) 4) as [Hlt | Hge];
    [| destruct (Nat.leb_spec 127 (strlen key)) as [Hle | Hgt]];
    cbn [fst]; split; lia.
Qed.

(** C7 (key length bounds), at the input where the code departs from it: a
    key of 127 characters is rejected with the message that announces a
    maximum of 127 characters. *)
Theorem validateKey_rejects_127 :
  strlen (replicate 127 97) = 127%nat /\
  validateKey (replicate 127 97) = (-1, [MsgKeyTooLong 127]).
Proof. split; vm_compute; reflexivity. Qed.

(** ** Traces of whole runs *)

Lemma is_open_app h before tr1 tr2 :
  is_open h before (tr1 ++ tr2) = is_open h (is_open h before tr1) tr2.
Proof.
  revert before. induction tr1 as [| ev tr1 IH]; intros before; [reflexivity |].
  destruct ev; simpl; apply IH.
Qed.

Lemma loop_trace_is_open cap r tr h before :
  loop_trace cap r tr -> is_open h before tr = before.
Proof. induction 1; simpl; auto. Qed.

Lemma closing_is_open e err h before : is_open h before (closing e err) = false.
Proof.
  unfold closing.
  destruct err, (fclose_in_ok e), (fclose_out_ok e), h; reflexivity.
Qed.

Lemma closing_events e err :
  EvClose InFile (fclose_in_ok e) ∈ closing e err /\
  EvClose OutFile (fclose_out_ok e) ∈ closing e err /\
  Forall (fun ev => is_transfer ev = false) (closing e err) /\
  (fclose_in_ok e = false -> EvPrint MsgCloseInputFailed ∈ closing e err) /\
  (fclose_out_ok e = false -> EvPrint MsgCloseOutputFailed ∈ closing e err).
Proof.
  unfold closing.
  destruct err, (fclose_in_ok e), (fclose_out_ok e); simpl;
    (split; [| split; [| split; [| split]]]);
    try (intros; discriminate);
    try (repeat constructor; fail);
    intros; rewrite ?elem_of_cons; auto 10.
Qed.

(** A short write can only be the last write of the loop: the loop has
    left -1 in [result] and what follows is the message and the events
    after the loop. *)
Lemma loop_trace_short_write cap r tr :
  loop_trace cap r tr ->
  forall suffix pre requested written post,
    tr ++ suffix = pre ++ EvWrite requested written :: post ->
    written <> requested ->
    Forall (fun ev => is_transfer ev = false) suffix ->
    r = -1 /\ post = EvPrint MsgWriteFailed :: suffix.
Proof.
  assert (forall suffix pre requested written post,
            suffix = pre ++ EvWrite requested written :: post ->
            Forall (fun ev => is_transfer ev = false) suffix -> False) as Hsuffix.
  { intros suffix pre requested written post -> Hall.
    apply Forall_app in Hall as [_ Hall].
    apply Forall_cons in Hall as [Hw _]. discriminate. }
  induction 1 as [| got written0 Hshort | got current total r tr Hloop IH];
    intros suffix pre requested written post Heq Hne Hall.
  - destruct pre as [| ev pre]; simpl in Heq; [discriminate |].
    injection Heq as _ Heq. exfalso. eapply Hsuffix; eassumption.
  - destruct pre as [| ev1 [| ev2 [| ev3 pre]]]; simpl in Heq; try discriminate.
    + injection Heq as _ _ _ Heq. subst post. auto.
    + injection Heq as _ _ _ Heq. exfalso. eapply Hsuffix; eassumption.
  - destruct pre as [| ev1 [| ev2 [| ev3 pre]]]; simpl in Heq; try discriminate.
    + injection Heq as _ Hreq Hwr _. congruence.
    + injection Heq as _ _ _ Heq. eapply IH; eassumption.
Qed.

Section Runs.

Variables (cap fuel : nat) (e : env) (inputFile outputFile : string).
Variables (key : list Z) (files : gmap string (list Z)).

(** The events of a run that returns: an exit before the loop, with no
    write and no stream left open, or the two [fopen], the loop and the
    closing events. *)
Lemma encryptFile_trace r w :
  encryptFile_with cap fuel e inputFile outputFile key files = Done (r, w) ->
  (r = -1 /\ fs w = files /\
   (forall n m, EvWrite n m ∉ trace w) /\
   (forall p, EvOpen OutFile p true ∉ trace w) /\
   is_open InFile false (trace w) = false /\
   is_open OutFile false (trace w) = false /\
   (EvOpen InFile inputFile true ∈ trace w ->
    EvClose InFile (fclose_in_ok e) ∈ trace w)) \/
  (exists rl tr err,
     loop_trace cap rl tr /\
     trace w = [EvOpen InFile inputFile true; EvOpen OutFile outputFile true]
               ++ tr ++ closing e err /\
     r = final_result e rl err).
Proof.
  intros Hrun.
  destruct (encryptFile_paths e inputFile files)
    as [Hearly | (D & HD & Hne & Hin & Hend & Htell & Hset & Hout)].
  - left.
    destruct (encryptFile_early cap fuel e inputFile outputFile key files Hearly)
      as (w' & Hrun' & Hfacts).
    rewrite Hrun' in Hrun. injection Hrun as <- <-. split; [reflexivity | exact Hfacts].
  - right. rewrite (encryptFile_main cap fuel e inputFile outputFile key files D) in Hrun
      by assumption.
    destruct (transform_loop _ _ _ _ _ _ _ _ _ _) as [[rl wl] | |] eqn:Hloop;
      try discriminate.
    injection Hrun as Hfin.
    destruct (finish_inv e rl wl) as (_ & Htr & Hres).
    rewrite Hfin in Htr, Hres. simpl in Htr, Hres.
    apply transform_loop_trace in Hloop as (tr & Htrl & Hloop);
      [| apply strlen_le].
    exists rl, tr, (in_err wl). split; [exact Hloop |]. split; [| exact Hres].
    rewrite Htr, Htrl. unfold opened. simpl. reflexivity.
Qed.

(** Two environments that differ in the outcomes of [fclose] only give runs
    that leave the same files; the values returned are the same when
    [fclose(outFile)] has the same outcome, and -1 when it fails after the
    loop. *)
Lemma encryptFile_close_env e' r w :
  fopen_in_ok e' = fopen_in_ok e -> fseek_end_ok e' = fseek_end_ok e ->
  ftell_ok e' = ftell_ok e -> fseek_set_ok e' = fseek_set_ok e ->
  fopen_out_ok e' = fopen_out_ok e ->
  (forall p, fread_fault e' p = fread_fault e p) ->
  (forall n, fwrite_fault e' n = fwrite_fault e n) ->
  encryptFile_with cap fuel e inputFile outputFile key files = Done (r, w) ->
  exists r' w',
    encryptFile_with cap fuel e' inputFile outputFile key files = Done (r', w') /\
    fs w' = fs w /\
    (fclose_out_ok e' = fclose_out_ok e -> r' = r) /\
    (fclose_out_ok e' = false -> EvOpen OutFile outputFile true ∈ trace w ->
     r' = -1 /\ EvPrint MsgCloseOutputFailed ∈ trace w').
Proof.
  intros Hin' Hend' Htell' Hset' Hout' Hread Hwrite Hrun.
  destruct (encryptFile_paths e inputFile files)
    as [Hearly | (D & HD & Hne & Hin & Hend & Htell & Hset & Hout)].
  - destruct (encryptFile_early cap fuel e inputFile outputFile key files Hearly)
      as (w0 & Hrun0 & Hfs0 & _ & Hnoopen & _).
    rewrite Hrun0 in Hrun. injection Hrun as <- <-.
    destruct (encryptFile_early cap fuel e' inputFile outputFile key files)
      as (w' & Hrun' & Hfs' & _).
    { rewrite Hin', Hend', Htell', Hset', Hout'. exact Hearly. }
    exists (-1), w'. split; [exact Hrun' |]. split; [congruence |].
    split; [reflexivity |].
    intros _ Hopen. exfalso. exact (Hnoopen _ Hopen).
  - rewrite (encryptFile_main cap fuel e inputFile outputFile key files D) in Hrun
      by assumption.
    rewrite (encryptFile_main cap fuel e' inputFile outputFile key files D)
      by congruence.
    rewrite (transform_loop_env e e') by assumption.
    destruct (transform_loop _ _ e _ _ _ _ _ _ _) as [[rl wl] | |];
      try discriminate.
    injection Hrun as Hfin.
    destruct (finish_inv e rl wl) as (Hfs & _ & Hres).
    rewrite Hfin in Hfs, Hres. simpl in Hfs, Hres.
    destruct (finish e' rl wl) as [r' w'] eqn:Hfin'.
    destruct (finish_inv e' rl wl) as (Hfs' & Htr' & Hres').
    rewrite Hfin' in Hfs', Htr', Hres'. simpl in Hfs', Htr', Hres'.
    exists r', w'. split; [reflexivity |]. split; [congruence |].
    unfold final_result in *. split.
    + intros Hsame. rewrite Hsame in Hres'. congruence.
    + intros Hfail _. rewrite Hfail in Hres'. split; [exact Hres' |].
      rewrite Htr', elem_of_app. right.
      apply (closing_events e' (in_err wl)). exact Hfail.
Qed.

End Runs.

(** C4 (empty source). On a source of length zero [encryptFile] returns -1
    for every key and every environment, touches no file, and neither
    opens nor writes the destination; when the source can be opened and
    measured, the run is: open the source, print that the input is empty,
    close the source. *)
Theorem empty_source_rejected (fuel : nat) (e : env) (inputFile outputFile : string)
    (key : list Z) (files : gmap string (list Z)) :
  files !! inputFile = Some [] ->
  exists w,
    encryptFile fuel e inputFile outputFile key files = Done (-1, w) /\
    fs w = files /\
    (forall p ok, EvOpen OutFile p ok ∉ trace w) /\
    (forall n m, EvWrite n m ∉ trace w) /\
    (fopen_in_ok e = true -> fseek_end_ok e = true -> ftell_ok e = true ->
     fseek_set_ok e = true ->
     trace w = [EvOpen InFile inputFile true; EvPrint MsgInputEmpty;
                EvClose InFile (fclose_in_ok e)]).
Proof.
  intros HD.
  unfold encryptFile, encryptFile_with, fopen_in, getFileSize, fclose, print, emit,
    content.
  simpl. rewrite HD. simpl.
  destruct (fopen_in_ok e); simpl; [| early_exit].
  destruct (fseek_end_ok e); simpl; [| early_exit].
  destruct (ftell_ok e); simpl; [| early_exit].
  destruct (fseek_set_ok e); simpl; [| early_exit].
  early_exit.
Qed.

Lemma empty_source_rejected_witness :
  exists w,
    encryptFile 0 calm "empty.txt" "empty.enc" [107; 101; 121; 115]
      {[ "empty.txt" := [] ]} = Done (-1, w) /\
    fs w = {[ "empty.txt" := [] ]}.
Proof.
  destruct (empty_source_rejected 0 calm "empty.txt" "empty.enc" [107; 101; 121; 115]
              {[ "empty.txt" := [] ]}) as (w & Hrun & Hfs & _).
  - reflexivity.
  - exists w. auto.
Defined.

(** C8 (partial write). Whenever a write to the destination stores another
    number of bytes than requested, [encryptFile] returns -1; the next
    event is the message of the write failure; no read and no write follows;
    and both streams are closed before the function returns. *)
Theorem partial_write_aborts (fuel : nat) (e : env) (inputFile outputFile : string)
    (key : list Z) (files : gmap string (list Z)) (r : Z) (w : world)
    (pre post : list event) (requested written : nat) :
  encryptFile fuel e inputFile outputFile key files = Done (r, w) ->
  trace w = pre ++ EvWrite requested written :: post ->
  written <> requested ->
  r = -1 /\
  (exists post', post = EvPrint MsgWriteFailed :: post') /\
  Forall (fun ev => is_transfer ev = false) post /\
  EvClose InFile (fclose_in_ok e) ∈ post /\
  EvClose OutFile (fclose_out_ok e) ∈ post /\
  is_open InFile false (trace w) = false /\
  is_open OutFile false (trace w) = false.
Proof.
  intros Hrun Htrace Hshort.
  destruct (encryptFile_trace _ _ _ _ _ _ _ r w Hrun)
    as [(_ & _ & Hnowrite & _) | (rl & tr & err & Hloop & Htr & Hres)].
  - exfalso. apply (Hnowrite requested written).
    rewrite Htrace, elem_of_app, elem_of_cons. auto.
  - assert (is_open InFile false (trace w) = false /\
            is_open OutFile false (trace w) = false) as Hclosed.
    { rewrite Htr, !is_open_app, !closing_is_open. auto. }
    rewrite Htrace in Htr.
    destruct pre as [| ev1 [| ev2 pre]]; simpl in Htr; try discriminate.
    injection Htr as _ _ Htr. symmetry in Htr.
    destruct (closing_events e err) as (Hin & Hout & Hquiet & _).
    destruct (loop_trace_short_write _ _ _ Hloop _ _ _ _ _ Htr Hshort Hquiet)
      as [-> ->].
    split. { unfold final_result in Hres. destruct (fclose_out_ok e), err; exact Hres. }
    split; [eauto |].
    split. { constructor; [reflexivity | exact Hquiet]. }
    rewrite !elem_of_cons. auto.
Qed.

Lemma partial_write_aborts_witness :
  exists w,
    encryptFile 8
      (Env true true true true true (fun _ => None) (fun _ => Some 2%nat) true true)
      "a.bin" "b.bin" [1; 2; 3; 4] {[ "a.bin" := [9; 8; 7; 6; 5] ]} = Done (-1, w) /\
    is_open OutFile false (trace w) = false.
Proof.
  destruct (encryptFile 8
              (Env true true true true true (fun _ => None) (fun _ => Some 2%nat)
                 true true)
              "a.bin" "b.bin" [1; 2; 3; 4] {[ "a.bin" := [9; 8; 7; 6; 5] ]})
    as [[r w] | |] eqn:Hrun; try (vm_compute in Hrun; discriminate).
  assert (trace w =
            [EvOpen InFile "a.bin" true; EvOpen OutFile "b.bin" true;
             EvRead BUFFER_SIZE 5]
            ++ EvWrite 5 2
            :: [EvPrint MsgWriteFailed; EvClose InFile true; EvClose OutFile true])
    as Htrace by (vm_compute in Hrun; injection Hrun as _ <-; reflexivity).
  destruct (partial_write_aborts _ _ _ _ _ _ r w _ _ 5%nat 2%nat Hrun Htrace)
    as (-> & _ & _ & _ & _ & _ & Hout); [lia |].
  exists w. auto.
Defined.

(** Closing, once the destination is open. For a run of [encryptFile] that
    returns: when it returned 0, the same run with a failing
    [fclose(outFile)] returns -1 and prints the message; a failing
    [fclose(outFile)] after the destination was opened always gives -1;
    whatever the outcome of [fclose(inFile)] the value returned and the
    files are the same, and after the loop its failure prints a warning;
    and a source that was opened is closed on every path. *)
Theorem close_semantics (fuel : nat) (e : env) (inputFile outputFile : string)
    (key : list Z) (files : gmap string (list Z)) (r : Z) (w : world) :
  encryptFile fuel e inputFile outputFile key files = Done (r, w) ->
  (r = 0 ->
   exists w', encryptFile fuel (set_fclose_out false e) inputFile outputFile key files
              = Done (-1, w') /\
              EvPrint MsgCloseOutputFailed ∈ trace w') /\
  (fclose_out_ok e = false -> EvOpen OutFile outputFile true ∈ trace w -> r = -1) /\
  (forall b,
   exists w', encryptFile fuel (set_fclose_in b e) inputFile outputFile key files
              = Done (r, w') /\
              fs w' = fs w) /\
  (fclose_in_ok e = false -> EvOpen OutFile outputFile true ∈ trace w ->
   EvPrint MsgCloseInputFailed ∈ trace w) /\
  (EvOpen InFile inputFile true ∈ trace w ->
   EvClose InFile (fclose_in_ok e) ∈ trace w) /\
  is_open InFile false (trace w) = false.
Proof.
  intros Hrun. unfold encryptFile in *.
  pose proof (encryptFile_trace _ _ _ _ _ _ _ r w Hrun) as Hshape.
  split; [| split; [| split; [| split; [| split]]]].
  - intros ->.
    destruct (encryptFile_close_env BUFFER_SIZE fuel e inputFile outputFile key files
                (set_fclose_out false e) 0 w)
      as (r' & w' & Hrun' & _ & _ & Hfail); try reflexivity; try exact Hrun.
    destruct Hshape as [(Hr & _) | (rl & tr & err & _ & Htr & _)]; [discriminate |].
    destruct Hfail as [-> Hmsg]; [reflexivity | | eauto].
    rewrite Htr. simpl. rewrite !elem_of_cons. auto.
  - intros Hfail Hopen.
    destruct Hshape as [(Hr & _) | (rl & tr & err & _ & _ & Hres)]; [exact Hr |].
    unfold final_result in Hres. rewrite Hfail in Hres. exact Hres.
  - intros b.
    destruct (encryptFile_close_env BUFFER_SIZE fuel e inputFile outputFile key files
                (set_fclose_in b e) r w)
      as (r' & w' & Hrun' & Hfs & Hsame & _); try reflexivity; try exact Hrun.
    rewrite (Hsame eq_refl) in Hrun'. eauto.
  - intros Hfail Hopen.
    destruct Hshape as [(_ & _ & _ & Hnoopen & _) | (rl & tr & err & _ & Htr & _)].
    + exfalso. exact (Hnoopen _ Hopen).
    + rewrite Htr, !elem_of_app. right. right.
      apply (closing_events e err). exact Hfail.
  - intros Hopen.
    destruct Hshape as [(_ & _ & _ & _ & _ & _ & Hclose) | (rl & tr & err & _ & Htr & _)].
    + exact (Hclose Hopen).
    + rewrite Htr, !elem_of_app. right. right. apply (closing_events e err).
  - destruct Hshape as [(_ & _ & _ & _ & Hclosed & _) | (rl & tr & err & _ & Htr & _)].
    + exact Hclosed.
    + rewrite Htr, !is_open_app, closing_is_open. reflexivity.
Qed.

Lemma close_semantics_witness :
  exists w w',
    encryptFile 8 calm "a.bin" "b.bin" [1; 2; 3; 4] {[ "a.bin" := [9; 8; 7; 6; 5] ]}
      = Done (0, w) /\
    encryptFile 8 (set_fclose_out false calm) "a.bin" "b.bin" [1; 2; 3; 4]
      {[ "a.bin" := [9; 8; 7; 6; 5] ]} = Done (-1, w').
Proof.
  destruct (encryptFile 8 calm "a.bin" "b.bin" [1; 2; 3; 4]
              {[ "a.bin" := [9; 8; 7; 6; 5] ]}) as [[r w] | |] eqn:Hrun;
    try (vm_compute in Hrun; discriminate).
  assert (r = 0) as -> by (vm_compute in Hrun; congruence).
  destruct (close_semantics 8 calm "a.bin" "b.bin" [1; 2; 3; 4]
              {[ "a.bin" := [9; 8; 7; 6; 5] ]} 0 w Hrun) as (Hout & _).
  destruct (Hout eq_refl) as (w' & Hrun' & _).
  exists w, w'. auto.
Defined.

(** The exits before the loop call [fclose(inFile)] without looking at its
    result: whatever it returns, they print no warning about it. *)
Lemma encryptFile_early_quiet (cap fuel : nat) (e : env) (inputFile outputFile : string)
    (key : list Z) (files : gmap string (list Z)) :
  fopen_in_ok e && fseek_end_ok e && ftell_ok e && fseek_set_ok e && fopen_out_ok e
    = false \/
  files !! inputFile = None \/ files !! inputFile = Some [] ->
  exists w,
    encryptFile_with cap fuel e inputFile outputFile key files = Done (-1, w) /\
    (EvPrint MsgCloseInputFailed ∉ trace w) /\
    (forall p, EvOpen OutFile p true ∉ trace w) /\
    (EvOpen InFile inputFile true ∈ trace w ->
     EvClose InFile (fclose_in_ok e) ∈ trace w).
Proof.
  intros Hcase.
  unfold encryptFile_with, fopen_in, getFileSize, fopen_out, fclose, print, emit, content.
  simpl.
  destruct (fopen_in_ok e); simpl; [| early_exit].
  destruct (files !! inputFile) as [D |] eqn:HD; simpl; [| early_exit].
  destruct (fseek_end_ok e); simpl; [| early_exit].
  destruct (ftell_ok e); simpl; [| early_exit].
  destruct (fseek_set_ok e); simpl; [| early_exit].
  destruct D as [| d D]; simpl; [early_exit |].
  destruct (fopen_out_ok e); simpl; [| early_exit].
  exfalso. destruct Hcase as [? | [? | ?]]; discriminate.
Qed.

(** C9 (closing), where the code departs from it. In a run in which the
    source was opened and [fclose(inFile)] fails, the close is attempted,
    but the warning about it is printed exactly when the destination had
    been opened: the path after the loop tests the result of
    [fclose(inFile)], the three exits before the loop (no size, an empty
    source, no destination) drop it and return -1 without the warning. *)
Theorem close_source_failure_unreported (fuel : nat) (e : env)
    (inputFile outputFile : string) (key : list Z) (files : gmap string (list Z))
    (r : Z) (w : world) :
  encryptFile fuel e inputFile outputFile key files = Done (r, w) ->
  fclose_in_ok e = false ->
  EvOpen InFile inputFile true ∈ trace w ->
  EvClose InFile false ∈ trace w /\
  (EvPrint MsgCloseInputFailed ∈ trace w <-> EvOpen OutFile outputFile true ∈ trace w) /\
  (EvOpen OutFile outputFile true ∉ trace w -> r = -1).
Proof.
  intros Hrun Hfail Hopen. unfold encryptFile in Hrun.
  destruct (encryptFile_paths e inputFile files)
    as [Hearly | (D & HD & Hne & Hin & Hend & Htell & Hset & Hout)].
  - destruct (encryptFile_early_quiet BUFFER_SIZE fuel e inputFile outputFile key files
                Hearly) as (w' & Hrun' & Hquiet & Hnoopen & Hclose).
    rewrite Hrun' in Hrun. injection Hrun as <- <-.
    split; [rewrite <- Hfail; exact (Hclose Hopen) |].
    split; [| reflexivity].
    split; intros H; exfalso; [exact (Hquiet H) | exact (Hnoopen _ H)].
  - rewrite (encryptFile_main BUFFER_SIZE fuel e inputFile outputFile key files D)
      in Hrun by assumption.
    destruct (transform_loop _ _ _ _ _ _ _ _ _ _) as [[rl wl] | |] eqn:Hloop;
      try discriminate Hrun.
    injection Hrun as Hfin.
    destruct (finish_inv e rl wl) as (_ & Htr & _).
    rewrite Hfin in Htr. cbn [snd] in Htr.
    apply transform_loop_trace in Hloop as (tr & Htrl & _); [| apply strlen_le].
    destruct (closing_events e (in_err wl)) as (Hin_closed & _ & _ & Hwarn & _).
    assert (EvOpen OutFile outputFile true ∈ trace w) as Hdest.
    { rewrite Htr, Htrl. unfold opened. cbn [trace].
      apply elem_of_app. left. apply elem_of_app. left.
      apply list_elem_of_further, list_elem_of_here. }
    split; [| split].
    + rewrite Htr. apply elem_of_app. right. rewrite <- Hfail. exact Hin_closed.
    + split; intros _; [exact Hdest |].
      rewrite Htr. apply elem_of_app. right. exact (Hwarn Hfail).
    + intros Hno. contradiction.
Qed.

(** The run on an empty source in which [fclose(inFile)] fails: the close
    fails and nothing is said about it. *)
Lemma close_source_failure_unreported_witness :
  encryptFile 0 (set_fclose_in false calm) "empty.txt" "empty.enc" [107; 101; 121; 115]
    {[ "empty.txt" := [] ]} =
  Done (-1, World {[ "empty.txt" := [] ]}
              [EvOpen InFile "empty.txt" true; EvPrint MsgInputEmpty;
               EvClose InFile false] 0 false) /\
  EvClose InFile false ∈
    [EvOpen InFile "empty.txt" true; EvPrint MsgInputEmpty; EvClose InFile false] /\
  (EvPrint MsgCloseInputFailed ∉
     [EvOpen InFile "empty.txt" true; EvPrint MsgInputEmpty; EvClose InFile false]).
Proof.
  assert (encryptFile 0 (set_fclose_in false calm) "empty.txt" "empty.enc"
            [107; 101; 121; 115] {[ "empty.txt" := [] ]} =
          Done (-1, World {[ "empty.txt" := [] ]}
                      [EvOpen InFile "empty.txt" true; EvPrint MsgInputEmpty;
                       EvClose InFile false] 0 false)) as Hrun
    by (vm_compute; reflexivity).
  split; [exact Hrun |].
  destruct (close_source_failure_unreported 0 (set_fclose_in false calm) "empty.txt"
              "empty.enc" [107; 101; 121; 115] {[ "empty.txt" := [] ]} (-1) _ Hrun)
    as (Hclose & Hwarn & _).
  - reflexivity.
  - apply list_elem_of_here.
  - split; [exact Hclose |].
    intros H. apply Hwarn in H. cbn [trace] in H.
    rewrite !elem_of_cons, elem_of_nil in H. intuition discriminate.
Defined.

(** The restart of the key phase, at the capacity of the source: with a
    5-byte key and a source of 4097 zero bytes, the byte after the first
    chunk is [key[0]], where global cycling gives [key[4096 mod 5]]. *)
Example phase_restart_at_buffer_boundary :
  (chunked_run BUFFER_SIZE (replicate (S BUFFER_SIZE) 0) [65; 66; 67; 68; 69]
     ≫= fun out => out !! BUFFER_SIZE) = Some 65 /\
  transform_spec (replicate (S BUFFER_SIZE) 0) [65; 66; 67; 68; 69] 5 0 !! BUFFER_SIZE
    = Some 66.
Proof.
  split.
  - rewrite chunked_run_calm; [| discriminate | simpl; lia | apply BUFFER_SIZE_pos].
    cbn [mbind option_bind].
    apply (chunked_xor_lookup BUFFER_SIZE [65; 66; 67; 68; 69] 5 _ BUFFER_SIZE 0 65).
    + apply lookup_replicate_2. lia.
    + rewrite Nat.Div0.mod_same. reflexivity.
  - unfold transform_spec. rewrite list_lookup_imap, lookup_replicate_2 by lia.
    cbn [fmap option_fmap option_map]. do 2 f_equal.
Qed.

(** * Further properties of the code *)

(** ** [validateKey] *)

(** The outcomes of [validateKey] by the length of the key. *)
Lemma validateKey_cases (key : list Z) :
  ((validateKey key).1 = 0 <-> (4 <= strlen key <= 126)%nat) /\
  ((validateKey key).1 = 0 \/ (validateKey key).1 = -1) /\
  ((validateKey key).1 = 0 -> (validateKey key).2 = []) /\
  ((strlen key < 4)%nat -> validateKey key = (-1, [MsgKeyTooShort 4])) /\
  ((126 < strlen key)%nat -> validateKey key = (-1, [MsgKeyTooLong 127])).
Proof.
  unfold validateKey, MIN_KEY_LENGTH, MAX_KEY_LENGTH.
  change (128 - 1)%nat with 127%nat.
  destruct (Nat.ltb_spec (strlen key) 4) as [Hlt | Hge];
    [| destruct (Nat.leb_spec 127 (strlen key)) as [Hle | Hgt]];
    cbn [fst snd]; repeat split; intros; try reflexivity; auto; try lia.
Qed.

(** X1. [validateKey] returns 0 or -1; it returns 0, printing nothing,
    exactly for the keys of 4 to 126 characters; a shorter key gets the
    message with the minimum 4, a longer one the message with the maximum
    127. *)
Theorem validateKey_outcomes (key : list Z) :
  ((validateKey key).1 = 0 <-> (4 <= strlen key <= 126)%nat) /\
  ((validateKey key).1 = 0 \/ (validateKey key).1 = -1) /\
  ((validateKey key).1 = 0 -> (validateKey key).2 = []) /\
  ((strlen key < 4)%nat -> validateKey key = (-1, [MsgKeyTooShort 4])) /\
  ((126 < strlen key)%nat -> validateKey key = (-1, [MsgKeyTooLong 127])).
Proof. exact (validateKey_cases key). Qed.

(** ** [xorCipher] *)

Lemma to_uchar_lxor a b : to_uchar (Z.lxor a b) = Z.lxor (to_uchar a) (to_uchar b).
Proof. apply lxor_mod_256. Qed.

Lemma to_uchar_idemp c : to_uchar (to_uchar c) = to_uchar c.
Proof. apply to_uchar_id, to_uchar_range. Qed.

Lemma xor_uchar_unfold d c : xor_uchar d c = Z.lxor (to_uchar d) (to_uchar c).
Proof. unfold xor_uchar. rewrite to_uchar_lxor, to_uchar_idemp. reflexivity. Qed.

Lemma xor_uchar_comm d a b :
  xor_uchar (xor_uchar d a) b = xor_uchar (xor_uchar d b) a.
Proof.
  rewrite !xor_uchar_unfold, !to_uchar_lxor, !to_uchar_idemp.
  rewrite !Z.lxor_assoc. f_equal. apply Z.lxor_comm.
Qed.

Lemma xor_uchar_key_mod d c c' : to_uchar c = to_uchar c' -> xor_uchar d c = xor_uchar d c'.
Proof. intros H. unfold xor_uchar. rewrite H. reflexivity. Qed.

(** The key byte is read off a plaintext byte and its ciphertext byte. *)
Lemma xor_uchar_recover d c : is_uchar d -> xor_uchar (xor_uchar d c) d = to_uchar c.
Proof.
  intros Hd. rewrite !xor_uchar_unfold, to_uchar_lxor, !to_uchar_idemp.
  rewrite (Z.lxor_comm (to_uchar d)), Z.lxor_assoc, Z.lxor_nilpotent, Z.lxor_0_r.
  reflexivity.
Qed.

(** X2. [xorCipher] transforms the first [dataLen] cells of the array, from
    key index 0, and leaves the cells after them as they were. *)
Theorem xorCipher_prefix (data : list Z) (dataLen : nat) (key : list Z) (keyLen : nat) :
  (0 < keyLen <= length key)%nat -> (dataLen <= length data)%nat ->
  exists out,
    xorCipher data dataLen key keyLen = Some out /\
    length out = length data /\
    take dataLen out = transform_spec (take dataLen data) key keyLen 0 /\
    drop dataLen out = drop dataLen data.
Proof.
  intros Hkey Hlen. unfold xorCipher.
  rewrite xorCipher_for_defined by (auto; lia).
  eexists. split; [reflexivity |]. split; [apply xor_range_length |].
  split.
  - apply list_eq. intros j. unfold xor_range, transform_spec.
    destruct (decide (j < dataLen)%nat) as [Hj | Hj].
    + rewrite lookup_take_lt, !list_lookup_imap, lookup_take_lt by lia.
      destruct (data !! j); simpl; [| reflexivity].
      rewrite bool_decide_eq_true_2 by lia. reflexivity.
    + rewrite lookup_take_ge, list_lookup_imap, lookup_take_ge by lia. reflexivity.
  - apply list_eq. intros j. unfold xor_range.
    rewrite !lookup_drop, list_lookup_imap.
    destruct (data !! (dataLen + j)%nat); simpl; [| reflexivity].
    rewrite bool_decide_eq_false_2 by lia. reflexivity.
Qed.

Lemma xorCipher_prefix_witness :
  exists out,
    xorCipher [1; 2; 3; 4; 5] 3 [16; 32] 2 = Some out /\ drop 3 out = [4; 5].
Proof.
  destruct (xorCipher_prefix [1; 2; 3; 4; 5] 3 [16; 32] 2) as (out & Hout & _ & _ & Hrest).
  - simpl. lia.
  - simpl. lia.
  - exists out. auto.
Defined.

Lemma xorCipher_for_overrun key keyLen count : forall from data,
  (length data < from + count)%nat -> (0 < count)%nat ->
  xorCipher_for count from key keyLen data = None.
Proof.
  induction count as [| count IH]; intros from data Hover Hpos; [lia |].
  cbn [xorCipher_for]. unfold xorCipher_body.
  destruct (Nat.eqb keyLen 0); [reflexivity |].
  destruct (data !! from) as [d |] eqn:Hd; [| reflexivity].
  apply lookup_lt_Some in Hd.
  destruct (key !! (from mod keyLen)%nat) as [c |]; [| reflexivity].
  simpl. apply IH; [rewrite length_insert; lia | lia].
Qed.

(** X3. With a key length within the key, a call of [xorCipher] is undefined
    exactly when it divides by a zero [keyLen] on its first byte or runs
    past the end of [data]; with [dataLen = 0] it returns [data] unchanged
    whatever the key. *)
Theorem xorCipher_undefined_iff (data : list Z) (dataLen : nat) (key : list Z)
    (keyLen : nat) :
  (keyLen <= length key)%nat ->
  (xorCipher data dataLen key keyLen = None <->
   (0 < dataLen)%nat /\ (keyLen = O \/ (length data < dataLen)%nat)) /\
  xorCipher data 0 key keyLen = Some data.
Proof.
  intros Hkey. split; [| reflexivity]. split.
  - intros Hnone.
    destruct dataLen as [| n]; [discriminate |]. split; [lia |].
    destruct (Nat.eq_dec keyLen O) as [H0 | Hk]; [auto | right].
    destruct (Nat.le_gt_cases (S n) (length data)) as [Hle | Hgt]; [| exact Hgt].
    unfold xorCipher in Hnone.
    rewrite xorCipher_for_defined in Hnone by (auto; lia). discriminate.
  - intros [Hpos [-> | Hover]].
    + destruct dataLen; [lia | reflexivity].
    + apply xorCipher_for_overrun; lia.
Qed.

Lemma xorCipher_undefined_iff_witness :
  xorCipher [1; 2; 3] 2 [65; 66] 0 = None /\ xorCipher [1; 2; 3] 4 [65; 66] 2 = None.
Proof.
  split.
  - apply (xorCipher_undefined_iff [1; 2; 3] 2 [65; 66] 0); [simpl; lia |].
    split; [lia | auto].
  - apply (xorCipher_undefined_iff [1; 2; 3] 4 [65; 66] 2); [simpl; lia |].
    split; [lia | right; simpl; lia].
Defined.

(** X4. Only the low eight bits of each key character matter: two keys whose
    characters agree modulo 256 (the same bytes read as signed or as
    unsigned [char]) give the same result. *)
Theorem xorCipher_key_bytes (data : list Z) (dataLen : nat) (key key' : list Z)
    (keyLen : nat) :
  Forall2 (fun c c' => to_uchar c = to_uchar c') key key' ->
  xorCipher data dataLen key keyLen = xorCipher data dataLen key' keyLen.
Proof.
  intros Hkeys. unfold xorCipher. generalize 0%nat as from. revert data.
  induction dataLen as [| n IH]; intros data from; [reflexivity |].
  cbn [xorCipher_for].
  assert (xorCipher_body key keyLen data from = xorCipher_body key' keyLen data from)
    as ->.
  { unfold xorCipher_body. destruct (Nat.eqb keyLen 0); [reflexivity |].
    destruct (data !! from) as [d |]; [| reflexivity]. simpl.
    destruct (key !! (from mod keyLen)%nat) as [c |] eqn:Hc.
    - destruct (Forall2_lookup_l _ _ _ _ _ Hkeys Hc) as (c' & -> & Hcc). simpl.
      rewrite (xor_uchar_key_mod d c c' Hcc). reflexivity.
    - apply lookup_ge_None in Hc. rewrite (Forall2_length _ _ _ Hkeys) in Hc.
      apply lookup_ge_None in Hc. rewrite Hc. reflexivity. }
  destruct (xorCipher_body key' keyLen data from) as [data' |]; [| reflexivity].
  apply IH.
Qed.

Lemma xorCipher_key_bytes_witness :
  xorCipher [1; 2; 3] 3 [200; 65] 2 = xorCipher [1; 2; 3] 3 [-56; 65] 2.
Proof.
  apply (xorCipher_key_bytes [1; 2; 3] 3 [200; 65] [-56; 65] 2).
  repeat constructor.
Defined.

Lemma transform_spec_comm key1 keyLen1 key2 keyLen2 off data :
  transform_spec (transform_spec data key1 keyLen1 off) key2 keyLen2 off =
  transform_spec (transform_spec data key2 keyLen2 off) key1 keyLen1 off.
Proof.
  apply list_eq. intros j. unfold transform_spec. rewrite !list_lookup_imap.
  destruct (data !! j); simpl; [| reflexivity]. f_equal. apply xor_uchar_comm.
Qed.

(** X5. Two passes of [xorCipher] with two keys commute: the order in which
    the keys are applied to a buffer does not matter. *)
Theorem xorCipher_two_keys_commute (data key1 key2 : list Z) (keyLen1 keyLen2 : nat) :
  (0 < keyLen1 <= length key1)%nat -> (0 < keyLen2 <= length key2)%nat ->
  exists out,
    (xorCipher data (length data) key1 keyLen1
       ≫= fun mid => xorCipher mid (length mid) key2 keyLen2) = Some out /\
    (xorCipher data (length data) key2 keyLen2
       ≫= fun mid => xorCipher mid (length mid) key1 keyLen1) = Some out.
Proof.
  intros Hk1 Hk2.
  exists (transform_spec (transform_spec data key1 keyLen1 0) key2 keyLen2 0).
  rewrite !xorCipher_defined by assumption. cbn [mbind option_bind].
  rewrite !xorCipher_defined by assumption.
  rewrite transform_spec_comm. auto.
Qed.

Lemma xorCipher_two_keys_commute_witness :
  exists out,
    (xorCipher [1; 2; 3] (length [1; 2; 3]) [65; 66] 2
       ≫= fun mid => xorCipher mid (length mid) [7; 8; 9] 3) = Some out /\
    (xorCipher [1; 2; 3] (length [1; 2; 3]) [7; 8; 9] 3
       ≫= fun mid => xorCipher mid (length mid) [65; 66] 2) = Some out.
Proof.
  apply (xorCipher_two_keys_commute [1; 2; 3] [65; 66] [7; 8; 9] 2 3); simpl; lia.
Defined.

(** ** [encryptFile]: files *)

Lemma content_print path m w : content path (print m w) = content path w.
Proof. reflexivity. Qed.

Section MoreLoop.

Variables (cap : nat) (e : env) (inputFile outputFile : string).
Variables (key : list Z) (keyLen : nat) (fileSize : Z).

(** The loop writes to the destination only. *)
Lemma transform_loop_frame fuel : forall total w r w',
  transform_loop fuel cap e inputFile outputFile key keyLen fileSize total w
    = Done (r, w') ->
  forall p, p <> outputFile -> fs w' !! p = fs w !! p.
Proof.
  induction fuel as [| fuel IH]; intros total w r w' Hrun p Hp; [discriminate |].
  cbn [transform_loop] in Hrun.
  destruct (fread e inputFile cap w) as [buffer w1] eqn:Hread.
  apply fread_inv in Hread as (Hfs1 & _).
  destruct (0 <? length buffer)%nat.
  - destruct (xorCipher buffer (length buffer) key keyLen) as [buffer' |];
      [| discriminate].
    destruct (fwrite e outputFile _ (length buffer) w1) as [written w2] eqn:Hwrite.
    apply fwrite_inv in Hwrite as (Hfs2 & _).
    destruct (negb (written =? length buffer)%nat).
    + injection Hrun as <- <-. simpl. rewrite Hfs2, Hfs1.
      apply lookup_insert_ne. congruence.
    + rewrite (IH _ _ _ _ Hrun p Hp). simpl. rewrite Hfs2, Hfs1.
      apply lookup_insert_ne. congruence.
  - injection Hrun as <- <-. rewrite Hfs1. reflexivity.
Qed.

(** The destination never holds more bytes than were read, and the loop
    never reads past the end of the source. *)
Lemma transform_loop_written fuel : forall total w r w',
  inputFile <> outputFile ->
  transform_loop fuel cap e inputFile outputFile key keyLen fileSize total w
    = Done (r, w') ->
  is_Some (fs w !! outputFile) ->
  (in_pos w <= length (content inputFile w))%nat ->
  is_Some (fs w' !! outputFile) /\
  (in_pos w' <= length (content inputFile w))%nat /\
  (length (content outputFile w') + in_pos w <=
   length (content outputFile w) + in_pos w')%nat.
Proof.
  induction fuel as [| fuel IH]; intros total w r w' Hne Hrun Hsome Hpos;
    [discriminate |].
  cbn [transform_loop] in Hrun.
  destruct (fread e inputFile cap w) as [buffer w1] eqn:Hread.
  apply fread_inv in Hread as (Hfs1 & _ & Hpos1 & _ & _ & Hlen1).
  destruct (0 <? length buffer)%nat.
  - destruct (xorCipher buffer (length buffer) key keyLen) as [buffer' |];
      [| discriminate].
    destruct (fwrite e outputFile _ (length buffer) w1) as [written w2] eqn:Hwrite.
    apply fwrite_inv in Hwrite as (Hfs2 & _ & Hpos2 & _ & Hle).
    assert (content outputFile w2 = content outputFile w ++ take written buffer')
      as Hout2.
    { unfold content at 1. rewrite Hfs2, lookup_insert_eq. unfold content.
      rewrite Hfs1. reflexivity. }
    assert (content inputFile w2 = content inputFile w) as Hin2.
    { unfold content. rewrite Hfs2, lookup_insert_ne, Hfs1 by congruence. reflexivity. }
    assert (is_Some (fs w2 !! outputFile)) as Hsome2
      by (rewrite Hfs2, lookup_insert_eq; eauto).
    assert (length (take written buffer') <= length buffer)%nat as Htake
      by (rewrite length_take; lia).
    destruct (negb (written =? length buffer)%nat).
    + injection Hrun as <- <-. rewrite content_print.
      cbn [print emit fs in_pos].
      rewrite Hout2, length_app, Hpos2, Hpos1. repeat split; [exact Hsome2 | lia | lia].
    + apply IH in Hrun as (Hsome' & Hpos' & Hlen'); try assumption.
      * rewrite !content_print in *. cbn [print emit in_pos] in Hlen'.
        rewrite Hin2 in Hpos'. rewrite Hout2, length_app, Hpos2, Hpos1 in Hlen'.
        repeat split; [exact Hsome' | exact Hpos' | lia].
      * rewrite content_print. cbn [print emit in_pos].
        rewrite Hin2, Hpos2, Hpos1. lia.
  - injection Hrun as <- <-.
    assert (content outputFile w1 = content outputFile w) as ->
      by (unfold content; rewrite Hfs1; reflexivity).
    rewrite Hfs1, Hpos1. repeat split; [exact Hsome | lia | lia].
Qed.

(** More fuel does not change what the loop returns. *)
Lemma transform_loop_more_fuel fuel : forall extra total w x,
  transform_loop fuel cap e inputFile outputFile key keyLen fileSize total w = Done x ->
  transform_loop (fuel + extra) cap e inputFile outputFile key keyLen fileSize total w
    = Done x.
Proof.
  induction fuel as [| fuel IH]; intros extra total w x Hrun; [discriminate |].
  cbn [transform_loop Nat.add] in *.
  destruct (fread e inputFile cap w) as [buffer w1].
  destruct (0 <? length buffer)%nat; [| exact Hrun].
  destruct (xorCipher buffer (length buffer) key keyLen) as [buffer' |];
    [| discriminate].
  destruct (fwrite e outputFile _ (length buffer) w1) as [written w2].
  destruct (negb (written =? length buffer)%nat); [exact Hrun |].
  apply IH. exact Hrun.
Qed.

(** Every progress report names the size of the file as its total and a
    number of bytes processed that has grown and is within the source. *)
Lemma transform_loop_progress fuel : forall total w r w',
  inputFile <> outputFile ->
  transform_loop fuel cap e inputFile outputFile key keyLen fileSize total w
    = Done (r, w') ->
  (in_pos w <= length (content inputFile w))%nat ->
  exists tr,
    trace w' = trace w ++ tr /\
    forall current tot, EvPrint (MsgProgress current tot) ∈ tr ->
      tot = fileSize /\
      total < current <= total + Z.of_nat (length (content inputFile w) - in_pos w).
Proof.
  induction fuel as [| fuel IH]; intros total w r w' Hne Hrun Hpos; [discriminate |].
  cbn [transform_loop] in Hrun.
  destruct (fread e inputFile cap w) as [buffer w1] eqn:Hread.
  apply fread_inv in Hread as (Hfs1 & Htr1 & Hpos1 & _ & _ & Hlen1).
  destruct (Nat.ltb_spec 0 (length buffer)) as [Hgot | Hgot].
  - destruct (xorCipher buffer (length buffer) key keyLen) as [buffer' |];
      [| discriminate].
    destruct (fwrite e outputFile _ (length buffer) w1) as [written w2] eqn:Hwrite.
    apply fwrite_inv in Hwrite as (Hfs2 & Htr2 & Hpos2 & _ & _).
    assert (content inputFile w2 = content inputFile w) as Hin2.
    { unfold content. rewrite Hfs2, lookup_insert_ne, Hfs1 by congruence. reflexivity. }
    destruct (negb (written =? length buffer)%nat).
    + injection Hrun as <- <-. cbn [print emit trace].
      eexists. split; [rewrite Htr2, Htr1, <- !app_assoc; reflexivity |].
      intros current tot Hin. simpl in Hin.
      rewrite !elem_of_cons, elem_of_nil in Hin.
      destruct Hin as [Hin | [Hin | [Hin | []]]]; discriminate.
    + apply IH in Hrun as (tr & Htr & Hprog); try assumption.
      * cbn [print emit trace in_pos] in Htr.
        eexists. split; [rewrite Htr, Htr2, Htr1, <- !app_assoc; reflexivity |].
        intros current tot Hin. simpl in Hin.
        rewrite !elem_of_cons in Hin.
        destruct Hin as [Hin | [Hin | [Hin | Hin]]]; try discriminate.
        -- injection Hin as -> ->. split; [reflexivity | lia].
        -- apply Hprog in Hin as [-> Hrange]. split; [reflexivity |].
           rewrite content_print in Hrange. cbn [print emit in_pos] in Hrange.
           rewrite Hin2, Hpos2, Hpos1 in Hrange. lia.
      * rewrite content_print. cbn [print emit in_pos].
        rewrite Hin2, Hpos2, Hpos1. lia.
  - injection Hrun as <- <-.
    eexists. split; [exact Htr1 |].
    intros current tot Hin. rewrite elem_of_cons, elem_of_nil in Hin.
    destruct Hin as [Hin | []]. discriminate.
Qed.

End MoreLoop.

(** ** [encryptFile]: what a run leaves behind *)

(** Closes the goal of an exit path once the run is known. *)
Ltac early_inv :=
  let H := fresh in
  intros H; injection H as <- <-; simpl;
  repeat split; try reflexivity;
  intros; rewrite ?elem_of_cons, ?elem_of_nil in *;
  intuition (subst; first [discriminate | reflexivity]).

(** Closes the goal of an exit path whose events are explicit. *)
Ltac early_facts :=
  eexists; split; [reflexivity |]; simpl;
  repeat split; try reflexivity;
  intros; rewrite ?elem_of_cons, ?elem_of_nil in *;
  intuition (subst; first [discriminate | reflexivity]).

Section MoreRuns.

Variables (cap fuel : nat) (e : env) (inputFile outputFile : string).
Variables (key : list Z) (files : gmap string (list Z)).

(** A run that returns either left before the loop, or ran the loop from
    the world [opened] and went through [finish]. *)
Lemma encryptFile_inv r w :
  encryptFile_with cap fuel e inputFile outputFile key files = Done (r, w) ->
  (r = -1 /\ fs w = files /\ failed (trace w) = true /\
   (forall ev, ev ∈ trace w -> is_transfer ev = false) /\
   (forall p, EvOpen OutFile p true ∉ trace w) /\
   (forall current tot, EvPrint (MsgProgress current tot) ∉ trace w)) \/
  (exists D rl wl,
     files !! inputFile = Some D /\ D <> [] /\
     transform_loop fuel cap e inputFile outputFile key (strlen key)
       (Z.of_nat (length D)) 0 (opened inputFile outputFile files) = Done (rl, wl) /\
     finish e rl wl = (r, w)).
Proof.
  intros Hrun.
  destruct (encryptFile_paths e inputFile files)
    as [Hearly | (D & HD & Hne & Hin & Hend & Htell & Hset & Hout)].
  - left. revert Hrun.
    unfold encryptFile_with, fopen_in, getFileSize, fopen_out, fclose, print, emit,
      content.
    simpl.
    destruct (fopen_in_ok e); simpl; [| early_inv].
    destruct (files !! inputFile) as [D |] eqn:HD; simpl; [| early_inv].
    destruct (fseek_end_ok e); simpl; [| early_inv].
    destruct (ftell_ok e); simpl; [| early_inv].
    destruct (fseek_set_ok e); simpl; [| early_inv].
    destruct D as [| d D]; simpl; [early_inv |].
    destruct (fopen_out_ok e); simpl; [| early_inv].
    exfalso. destruct Hearly as [? | [? | ?]]; discriminate.
  - right. rewrite (encryptFile_main cap fuel e inputFile outputFile key files D) in Hrun
      by assumption.
    destruct (transform_loop _ _ _ _ _ _ _ _ _ _) as [[rl wl] | |] eqn:Hloop;
      try discriminate.
    injection Hrun as Hfin. exists D, rl, wl. auto.
Qed.

End MoreRuns.

Lemma failed_app tr1 tr2 : failed (tr1 ++ tr2) = failed tr1 || failed tr2.
Proof. apply existsb_app. Qed.

Lemma loop_trace_failed cap r tr :
  loop_trace cap r tr -> r = if failed tr then -1 else 0.
Proof. induction 1; simpl; auto. Qed.

Lemma closing_failed e err :
  failed (closing e err) = err || negb (fclose_out_ok e).
Proof. unfold closing. destruct err, (fclose_in_ok e), (fclose_out_ok e); reflexivity. Qed.

(** X6. [encryptFile] returns 0 or -1, and -1 exactly when it has printed
    one of its failure messages: no failure is silent, and no failure is
    reported by a run that returns 0. *)
Theorem result_reports_failure (fuel : nat) (e : env) (inputFile outputFile : string)
    (key : list Z) (files : gmap string (list Z)) (r : Z) (w : world) :
  encryptFile fuel e inputFile outputFile key files = Done (r, w) ->
  r = if failed (trace w) then -1 else 0.
Proof.
  intros Hrun. unfold encryptFile in Hrun.
  destruct (encryptFile_trace _ _ _ _ _ _ _ r w Hrun)
    as [_ | (rl & tr & err & Hloop & Htr & Hres)].
  - destruct (encryptFile_inv _ _ _ _ _ _ _ r w Hrun)
      as [(-> & _ & -> & _) | (D & rl & wl & HD & Hne & Hloop & Hfin)];
      [reflexivity |].
    pose proof (transform_loop_trace _ _ _ _ _ _ _ (strlen_le key) _ _ _ _ _ Hloop)
      as (tr & Htr & Hlt).
    destruct (finish_inv e rl wl) as (_ & Htr' & Hres).
    rewrite Hfin in Htr', Hres. simpl in Htr', Hres.
    rewrite Htr', Htr, !failed_app, closing_failed, Hres.
    rewrite (loop_trace_failed _ _ _ Hlt). unfold final_result, opened. simpl.
    destruct (failed tr), (in_err wl), (fclose_out_ok e); reflexivity.
  - rewrite Htr, !failed_app, closing_failed, Hres.
    rewrite (loop_trace_failed _ _ _ Hloop). unfold final_result. simpl.
    destruct (failed tr), err, (fclose_out_ok e); reflexivity.
Qed.

Lemma result_reports_failure_witness :
  exists w,
    encryptFile 8 calm "a.bin" "b.bin" [1; 2; 3; 4] {[ "a.bin" := [9; 8; 7; 6; 5] ]}
      = Done (0, w) /\
    failed (trace w) = false.
Proof.
  destruct (encryptFile 8 calm "a.bin" "b.bin" [1; 2; 3; 4]
              {[ "a.bin" := [9; 8; 7; 6; 5] ]}) as [[r w] | |] eqn:Hrun;
    try (vm_compute in Hrun; discriminate).
  assert (r = 0) as -> by (vm_compute in Hrun; congruence).
  pose proof (result_reports_failure 8 calm "a.bin" "b.bin" [1; 2; 3; 4]
                {[ "a.bin" := [9; 8; 7; 6; 5] ]} 0 w Hrun) as Hres.
  exists w. split; [reflexivity |].
  destruct (failed (trace w)); [discriminate Hres | reflexivity].
Defined.

(** X7. [encryptFile] writes to the destination only: every other file,
    the source included when it is not the destination, is as it was. *)
Theorem other_files_untouched (fuel : nat) (e : env) (inputFile outputFile : string)
    (key : list Z) (files : gmap string (list Z)) (r : Z) (w : world) :
  encryptFile fuel e inputFile outputFile key files = Done (r, w) ->
  forall p, p <> outputFile -> fs w !! p = files !! p.
Proof.
  intros Hrun p Hp. unfold encryptFile in Hrun.
  destruct (encryptFile_inv _ _ _ _ _ _ _ r w Hrun)
    as [(_ & -> & _) | (D & rl & wl & HD & Hne & Hloop & Hfin)]; [reflexivity |].
  destruct (finish_inv e rl wl) as (Hfs & _). rewrite Hfin in Hfs. simpl in Hfs.
  rewrite Hfs, (transform_loop_frame _ _ _ _ _ _ _ _ _ _ _ _ Hloop p Hp).
  unfold opened. simpl. apply lookup_insert_ne. congruence.
Qed.

Lemma other_files_untouched_witness :
  exists r w,
    encryptFile 8 calm "a.bin" "b.bin" [1; 2; 3; 4]
      {[ "a.bin" := [9; 8; 7]; "c.bin" := [1] ]} = Done (r, w) /\
    fs w !! "c.bin" = Some [1].
Proof.
  destruct (encryptFile 8 calm "a.bin" "b.bin" [1; 2; 3; 4]
              {[ "a.bin" := [9; 8; 7]; "c.bin" := [1] ]}) as [[r w] | |] eqn:Hrun;
    try (vm_compute in Hrun; discriminate).
  exists r, w. split; [reflexivity |].
  rewrite (other_files_untouched 8 calm "a.bin" "b.bin" [1; 2; 3; 4]
             {[ "a.bin" := [9; 8; 7]; "c.bin" := [1] ]} r w Hrun "c.bin");
    [reflexivity | discriminate].
Defined.

(** X8. Once the destination has been opened its previous content is gone,
    also when the run then fails: the run is the same whatever the
    destination held, and it leaves a destination no longer than the
    source. *)
Theorem destination_overwritten (fuel : nat) (e : env) (inputFile outputFile : string)
    (key : list Z) (files : gmap string (list Z)) (old : list Z) (r : Z) (w : world) :
  inputFile <> outputFile ->
  encryptFile fuel e inputFile outputFile key files = Done (r, w) ->
  EvOpen OutFile outputFile true ∈ trace w ->
  encryptFile fuel e inputFile outputFile key (<[outputFile := old]> files)
    = Done (r, w) /\
  exists out,
    fs w !! outputFile = Some out /\
    (length out <= length (default [] (files !! inputFile)))%nat.
Proof.
  intros Hne Hrun Hopen. unfold encryptFile in *.
  destruct (encryptFile_inv _ _ _ _ _ _ _ r w Hrun)
    as [(_ & _ & _ & _ & Hnoopen & _) | (D & rl & wl & HD & Hnil & Hloop & Hfin)].
  { exfalso. exact (Hnoopen _ Hopen). }
  destruct (encryptFile_paths e inputFile files)
    as [Hearly | (D' & HD' & _ & Hin & Hend & Htell & Hset & Hout)].
  { destruct (encryptFile_early BUFFER_SIZE fuel e inputFile outputFile key files Hearly)
      as (w' & Hrun' & _ & _ & Hnoopen & _).
    rewrite Hrun' in Hrun. injection Hrun as _ <-. exfalso. exact (Hnoopen _ Hopen). }
  split.
  - rewrite (encryptFile_main BUFFER_SIZE fuel e inputFile outputFile key _ D);
      try assumption; [| rewrite lookup_insert_ne by congruence; exact HD].
    unfold opened. rewrite insert_insert_eq. fold (opened inputFile outputFile files).
    rewrite Hloop, Hfin. reflexivity.
  - destruct (finish_inv e rl wl) as (Hfs & _). rewrite Hfin in Hfs. simpl in Hfs.
    destruct (transform_loop_written _ _ _ _ _ _ _ _ _ _ _ _ Hne Hloop)
      as ([out Hsome] & Hpos & Hlen).
    + unfold opened. simpl. rewrite lookup_insert_eq. eauto.
    + unfold opened. simpl. lia.
    + exists out. rewrite Hfs. split; [exact Hsome |].
      unfold content, opened in Hpos, Hlen. simpl in Hpos, Hlen.
      rewrite Hsome, lookup_insert_eq in Hlen.
      rewrite lookup_insert_ne in Hpos by congruence.
      simpl in Hlen. lia.
Qed.

Lemma destination_overwritten_witness :
  exists r w,
    encryptFile 8 calm "a.bin" "b.bin" [1; 2; 3; 4] {[ "a.bin" := [9; 8; 7] ]}
      = Done (r, w) /\
    encryptFile 8 calm "a.bin" "b.bin" [1; 2; 3; 4]
      (<["b.bin" := [5; 5; 5; 5; 5; 5]]> {[ "a.bin" := [9; 8; 7] ]}) = Done (r, w).
Proof.
  destruct (encryptFile 8 calm "a.bin" "b.bin" [1; 2; 3; 4] {[ "a.bin" := [9; 8; 7] ]})
    as [[r w] | |] eqn:Hrun; try (vm_compute in Hrun; discriminate Hrun).
  assert (EvOpen OutFile "b.bin" true ∈ trace w) as Hopen.
  { vm_compute in Hrun. injection Hrun as _ <-.
    apply list_elem_of_further, list_elem_of_here. }
  destruct (destination_overwritten 8 calm "a.bin" "b.bin" [1; 2; 3; 4]
              {[ "a.bin" := [9; 8; 7] ]} [5; 5; 5; 5; 5; 5] r w) as (Hsame & _);
    [discriminate | exact Hrun | exact Hopen |].
  exists r, w. auto.
Defined.

Lemma encryptFile_more_fuel cap fuel extra e inputFile outputFile key files x :
  encryptFile_with cap fuel e inputFile outputFile key files = Done x ->
  encryptFile_with cap (fuel + extra) e inputFile outputFile key files = Done x.
Proof.
  unfold encryptFile_with.
  destruct (fopen_in e inputFile _) as [in_opened w1].
  destruct (negb in_opened); [auto |].
  destruct (getFileSize e inputFile w1) as [fileSize w2].
  destruct (fileSize =? -1); [auto |].
  destruct (fileSize =? 0); [auto |].
  destruct (fopen_out e outputFile w2) as [out_opened w3].
  destruct (negb out_opened); [auto |].
  destruct (transform_loop fuel _ _ _ _ _ _ _ _ _) as [[rl wl] | |] eqn:Hloop;
    try discriminate.
  intros Hrun.
  rewrite (transform_loop_more_fuel _ _ _ _ _ _ _ _ _ _ _ _ Hloop). exact Hrun.
Qed.

(** X9. With a key that is not empty [encryptFile] always returns, without
    undefined behaviour, whatever the environment does; the loop runs at
    most once per byte of the source, plus once. *)
Theorem encryptFile_terminates (e : env) (inputFile outputFile : string)
    (key : list Z) (files : gmap string (list Z)) :
  (0 < strlen key)%nat ->
  exists r w,
    forall fuel, (length (default [] (files !! inputFile)) < fuel)%nat ->
      encryptFile fuel e inputFile outputFile key files = Done (r, w).
Proof.
  intros Hkey.
  destruct (encryptFile_returns BUFFER_SIZE (S (length (default [] (files !! inputFile))))
              e inputFile outputFile key files Hkey) as (r & w & Hrun); [lia |].
  exists r, w. intros fuel Hfuel.
  replace fuel with (S (length (default [] (files !! inputFile)))
                     + (fuel - S (length (default [] (files !! inputFile)))))%nat by lia.
  apply encryptFile_more_fuel. exact Hrun.
Qed.

Lemma encryptFile_terminates_witness :
  exists r w,
    forall fuel, (3 < fuel)%nat ->
      encryptFile fuel calm "a.bin" "b.bin" [1; 2; 3; 4] {[ "a.bin" := [9; 8; 7] ]}
        = Done (r, w).
Proof.
  destruct (encryptFile_terminates calm "a.bin" "b.bin" [1; 2; 3; 4]
              {[ "a.bin" := [9; 8; 7] ]}) as (r & w & Hrun); [simpl; lia |].
  exists r, w. intros fuel Hfuel. apply Hrun.
  vm_compute. lia.
Defined.

(** X10. With an empty key (or one that starts with a NUL) and a source
    that delivers at least one byte, [encryptFile] computes [i % 0] on the
    first byte: its behaviour is undefined.  Only [validateKey], in the
    caller, keeps such a key away. *)
Theorem empty_key_undefined (fuel : nat) (e : env) (inputFile outputFile : string)
    (key D : list Z) (files : gmap string (list Z)) :
  strlen key = O ->
  files !! inputFile = Some D -> D <> [] -> inputFile <> outputFile ->
  fopen_in_ok e = true -> fseek_end_ok e = true -> ftell_ok e = true ->
  fseek_set_ok e = true -> fopen_out_ok e = true ->
  fread_fault e 0 <> Some O ->
  encryptFile (S fuel) e inputFile outputFile key files = Undefined.
Proof.
  intros Hkey HD Hnil Hne Hin Hend Htell Hset Hout Hfault.
  unfold encryptFile.
  rewrite (encryptFile_main BUFFER_SIZE (S fuel) e inputFile outputFile key files D)
    by assumption.
  cbn [transform_loop].
  destruct (fread e inputFile BUFFER_SIZE _) as [buffer w1] eqn:Hread.
  assert (buffer <> []) as Hbuf.
  { unfold fread in Hread. injection Hread as Hbuffer _.
    unfold content, opened in Hbuffer. cbn [fs in_pos] in Hbuffer.
    assert (<[outputFile := []]> files !! inputFile = Some D) as Hsrc
      by (rewrite lookup_insert_ne; [exact HD | congruence]).
    rewrite Hsrc in Hbuffer. cbn [from_option] in Hbuffer.
    change (drop 0 (id D)) with D in Hbuffer.
    assert (take BUFFER_SIZE D <> []) as Hfull.
    { destruct D as [| d D]; [congruence |]. unfold BUFFER_SIZE. discriminate. }
    set (full := take BUFFER_SIZE D) in *.
    destruct (fread_fault e 0) as [[| m] |]; [congruence | |].
    - destruct (S m <? length full)%nat; [| congruence].
      rewrite <- Hbuffer. destruct full; [congruence | discriminate].
    - congruence. }
  destruct (Nat.ltb_spec 0 (length buffer)) as [Hgot | Hgot].
  - rewrite Hkey, xorCipher_undefined by auto. reflexivity.
  - destruct buffer; [congruence | simpl in Hgot; lia].
Qed.

Lemma empty_key_undefined_witness :
  encryptFile 1 calm "a.bin" "b.bin" [] {[ "a.bin" := [9; 8; 7] ]} = Undefined.
Proof.
  apply (empty_key_undefined 0 calm "a.bin" "b.bin" [] [9; 8; 7]
           {[ "a.bin" := [9; 8; 7] ]}); try reflexivity; discriminate.
Defined.

(** X11. When the source is missing or empty, or a call before the loop
    fails (opening the source, seeking, asking the position, opening the
    destination), [encryptFile] returns -1 after a failure message, with
    every file as it was, no read and no write, and no stream left open. *)
Theorem failure_before_the_loop (fuel : nat) (e : env) (inputFile outputFile : string)
    (key : list Z) (files : gmap string (list Z)) :
  files !! inputFile = None \/ files !! inputFile = Some [] \/
  fopen_in_ok e = false \/ fseek_end_ok e = false \/ ftell_ok e = false \/
  fseek_set_ok e = false \/ fopen_out_ok e = false ->
  exists w,
    encryptFile fuel e inputFile outputFile key files = Done (-1, w) /\
    fs w = files /\
    failed (trace w) = true /\
    (forall ev, ev ∈ trace w -> is_transfer ev = false) /\
    is_open InFile false (trace w) = false /\
    is_open OutFile false (trace w) = false /\
    (files !! inputFile = None ->
     trace w = [EvOpen InFile inputFile false; EvPrint (MsgCannotOpenInput inputFile)]).
Proof.
  intros Hcase.
  unfold encryptFile, encryptFile_with, fopen_in, getFileSize, fopen_out, fclose,
    print, emit, content.
  simpl.
  destruct (fopen_in_ok e); simpl; [| early_facts].
  destruct (files !! inputFile) as [D |] eqn:HD; simpl; [| early_facts].
  destruct (fseek_end_ok e); simpl; [| early_facts].
  destruct (ftell_ok e); simpl; [| early_facts].
  destruct (fseek_set_ok e); simpl; [| early_facts].
  destruct D as [| d D]; simpl; [early_facts |].
  destruct (fopen_out_ok e); simpl; [| early_facts].
  exfalso. intuition discriminate.
Qed.

Lemma failure_before_the_loop_witness :
  exists w,
    encryptFile 8 calm "missing.txt" "b.bin" [1; 2; 3; 4] {[ "a.bin" := [9; 8; 7] ]}
      = Done (-1, w) /\
    fs w = {[ "a.bin" := [9; 8; 7] ]}.
Proof.
  destruct (failure_before_the_loop 8 calm "missing.txt" "b.bin" [1; 2; 3; 4]
              {[ "a.bin" := [9; 8; 7] ]}) as (w & Hrun & Hfs & _).
  - left. reflexivity.
  - exists w. auto.
Defined.

(** X12. The progress bar is always given the size of the source as its
    total, never zero, and a number of processed bytes between 1 and that
    size: [printProgress] never divides by zero and never shows more than
    the whole. *)
Theorem progress_within_bounds (fuel : nat) (e : env) (inputFile outputFile : string)
    (key D : list Z) (files : gmap string (list Z)) (r : Z) (w : world)
    (current total : Z) :
  encryptFile fuel e inputFile outputFile key files = Done (r, w) ->
  files !! inputFile = Some D -> inputFile <> outputFile ->
  EvPrint (MsgProgress current total) ∈ trace w ->
  total = Z.of_nat (length D) /\ 0 < current <= total.
Proof.
  intros Hrun HD Hne Hin. unfold encryptFile in Hrun.
  destruct (encryptFile_inv _ _ _ _ _ _ _ r w Hrun)
    as [(_ & _ & _ & _ & _ & Hnone) | (D' & rl & wl & HD' & Hnil & Hloop & Hfin)].
  { exfalso. exact (Hnone _ _ Hin). }
  assert (D' = D) as -> by congruence.
  destruct (finish_inv e rl wl) as (_ & Htr & _). rewrite Hfin in Htr. simpl in Htr.
  destruct (transform_loop_progress _ _ _ _ _ _ _ _ _ _ _ _ Hne Hloop)
    as (tr & Htrl & Hprog).
  { unfold opened. simpl. lia. }
  rewrite Htr, Htrl in Hin. unfold opened in Hin. simpl in Hin.
  rewrite !elem_of_cons, !elem_of_app in Hin.
  destruct Hin as [Hin | [Hin | [Hin | Hin]]]; try discriminate Hin.
  - apply Hprog in Hin as [-> Hrange]. split; [reflexivity |].
    unfold content, opened in Hrange. simpl in Hrange.
    rewrite lookup_insert_ne, HD in Hrange by congruence. simpl in Hrange. lia.
  - exfalso. unfold closing in Hin.
    destruct (in_err wl), (fclose_in_ok e), (fclose_out_ok e); simpl in Hin;
      rewrite ?elem_of_cons, ?elem_of_nil in Hin; intuition discriminate.
Qed.

Lemma progress_within_bounds_witness :
  exists r w,
    encryptFile 8 calm "a.bin" "b.bin" [1; 2; 3; 4] {[ "a.bin" := [9; 8; 7] ]}
      = Done (r, w) /\
    EvPrint (MsgProgress 3 3) ∈ trace w.
Proof.
  destruct (encryptFile 8 calm "a.bin" "b.bin" [1; 2; 3; 4] {[ "a.bin" := [9; 8; 7] ]})
    as [[r w] | |] eqn:Hrun; try (vm_compute in Hrun; discriminate Hrun).
  assert (EvPrint (MsgProgress 3 3) ∈ trace w) as Hin.
  { vm_compute in Hrun. injection Hrun as _ <-.
    do 4 apply list_elem_of_further. apply list_elem_of_here. }
  destruct (progress_within_bounds 8 calm "a.bin" "b.bin" [1; 2; 3; 4] [9; 8; 7]
              {[ "a.bin" := [9; 8; 7] ]} r w 3 3 Hrun) as [_ _];
    [reflexivity | discriminate | exact Hin |].
  exists r, w. auto.
Defined.

(** X13. A source that fits the buffer (at most 4096 bytes) is transformed
    by a single call of [xorCipher]: after a run that returns 0 the
    destination is the source with the key cycled from its first byte to
    its last, whatever the length of the key. *)
Theorem single_chunk_is_one_call (fuel : nat) (e : env) (inputFile outputFile : string)
    (key D : list Z) (files : gmap string (list Z)) (w : world) :
  encryptFile fuel e inputFile outputFile key files = Done (0, w) ->
  files !! inputFile = Some D -> inputFile <> outputFile ->
  (length D <= BUFFER_SIZE)%nat ->
  fs w !! outputFile = xorCipher D (length D) key (strlen key) /\
  fs w !! outputFile = Some (transform_spec D key (strlen key) 0).
Proof.
  intros Hrun HD Hne Hfit. unfold encryptFile in Hrun.
  destruct (encryptFile_success _ _ _ _ _ _ _ w D Hrun HD Hne BUFFER_SIZE_pos)
    as (_ & Hkey & Hfs).
  pose proof (strlen_le key).
  rewrite Hfs, lookup_insert_eq, xorCipher_defined by lia.
  rewrite chunked_xor_one_chunk by (apply BUFFER_SIZE_pos || exact Hfit). auto.
Qed.

Lemma single_chunk_is_one_call_witness :
  exists w,
    encryptFile 8 calm "a.bin" "b.bin" [1; 2; 3; 4] {[ "a.bin" := [9; 8; 7; 6; 5] ]}
      = Done (0, w) /\
    fs w !! "b.bin" = xorCipher [9; 8; 7; 6; 5] 5 [1; 2; 3; 4] 4.
Proof.
  destruct (encryptFile 8 calm "a.bin" "b.bin" [1; 2; 3; 4]
              {[ "a.bin" := [9; 8; 7; 6; 5] ]}) as [[r w] | |] eqn:Hrun;
    try (vm_compute in Hrun; discriminate Hrun).
  assert (r = 0) as -> by (vm_compute in Hrun; congruence).
  destruct (single_chunk_is_one_call 8 calm "a.bin" "b.bin" [1; 2; 3; 4]
              [9; 8; 7; 6; 5] {[ "a.bin" := [9; 8; 7; 6; 5] ]} w Hrun) as [Hone _];
    [reflexivity | discriminate | unfold BUFFER_SIZE; simpl; lia |].
  exists w. auto.
Defined.

(** X14. The destination of a run that returns 0 holds bytes only, and the
    XOR of a byte of the source with the byte of the destination at the
    same position is the key byte used there: one known plaintext reveals
    the key. *)
Theorem known_plaintext_reveals_key (fuel : nat) (e : env)
    (inputFile outputFile : string) (key D : list Z) (files : gmap string (list Z))
    (w : world) :
  encryptFile fuel e inputFile outputFile key files = Done (0, w) ->
  files !! inputFile = Some D -> inputFile <> outputFile ->
  exists out,
    fs w !! outputFile = Some out /\
    Forall is_uchar out /\
    forall j d o, D !! j = Some d -> out !! j = Some o -> is_uchar d ->
      exists c, key !! ((j mod BUFFER_SIZE) mod strlen key)%nat = Some c /\
                xor_uchar o d = to_uchar c.
Proof.
  intros Hrun HD Hne. unfold encryptFile in Hrun.
  destruct (encryptFile_success _ _ _ _ _ _ _ w D Hrun HD Hne BUFFER_SIZE_pos)
    as (_ & Hkey & Hfs).
  exists (chunked_xor BUFFER_SIZE D key (strlen key)).
  rewrite Hfs, lookup_insert_eq. split; [reflexivity |]. split.
  - apply Forall_lookup_2. intros j o Ho. unfold chunked_xor in Ho.
    apply list_lookup_imap_Some in Ho as (d & _ & ->). apply xor_uchar_range.
  - intros j d o Hd Ho Hbyte.
    assert ((j mod BUFFER_SIZE) mod strlen key < length key)%nat as Hlt.
    { pose proof (strlen_le key).
      pose proof (Nat.mod_upper_bound (j mod BUFFER_SIZE) (strlen key)). lia. }
    destruct (lookup_lt_is_Some_2 key _ Hlt) as [c Hc].
    exists c. split; [exact Hc |].
    rewrite (chunked_xor_lookup BUFFER_SIZE key (strlen key) D j d c Hd Hc) in Ho.
    apply (inj Some) in Ho. subst o. apply xor_uchar_recover. exact Hbyte.
Qed.

Lemma known_plaintext_reveals_key_witness :
  exists w out,
    encryptFile 8 calm "a.bin" "b.bin" [1; 2; 3; 4] {[ "a.bin" := [9; 8; 7; 6; 5] ]}
      = Done (0, w) /\
    fs w !! "b.bin" = Some out /\ Forall is_uchar out.
Proof.
  destruct (encryptFile 8 calm "a.bin" "b.bin" [1; 2; 3; 4]
              {[ "a.bin" := [9; 8; 7; 6; 5] ]}) as [[r w] | |] eqn:Hrun;
    try (vm_compute in Hrun; discriminate Hrun).
  assert (r = 0) as -> by (vm_compute in Hrun; congruence).
  destruct (known_plaintext_reveals_key 8 calm "a.bin" "b.bin" [1; 2; 3; 4]
              [9; 8; 7; 6; 5] {[ "a.bin" := [9; 8; 7; 6; 5] ]} w Hrun)
    as (out & Hout & Hbytes & _); [reflexivity | discriminate |].
  exists w, out. auto.
Defined.

(** * The dialogue *)

(** ** Lines typed at the keyboard *)

Lemma strlen_plain line tail :
  plain_line line -> strlen (line ++ tail) = (length line + strlen tail)%nat.
Proof.
  induction 1 as [| c line [_ Hc] _ IH]; [reflexivity |].
  simpl. destruct (Z.eqb_spec c 0); [contradiction |]. rewrite IH. reflexivity.
Qed.

Lemma strlen_plain_line line : plain_line line -> strlen line = length line.
Proof.
  intros H. rewrite <- (app_nil_r line) at 1. rewrite strlen_plain by exact H.
  simpl. lia.
Qed.

Lemma plain_line_take n line : plain_line line -> plain_line (take n line).
Proof. apply Forall_take. Qed.

(** [fgets] on a typed line: the whole line with its newline when it fits,
    else as many characters as fit, the others staying in the input. *)
Lemma fgets_chars_line room : forall line rest,
  plain_line line ->
  fgets_chars room (line ++ NEWLINE :: rest) =
    if (length line <? room)%nat then (line ++ [NEWLINE], rest)
    else (take room line, drop room line ++ NEWLINE :: rest).
Proof.
  induction room as [| room IH]; intros line rest Hline.
  - simpl. rewrite take_0, drop_0. destruct (line ++ NEWLINE :: rest); reflexivity.
  - destruct Hline as [| c line [Hnl _] Hline]; [reflexivity |].
    cbn [app fgets_chars length].
    destruct (Z.eqb_spec c NEWLINE); [contradiction |].
    rewrite (IH line rest Hline).
    change (S (length line) <? S room)%nat with (length line <? room)%nat.
    destruct (length line <? room)%nat; reflexivity.
Qed.

Lemma fgets_chars_eof room : forall line,
  plain_line line ->
  fgets_chars room line = (take room line, drop room line).
Proof.
  induction room as [| room IH]; intros line Hline.
  - simpl. rewrite take_0, drop_0. destruct line; reflexivity.
  - destruct Hline as [| c line [Hnl _] Hline]; [reflexivity |].
    cbn [fgets_chars]. destruct (Z.eqb_spec c NEWLINE); [contradiction |].
    rewrite (IH line Hline). reflexivity.
Qed.

(** [fgets] on a typed line followed by a newline or by the end of the
    input. *)
Lemma fgets_line size line ending :
  plain_line line -> line_end ending -> (1 < size)%nat ->
  fgets size (line ++ ending) =
    if (length line <? size - 1)%nat
    then (if bool_decide (line ++ ending = []) then None
          else Some (line ++ take 1 ending), tail ending)
    else (Some (take (size - 1) line), drop (size - 1) line ++ ending).
Proof.
  intros Hline Hend Hsize. unfold fgets.
  destruct Hend as [-> | [rest ->]].
  - rewrite app_nil_r. destruct line as [| c line].
    + simpl. destruct (size - 1)%nat eqn:Hs; [lia | reflexivity].
    + rewrite (fgets_chars_eof _ _ Hline).
      rewrite bool_decide_eq_false_2 by discriminate.
      destruct (Nat.ltb_spec (length (c :: line)) (size - 1)) as [Hlt | Hge].
      * rewrite take_ge, drop_ge by lia. rewrite app_nil_r. reflexivity.
      * rewrite app_nil_r. reflexivity.
  - rewrite (fgets_chars_line _ _ _ Hline).
    rewrite bool_decide_eq_false_2 by (destruct line; discriminate).
    destruct (line ++ NEWLINE :: rest) eqn:Heq; [destruct line; discriminate |].
    destruct (length line <? size - 1)%nat; reflexivity.
Qed.

Lemma strlen_snoc_newline line :
  plain_line line -> strlen (line ++ [NEWLINE]) = S (length line).
Proof. intros H. rewrite strlen_plain by exact H. simpl. lia. Qed.

Lemma cstring_terminated line tail : plain_line line -> cstring (line ++ 0 :: tail) = line.
Proof.
  intros H. unfold cstring. rewrite strlen_plain by exact H. simpl.
  rewrite Nat.add_0_r, take_app_length. reflexivity.
Qed.

Lemma cstring_plain line : plain_line line -> cstring line = line.
Proof.
  intros H. unfold cstring. rewrite strlen_plain_line by exact H.
  apply take_ge. lia.
Qed.

(** Stripping the newline that ends the characters read. *)
Lemma strip_newline line :
  plain_line line ->
  (0 <? strlen (line ++ [NEWLINE]))%nat
    && (char_at (line ++ [NEWLINE]) (strlen (line ++ [NEWLINE]) - 1) =? NEWLINE) = true /\
  <[(strlen (line ++ [NEWLINE]) - 1)%nat := 0]> (line ++ [NEWLINE]) = line ++ [0].
Proof.
  intros H. rewrite strlen_snoc_newline by exact H.
  replace (S (length line) - 1)%nat with (length line + 0)%nat by lia.
  unfold char_at. rewrite lookup_app_r, insert_app_r by lia.
  replace (length line + 0 - length line)%nat with O by lia.
  split; reflexivity.
Qed.

(** No newline to strip in characters that hold none. *)
Lemma no_newline line :
  plain_line line ->
  (0 <? strlen line)%nat && (char_at line (strlen line - 1) =? NEWLINE) = false.
Proof.
  intros H. rewrite strlen_plain_line by exact H.
  destruct line as [| c line]; [reflexivity |].
  simpl length. replace (S (length line) - 1)%nat with (length line) by lia.
  unfold char_at.
  destruct (lookup_lt_is_Some_2 (c :: line) (length line)) as [x Hx]; [simpl; lia |].
  rewrite Hx. simpl.
  destruct (proj1 (Forall_lookup _ _) H _ _ Hx) as [Hnl _].
  destruct (Z.eqb_spec x NEWLINE); [contradiction | reflexivity].
Qed.

(** What [fgets] and the stripping of the newline leave in a buffer of
    [size] cells for a typed line. *)
Lemma read_line size line ending :
  plain_line line -> line_end ending -> (1 < size)%nat ->
  line ++ ending <> [] ->
  exists chars,
    fgets size (line ++ ending) =
      (Some chars,
       if (length line <? size - 1)%nat then tail ending
       else drop (size - 1) line ++ ending) /\
    let stripped :=
      (0 <? strlen chars)%nat && (char_at chars (strlen chars - 1) =? NEWLINE) in
    let buffer := if stripped then <[(strlen chars - 1)%nat := 0]> chars else chars in
    cstring buffer = take (size - 1) line /\
    strlen buffer = Nat.min (size - 1) (length line) /\
    (if stripped then strlen chars - 1 else strlen chars)%nat = strlen buffer.
Proof.
  intros Hline Hend Hsize Hne.
  rewrite (fgets_line size line ending Hline Hend Hsize).
  rewrite bool_decide_eq_false_2 by exact Hne.
  destruct (Nat.ltb_spec (length line) (size - 1)) as [Hfit | Hlong].
  - eexists. split; [reflexivity |]. cbv zeta.
    rewrite (take_ge line) by lia. rewrite Nat.min_r by lia.
    destruct Hend as [-> | [rest ->]].
    + simpl take. rewrite app_nil_r. rewrite (no_newline line Hline).
      rewrite cstring_plain, strlen_plain_line by exact Hline. auto.
    + change (take 1 (NEWLINE :: rest)) with [NEWLINE].
      destruct (strip_newline line Hline) as [-> ->].
      rewrite cstring_terminated by exact Hline.
      rewrite !strlen_plain by exact Hline. simpl. split; [reflexivity |]. lia.
  - eexists. split; [reflexivity |]. cbv zeta.
    pose proof (plain_line_take (size - 1) line Hline) as Htake.
    rewrite (no_newline _ Htake).
    rewrite cstring_plain, strlen_plain_line, length_take by exact Htake. auto.
Qed.

(** X15. A key typed on a line is accepted exactly when the line has 4 to
    126 characters, and then the key is the line; a longer line is rejected
    as too long, not cut to size, and what did not fit the buffer stays in
    the input.  The same holds for a last line that the end of the input
    closes. *)
Theorem key_entry (line ending : list Z) :
  plain_line line -> line_end ending ->
  exists status key rest printed,
    getEncryptionKey (line ++ ending) = (status, key, rest, printed) /\
    (status = 0 <-> (4 <= length line <= 126)%nat) /\
    (status = 0 \/ status = -1) /\
    (status = 0 -> cstring key = line /\ printed = [UiEnterKey 4]) /\
    rest = (if (length line <? 127)%nat then tail ending
            else drop 127 line ++ ending) /\
    ((126 < length line)%nat ->
     printed = [UiEnterKey 4; UiReport (MsgKeyTooLong 127)]).
Proof.
  intros Hline Hend. unfold getEncryptionKey, secureKeyInput.
  assert (exists key,
            (match fgets MAX_KEY_LENGTH (line ++ ending) with
             | (None, rest) => ([0], rest)
             | (Some key, rest) =>
                 if (0 <? strlen key)%nat && (char_at key (strlen key - 1) =? NEWLINE)
                 then (<[(strlen key - 1)%nat := 0]> key, rest)
                 else (key, rest)
             end) = (key, if (length line <? 127)%nat then tail ending
                          else drop 127 line ++ ending) /\
            cstring key = take 127 line /\
            strlen key = Nat.min 127 (length line)) as (key & -> & Hkey & Hlen).
  { destruct (decide (line ++ ending = [])) as [Hnil | Hne].
    - apply app_eq_nil in Hnil as [-> ->]. exists [0]. auto.
    - destruct (read_line MAX_KEY_LENGTH line ending Hline Hend) as (chars & -> & H);
        [unfold MAX_KEY_LENGTH; lia | exact Hne |].
      cbv zeta in H. change (MAX_KEY_LENGTH - 1)%nat with 127%nat in *.
      destruct ((0 <? strlen chars)%nat && _); eexists; (split; [reflexivity |]);
        destruct H as (? & ? & _); auto. }
  destruct (validateKey_cases key) as (Hacc & Hcases & Hquiet & Hshort & Hlong).
  destruct (validateKey key) as [status printed] eqn:Hv. cbn [fst snd] in *.
  destruct Hcases as [-> | ->]; cbn [Z.eqb negb].
  - eexists _, _, _, _. split; [reflexivity |].
    assert (4 <= length line <= 126)%nat as Hrange
      by (destruct Hacc as [Hacc _]; specialize (Hacc eq_refl); lia).
    split; [tauto |]. split; [auto |].
    split.
    + intros _. rewrite Hkey, take_ge by lia. rewrite (Hquiet eq_refl). auto.
    + split; [reflexivity | lia].
  - eexists _, _, _, _. split; [reflexivity |].
    split.
    + split; [discriminate |]. intros Hrange.
      destruct Hacc as [_ Hacc]. rewrite Hlen in Hacc.
      assert (-1 = 0) as Habs by (apply Hacc; lia). discriminate Habs.
    + split; [auto |]. split; [discriminate |]. split; [reflexivity |].
      intros Hover. rewrite Hlen in Hlong.
      assert ((-1, printed) = (-1, [MsgKeyTooLong 127])) as Hp by (apply Hlong; lia).
      injection Hp as ->. reflexivity.
Qed.

Lemma key_entry_witness :
  exists key,
    getEncryptionKey ([115; 101; 115; 97; 109; 101] ++ NEWLINE :: [51; 10])
      = (0, key, [51; 10], [UiEnterKey 4]) /\
    cstring key = [115; 101; 115; 97; 109; 101].
Proof.
  destruct (key_entry [115; 101; 115; 97; 109; 101] (NEWLINE :: [51; 10]))
    as (status & key & rest & printed & Hrun & Hacc & _ & Hkey & Hrest & _).
  - repeat constructor; discriminate.
  - right. eexists. reflexivity.
  - assert (status = 0) as -> by (apply Hacc; simpl; lia).
    destruct (Hkey eq_refl) as [Hc ->]. subst rest.
    exists key. auto.
Defined.

(** X16. A file name typed on a line is accepted exactly when the line is
    not empty; the name is the line, cut to its first 255 characters when
    it is longer, and what was cut off stays in the input for the next
    question.  At the end of the input the buffer is left as it was and
    the call fails. *)
Theorem filename_entry (old line ending : list Z) (prompt : string) :
  plain_line line -> line_end ending ->
  exists status filename rest printed,
    getFilename old prompt (line ++ ending) = (status, filename, rest, printed) /\
    (status = 0 <-> line <> []) /\
    (status = 0 \/ status = -1) /\
    (status = 0 -> cstring filename = take 255 line /\ printed = [UiPrompt prompt]) /\
    rest = (if (length line <? 255)%nat then tail ending
            else drop 255 line ++ ending) /\
    (line ++ ending = [] ->
     filename = old /\ printed = [UiPrompt prompt; UiFilenameReadFailed]).
Proof.
  intros Hline Hend. unfold getFilename.
  destruct (decide (line ++ ending = [])) as [Hnil | Hne].
  - apply app_eq_nil in Hnil as [-> ->]. simpl.
    eexists _, _, _, _. split; [reflexivity |].
    repeat split; auto; try discriminate; congruence.
  - destruct (read_line MAX_FILENAME_LENGTH line ending Hline Hend)
      as (chars & -> & Hc & Hlen & Hlen'); [unfold MAX_FILENAME_LENGTH; lia | exact Hne |].
    change (MAX_FILENAME_LENGTH - 1)%nat with 255%nat in *.
    rewrite Hlen', Hlen.
    destruct (Nat.eqb_spec (Nat.min 255 (length line)) 0) as [Hz | Hz].
    + assert (line = []) as -> by (destruct line; [reflexivity | simpl in Hz; lia]).
      eexists _, _, _, _. split; [reflexivity |].
      repeat split; auto; try discriminate; try congruence.
    + assert (line <> []) as Hl by (intros ->; simpl in Hz; lia).
      eexists _, _, _, _. split; [reflexivity |].
      repeat split; auto; congruence.
Qed.

Lemma filename_entry_witness :
  exists filename,
    getFilename [] "Enter input filename: " ([97; 46; 116] ++ NEWLINE :: [98; 10])
      = (0, filename, [98; 10], [UiPrompt "Enter input filename: "]) /\
    cstring filename = [97; 46; 116].
Proof.
  destruct (filename_entry [] [97; 46; 116] (NEWLINE :: [98; 10]) "Enter input filename: ")
    as (status & filename & rest & printed & Hrun & Hacc & _ & Hname & Hrest & _).
  - repeat constructor; discriminate.
  - right. eexists. reflexivity.
  - assert (status = 0) as -> by (apply Hacc; discriminate).
    destruct (Hname eq_refl) as [Hc ->]. subst rest.
    exists filename. auto.
Defined.

(** [clearInputBuffer] drops the rest of the current line. *)
Lemma clearInputBuffer_line line ending :
  Forall (fun c => c <> NEWLINE) line -> line_end ending ->
  clearInputBuffer (line ++ ending) = tail ending.
Proof.
  intros Hline Hend. induction Hline as [| c line Hc _ IH].
  - destruct Hend as [-> | [rest ->]]; reflexivity.
  - simpl. destruct (Z.eqb_spec c NEWLINE); [contradiction | exact IH].
Qed.

(** ** The menu choice *)

Lemma skip_spaces_app spaces c rest :
  Forall (fun c => is_space c = true) spaces -> is_space c = false ->
  skip_spaces (spaces ++ c :: rest) = c :: rest.
Proof.
  intros Hs Hc. induction Hs as [| s spaces Hsp _ IH]; simpl.
  - rewrite Hc. reflexivity.
  - rewrite Hsp. exact IH.
Qed.

Lemma skip_spaces_all spaces :
  Forall (fun c => is_space c = true) spaces -> skip_spaces spaces = [].
Proof. induction 1 as [| s spaces Hsp _ IH]; simpl; [| rewrite Hsp]; auto. Qed.

(** X17. [getChoice] returns 1, 2 or 3 and nothing else, and it only adds
    to what was printed. *)
Theorem getChoice_range (fuel : nat) (input : list Z) (printed : list ui)
    (choice : Z) (rest : list Z) (printed' : list ui) :
  getChoice fuel input printed = Done (choice, rest, printed') ->
  (choice = 1 \/ choice = 2 \/ choice = 3) /\
  exists more, printed' = printed ++ UiEnterChoice :: more.
Proof.
  revert input printed. induction fuel as [| fuel IH]; intros input printed Hrun;
    [discriminate Hrun |].
  cbn [getChoice] in Hrun.
  destruct (scanf_int input) as [[value | |] left]; [| | discriminate Hrun].
  - destruct ((1 <=? value) && (value <=? 3)) eqn:Hrange.
    + injection Hrun as <- <- <-. split; [lia |]. exists []. reflexivity.
    + apply IH in Hrun as [Hc [more ->]]. split; [exact Hc |].
      rewrite <- !app_assoc. simpl. eauto.
  - apply IH in Hrun as [Hc [more ->]]. split; [exact Hc |].
    rewrite <- !app_assoc. simpl. eauto.
Qed.

Lemma getChoice_range_witness :
  getChoice 3 [120; 10; 55; 10; 50; 10; 49; 10] []
    = Done (2, [49; 10],
            [UiEnterChoice; UiInvalidInput; UiEnterChoice; UiInvalidChoice;
             UiEnterChoice]) /\
  (2 = 1 \/ 2 = 2 \/ 2 = 3).
Proof.
  split; [vm_compute; reflexivity |].
  apply (getChoice_range 3 [120; 10; 55; 10; 50; 10; 49; 10] [] 2 [49; 10]
           [UiEnterChoice; UiInvalidInput; UiEnterChoice; UiInvalidChoice;
            UiEnterChoice]).
  vm_compute. reflexivity.
Defined.

(** At the end of the input (after white space at most) every round of
    [getChoice] fails to read a number, finds nothing to discard and asks
    again. *)
Lemma getChoice_starved (fuel : nat) (input : list Z) (printed : list ui) :
  Forall (fun c => is_space c = true) input ->
  getChoice fuel input printed = OutOfFuel.
Proof.
  intros Hspaces. revert input printed Hspaces.
  induction fuel as [| fuel IH]; intros input printed Hspaces; [reflexivity |].
  cbn [getChoice]. unfold scanf_int. rewrite (skip_spaces_all _ Hspaces).
  apply IH. constructor.
Qed.

Lemma read_digits_stop acc input :
  (forall c, head input = Some c -> is_digit c = false) ->
  read_digits acc input = (acc, input).
Proof.
  intros H. destruct input as [| c rest]; [reflexivity |].
  simpl. rewrite (H c eq_refl). reflexivity.
Qed.

(** What follows the first token of a line does not start with a digit. *)
Lemma head_after junk ending :
  (forall c, head junk = Some c -> is_digit c = false) -> line_end ending ->
  forall c, head (junk ++ ending) = Some c -> is_digit c = false.
Proof.
  intros Hjunk Hend c. destruct junk as [| j junk]; [| exact (Hjunk c)].
  destruct Hend as [-> | [rest ->]]; simpl; [discriminate |].
  intros Hc. injection Hc as <-. reflexivity.
Qed.

(** A choice typed on a line. *)
Lemma getChoice_line (fuel : nat) (spaces : list Z) (digit : Z)
    (junk ending : list Z) (printed : list ui) :
  Forall (fun c => is_space c = true) spaces ->
  digit = 49 \/ digit = 50 \/ digit = 51 ->
  Forall (fun c => c <> NEWLINE) junk ->
  (forall c, head junk = Some c -> is_digit c = false) ->
  line_end ending ->
  getChoice (S fuel) (spaces ++ digit :: junk ++ ending) printed =
    Done (digit - 48, tail ending, printed ++ [UiEnterChoice]).
Proof.
  intros Hspaces Hdigit Hjunk Hhead Hend.
  cbn [getChoice]. unfold scanf_int.
  rewrite skip_spaces_app by (try assumption; destruct Hdigit as [-> | [-> | ->]]; reflexivity).
  assert (is_digit digit = true /\ (digit =? 45) || (digit =? 43) = false /\
          (digit =? 45) = false /\ (1 <=? digit - 48) && (digit - 48 <=? 3) = true /\
          (INT_MIN <=? digit - 48) && (digit - 48 <=? INT_MAX) = true)
    as (Hd & Hsign & Hneg & Hrange & Hint)
    by (destruct Hdigit as [-> | [-> | ->]]; repeat split; reflexivity).
  rewrite Hsign, Hd. cbn [read_digits]. rewrite Hd, Hneg.
  rewrite read_digits_stop by (apply head_after; assumption).
  replace (10 * 0 + (digit - 48)) with (digit - 48) by lia.
  rewrite Hint, Hrange, clearInputBuffer_line by assumption. reflexivity.
Qed.

(** X19. A line that starts, after white space at most, with one of the
    digits 1, 2, 3 followed by something that is not a digit makes
    [getChoice] return that choice; the rest of the line is discarded. *)
Theorem getChoice_reads_choice (fuel : nat) (spaces : list Z) (digit : Z)
    (junk ending : list Z) (printed : list ui) :
  Forall (fun c => is_space c = true) spaces ->
  digit = 49 \/ digit = 50 \/ digit = 51 ->
  Forall (fun c => c <> NEWLINE) junk ->
  (forall c, head junk = Some c -> is_digit c = false) ->
  line_end ending ->
  getChoice (S fuel) (spaces ++ digit :: junk ++ ending) printed =
    Done (digit - 48, tail ending, printed ++ [UiEnterChoice]).
Proof. exact (getChoice_line fuel spaces digit junk ending printed). Qed.

Lemma getChoice_reads_choice_witness :
  getChoice 1 ([32] ++ 50 :: [32; 120] ++ NEWLINE :: [97; 10]) []
    = Done (50 - 48, tail (NEWLINE :: [97; 10]), [] ++ [UiEnterChoice]).
Proof.
  apply (getChoice_reads_choice 0 [32] 50 [32; 120] (NEWLINE :: [97; 10]) []).
  - repeat constructor.
  - auto.
  - repeat constructor; discriminate.
  - intros c Hc. injection Hc as <-. reflexivity.
  - right. eexists. reflexivity.
Defined.

(** X20. A line that does not start with a number is answered with the
    message for an invalid input, and a line with a single digit other
    than 1, 2, 3 with the message for an invalid choice; in both cases the
    line is discarded and the question asked again. *)
Theorem getChoice_rejects_line (fuel : nat) (c : Z) (line ending : list Z)
    (printed : list ui) :
  Forall (fun c => c <> NEWLINE) (c :: line) -> line_end ending ->
  (is_space c = false -> is_digit c = false -> c <> 45 -> c <> 43 ->
   getChoice (S fuel) (c :: line ++ ending) printed =
     getChoice fuel (tail ending) (printed ++ [UiEnterChoice; UiInvalidInput])) /\
  (is_digit c = true -> c <> 49 -> c <> 50 -> c <> 51 ->
   (forall d, head line = Some d -> is_digit d = false) ->
   getChoice (S fuel) (c :: line ++ ending) printed =
     getChoice fuel (tail ending) (printed ++ [UiEnterChoice; UiInvalidChoice])).
Proof.
  intros Hline Hend. split.
  - intros Hsp Hdg Hminus Hplus.
    cbn [getChoice]. unfold scanf_int. cbn [skip_spaces]. rewrite Hsp.
    destruct (Z.eqb_spec c 45); [contradiction |].
    destruct (Z.eqb_spec c 43); [contradiction |].
    cbn [orb]. rewrite Hdg.
    change (c :: line ++ ending) with ((c :: line) ++ ending).
    rewrite (clearInputBuffer_line (c :: line) ending Hline Hend).
    rewrite <- app_assoc. reflexivity.
  - intros Hdg H1 H2 H3 Hhead.
    assert (48 <= c <= 57) as Hc by (unfold is_digit in Hdg; lia).
    assert (is_space c = false) as Hsp by (unfold is_space; lia).
    cbn [getChoice]. unfold scanf_int. cbn [skip_spaces]. rewrite Hsp.
    destruct (Z.eqb_spec c 45); [lia |].
    destruct (Z.eqb_spec c 43); [lia |].
    cbn [orb]. rewrite Hdg. cbn [read_digits]. rewrite Hdg.
    rewrite read_digits_stop by (apply head_after; assumption).
    replace (10 * 0 + (c - 48)) with (c - 48) by lia.
    assert ((INT_MIN <=? c - 48) && (c - 48 <=? INT_MAX) = true) as ->
      by (unfold INT_MIN, INT_MAX; lia).
    assert ((1 <=? c - 48) && (c - 48 <=? 3) = false) as -> by lia.
    inversion Hline as [| ? ? _ Hrest]; subst.
    rewrite (clearInputBuffer_line line ending Hrest Hend).
    rewrite <- app_assoc. reflexivity.
Qed.

Lemma getChoice_rejects_line_witness :
  getChoice 2 (113 :: [117; 105; 116] ++ NEWLINE :: [51; 10]) [] =
  getChoice 1 (tail (NEWLINE :: [51; 10])) ([] ++ [UiEnterChoice; UiInvalidInput]).
Proof.
  apply (getChoice_rejects_line 1 113 [117; 105; 116] (NEWLINE :: [51; 10]) []).
  - repeat constructor; discriminate.
  - right. eexists. reflexivity.
  - reflexivity.
  - reflexivity.
  - discriminate.
  - discriminate.
Defined.

(** ** What [main] checks before a transform *)

(** The input functions hand on characters of the input. *)
Lemma fgets_chars_split room : forall input line rest,
  fgets_chars room input = (line, rest) -> input = line ++ rest.
Proof.
  induction room as [| room IH]; intros input line rest H.
  - destruct input; injection H as <- <-; reflexivity.
  - destruct input as [| c input]; [injection H as <- <-; reflexivity |].
    cbn [fgets_chars] in H. destruct (c =? NEWLINE).
    + injection H as <- <-. reflexivity.
    + destruct (fgets_chars room input) as [l r] eqn:Hrec.
      injection H as <- <-. rewrite (IH _ _ _ Hrec). reflexivity.
Qed.

Lemma fgets_uchar size input chars rest :
  Forall is_uchar input -> fgets size input = (chars, rest) ->
  Forall is_uchar rest /\ forall line, chars = Some line -> Forall is_uchar line.
Proof.
  intros Hin H. unfold fgets in H. destruct input as [| c input].
  - injection H as <- <-. split; [constructor | discriminate].
  - destruct (fgets_chars (size - 1) (c :: input)) as [l r] eqn:Hsplit.
    injection H as <- <-. apply fgets_chars_split in Hsplit.
    rewrite Hsplit in Hin. apply Forall_app in Hin as [Hl Hr].
    split; [exact Hr |]. intros line Hline. injection Hline as <-. exact Hl.
Qed.

Lemma zero_uchar : is_uchar 0.
Proof. unfold is_uchar. lia. Qed.

(** Messages other than [UiTransform] need no guard. *)
Ltac plain_messages :=
  let u := fresh "u" in let Hu := fresh "Hu" in
  intros u Hu;
  repeat (apply elem_of_cons in Hu as [-> | Hu]; [exact I |]);
  apply elem_of_nil in Hu; contradiction.

Lemma getFilename_uchar old prompt input status name rest printed :
  Forall is_uchar input -> Forall is_uchar old ->
  getFilename old prompt input = (status, name, rest, printed) ->
  Forall is_uchar rest /\ Forall is_uchar name /\
  (forall u, u ∈ printed -> guarded u).
Proof.
  intros Hin Hold H. unfold getFilename in H.
  destruct (fgets MAX_FILENAME_LENGTH input) as [[line |] left] eqn:Hread;
    destruct (fgets_uchar _ _ _ _ Hin Hread) as [Hleft Hline].
  - specialize (Hline line eq_refl).
    set (stripped := (0 <? strlen line)%nat && _) in H.
    assert (Forall is_uchar (if stripped then <[(strlen line - 1)%nat := 0]> line
                             else line)) as Hname
      by (destruct stripped;
          [apply Forall_insert; [assumption | apply zero_uchar] | assumption]).
    destruct ((if stripped then (strlen line - 1)%nat else strlen line) =? 0)%nat;
      injection H as <- <- <- <-; repeat split; try assumption; plain_messages.
  - injection H as <- <- <- <-. repeat split; try assumption. plain_messages.
Qed.

Lemma skip_spaces_uchar input : Forall is_uchar input -> Forall is_uchar (skip_spaces input).
Proof.
  induction 1 as [| c input Hc Hin IH]; simpl; [constructor |].
  destruct (is_space c); [exact IH | constructor; assumption].
Qed.

Lemma clearInputBuffer_uchar input :
  Forall is_uchar input -> Forall is_uchar (clearInputBuffer input).
Proof.
  induction 1 as [| c input Hc Hin IH]; simpl; [constructor |].
  destruct (c =? NEWLINE); assumption.
Qed.

Lemma read_digits_uchar input : forall acc,
  Forall is_uchar input -> Forall is_uchar (read_digits acc input).2.
Proof.
  induction input as [| c input IH]; intros acc Hin; simpl; [constructor |].
  destruct (is_digit c); [apply IH; inversion Hin; assumption | exact Hin].
Qed.

Lemma scanf_int_uchar input :
  Forall is_uchar input -> Forall is_uchar (scanf_int input).2.
Proof.
  intros Hin. unfold scanf_int.
  pose proof (skip_spaces_uchar input Hin) as Hskip.
  destruct (skip_spaces input) as [| c rest]; [constructor |].
  assert (Forall is_uchar (if (c =? 45) || (c =? 43) then rest else c :: rest)) as Hbody
    by (destruct ((c =? 45) || (c =? 43)); [inversion Hskip |]; assumption).
  destruct (if (c =? 45) || (c =? 43) then rest else c :: rest) as [| d body] eqn:Hb;
    [constructor |].
  destruct (is_digit d); [| exact Hbody].
  pose proof (read_digits_uchar (d :: body) 0 Hbody) as Hrest.
  destruct (read_digits 0 (d :: body)) as [n rest'].
  destruct ((INT_MIN <=? _) && _); exact Hrest.
Qed.

Lemma getChoice_sane fuel : forall input printed choice rest printed',
  getChoice fuel input printed = Done (choice, rest, printed') ->
  Forall is_uchar input -> Forall guarded printed ->
  Forall is_uchar rest /\ Forall guarded printed'.
Proof.
  induction fuel as [| fuel IH]; intros input printed choice rest printed' Hrun Hin Hg;
    [discriminate Hrun |].
  cbn [getChoice] in Hrun.
  pose proof (scanf_int_uchar input Hin) as Hleft.
  destruct (scanf_int input) as [[value | |] left]; [| | discriminate Hrun];
    cbn [snd] in Hleft; apply clearInputBuffer_uchar in Hleft.
  - destruct ((1 <=? value) && (value <=? 3)).
    + injection Hrun as <- <- <-. split; [exact Hleft |].
      apply Forall_app. split; [exact Hg | repeat constructor].
    + apply IH in Hrun; [exact Hrun | exact Hleft |].
      rewrite !Forall_app. repeat split; [exact Hg | repeat constructor ..].
  - apply IH in Hrun; [exact Hrun | exact Hleft |].
    rewrite !Forall_app. repeat split; [exact Hg | repeat constructor ..].
Qed.

Lemma getEncryptionKey_sane input status key rest printed :
  Forall is_uchar input ->
  getEncryptionKey input = (status, key, rest, printed) ->
  Forall is_uchar rest /\
  (forall u, u ∈ printed -> guarded u) /\
  (status = 0 -> (4 <= strlen key <= 126)%nat).
Proof.
  intros Hin H. unfold getEncryptionKey, secureKeyInput in H.
  destruct (fgets MAX_KEY_LENGTH input) as [chars left] eqn:Hread.
  destruct (fgets_uchar _ _ _ _ Hin Hread) as [Hleft _].
  assert (exists buffer,
            (match chars with
             | Some key0 =>
                 if (0 <? strlen key0)%nat && (char_at key0 (strlen key0 - 1) =? NEWLINE)
                 then (<[(strlen key0 - 1)%nat := 0]> key0, left)
                 else (key0, left)
             | None => ([0], left)
             end) = (buffer, left)) as [buffer Hbuf]
    by (destruct chars as [key0 |]; [destruct (_ && _) |]; eauto).
  rewrite Hbuf in H.
  pose proof (validateKey_cases buffer) as (Hacc & _).
  destruct (validateKey buffer) as [st msgs]. cbn [fst] in Hacc.
  assert (forall u, u ∈ UiEnterKey MIN_KEY_LENGTH :: map UiReport msgs -> guarded u)
    as Hmsgs.
  { intros u Hu. apply elem_of_cons in Hu as [-> | Hu]; [exact I |].
    apply list_elem_of_fmap in Hu as (m & -> & _). exact I. }
  destruct (Z.eqb_spec st 0) as [-> | Hst]; cbn [negb] in H;
    injection H as <- <- <- <-; (split; [exact Hleft |]); (split; [exact Hmsgs |]).
  - intros _. apply Hacc. reflexivity.
  - intros Habs. discriminate Habs.
Qed.

Lemma byte_of_uchar_inj c d :
  is_uchar c -> is_uchar d ->
  Ascii.ascii_of_N (Z.to_N (to_uchar c)) = Ascii.ascii_of_N (Z.to_N (to_uchar d)) ->
  c = d.
Proof.
  intros Hc Hd H. rewrite !to_uchar_id in H by assumption.
  apply (f_equal Ascii.N_of_ascii) in H.
  unfold is_uchar in *.
  rewrite !Ascii.N_ascii_embedding in H by lia. lia.
Qed.

(** Different names of bytes are different paths. *)
Lemma path_of_inj a b :
  Forall is_uchar a -> Forall is_uchar b ->
  path_of a = path_of b -> cstring a = cstring b.
Proof.
  intros Ha Hb H. unfold path_of in H.
  apply (f_equal String.list_ascii_of_string) in H.
  rewrite !String.list_ascii_of_string_of_list_ascii in H.
  assert (Forall is_uchar (cstring a)) as Hca by (apply Forall_take; exact Ha).
  assert (Forall is_uchar (cstring b)) as Hcb by (apply Forall_take; exact Hb).
  revert H Hca Hcb. generalize (cstring a) (cstring b). clear.
  induction l as [| c l IH]; intros [| d l'] H Hl Hl'; try discriminate H; [reflexivity |].
  simpl in H. injection H as Hhead Htail.
  inversion Hl; inversion Hl'; subst.
  f_equal; [apply byte_of_uchar_inj; assumption | apply IH; assumption].
Qed.

Lemma sane_say u s : guarded u -> sane s -> sane (say u s).
Proof.
  intros Hu (H1 & H2 & H3 & H4). repeat split; try assumption.
  simpl. apply Forall_app. split; [exact H4 | repeat constructor; exact Hu].
Qed.

Lemma scanf_char_uchar input :
  Forall is_uchar input -> Forall is_uchar (scanf_char input).2.
Proof.
  intros Hin. unfold scanf_char. pose proof (skip_spaces_uchar input Hin) as H.
  destruct (skip_spaces input); [constructor | inversion H; assumption].
Qed.

Lemma confirm_overwrite_sane s go s' :
  confirm_overwrite s = Some (go, s') -> sane s ->
  sane s' /\ disk s' = disk s /\ inputFile s' = inputFile s /\
  outputFile s' = outputFile s.
Proof.
  intros H Hs. unfold confirm_overwrite in H.
  destruct (fileExists (outputFile s) (disk s)); [| injection H as <- <-; auto].
  pose proof (scanf_char_uchar (stdin s) (proj1 Hs)) as Hrest.
  cbn [say stdin] in H.
  destruct (scanf_char (stdin s)) as [[confirm |] rest]; [| discriminate H].
  cbn [snd] in Hrest. apply clearInputBuffer_uchar in Hrest.
  destruct Hs as (_ & H2 & H3 & H4).
  assert (Forall guarded (console s ++ [UiOverwrite (cstring (outputFile s))])) as Hc
    by (apply Forall_app; split; [exact H4 | repeat constructor]).
  destruct (negb (tolower confirm =? 121)); injection H as <- <-.
  - split; [| auto]. apply sane_say; [exact I |]. repeat split; assumption.
  - split; [| auto]. repeat split; assumption.
Qed.

Lemma transform_sane fuel e choice s s' :
  transform fuel e choice s = Done s' -> sane s ->
  path_of (inputFile s) <> path_of (outputFile s) ->
  is_Some (disk s !! path_of (inputFile s)) ->
  (4 <= strlen (key_buffer s) <= 126)%nat ->
  sane s'.
Proof.
  intros H (H1 & H2 & H3 & H4) Hne Hex Hkey. unfold transform in H.
  cbv beta zeta in H.
  assert (forall result w,
            (choice = 1 \/ choice = 2) ->
            sane (Session (stdin s) (fs w)
                    (console s ++
                     [UiTransform choice (inputFile s) (outputFile s)
                        (key_buffer s) (disk s) result (trace w)])
                    (inputFile s) (outputFile s) (key_buffer s))) as Hsane.
  { intros result w Hchoice. repeat split; try assumption. cbn [console].
    apply Forall_app. split; [exact H4 |]. constructor; [| constructor].
    cbn [guarded]. auto. }
  destruct (Z.eqb_spec choice 1) as [Hc | _];
    [| destruct (Z.eqb_spec choice 2) as [Hc | _]].
  - destruct (encryptFile _ _ _ _ _ _) as [[result w] | |]; try discriminate H.
    destruct (result =? 0); injection H as <-; [apply sane_say; [exact I |] |];
      apply Hsane; auto.
  - destruct (encryptFile _ _ _ _ _ _) as [[result w] | |]; try discriminate H.
    destruct (result =? 0); injection H as <-; [apply sane_say; [exact I |] |];
      apply Hsane; auto.
  - injection H as <-. repeat split; assumption.
Qed.

(** The loop of [main] keeps the state sane, and it returns 0 only. *)
Lemma main_loop_sane fuel : forall e s r s',
  main_loop fuel e s = Done (r, s') -> sane s -> r = 0 /\ sane s'.
Proof.
  induction fuel as [| fuel IH]; intros e s r s' Hrun Hs; [discriminate Hrun |].
  cbn [main_loop] in Hrun.
  destruct (getChoice fuel (stdin s) (console s ++ [UiMenu]))
    as [[[choice rest] printed] | |] eqn:Hchoice; try discriminate Hrun.
  destruct Hs as (H1 & H2 & H3 & H4).
  apply getChoice_sane in Hchoice as [Hrest Hprinted];
    [| exact H1 | apply Forall_app; split; [exact H4 | repeat constructor]].
  cbn [stdin disk console inputFile outputFile key_buffer] in Hrun.
  destruct (choice =? 3).
  { injection Hrun as <- <-. split; [reflexivity |].
    apply sane_say; [exact I |]. repeat split; assumption. }
  (* the input file *)
  destruct (getFilename (inputFile s) _ rest) as [[[st1 name1] rest1] printed1] eqn:Hin.
  apply getFilename_uchar in Hin as (Hrest1 & Hname1 & Hmsg1); try assumption.
  assert (Forall guarded (printed ++ printed1)) as Hc1
    by (apply Forall_app; split; [exact Hprinted | apply Forall_forall; exact Hmsg1]).
  cbn [stdin disk console inputFile outputFile key_buffer] in Hrun.
  destruct (negb (st1 =? 0)).
  { apply IH in Hrun; [exact Hrun |]. repeat split; assumption. }
  destruct (fileExists name1 (disk s)) eqn:Hexists; cbn [negb] in Hrun.
  2: { apply IH in Hrun; [exact Hrun |].
       apply sane_say; [exact I |]. repeat split; assumption. }
  (* the output file *)
  destruct (getFilename (outputFile s) _ rest1) as [[[st2 name2] rest2] printed2] eqn:Hout.
  apply getFilename_uchar in Hout as (Hrest2 & Hname2 & Hmsg2); try assumption.
  assert (Forall guarded ((printed ++ printed1) ++ printed2)) as Hc2
    by (apply Forall_app; split; [exact Hc1 | apply Forall_forall; exact Hmsg2]).
  cbn [stdin disk console inputFile outputFile key_buffer] in Hrun.
  destruct (negb (st2 =? 0)).
  { apply IH in Hrun; [exact Hrun |]. repeat split; assumption. }
  destruct (same_string name1 name2) eqn:Hsame.
  { apply IH in Hrun; [exact Hrun |].
    apply sane_say; [exact I |]. repeat split; assumption. }
  (* the question about an existing output file *)
  set (s3 := Session rest2 (disk s) ((printed ++ printed1) ++ printed2) name1 name2
               (key_buffer s)) in *.
  assert (sane s3) as Hs3 by (repeat split; assumption).
  destruct (confirm_overwrite s3) as [[go s4] |] eqn:Hconfirm; [| discriminate Hrun].
  apply confirm_overwrite_sane in Hconfirm as (Hs4 & Hdisk4 & Hin4 & Hout4);
    [| exact Hs3].
  destruct go; [| apply IH in Hrun; [exact Hrun | exact Hs4]].
  (* the key *)
  destruct (getEncryptionKey (stdin s4)) as [[[st3 key] rest3] printed3] eqn:Hkey.
  apply getEncryptionKey_sane in Hkey as (Hrest3 & Hmsg3 & Hrange); [| apply Hs4].
  destruct Hs4 as (_ & Hi4 & Ho4 & Hc4).
  assert (Forall guarded (console s4 ++ printed3)) as Hc5
    by (apply Forall_app; split; [exact Hc4 | apply Forall_forall; exact Hmsg3]).
  destruct (Z.eqb_spec st3 0) as [-> | _]; cbn [negb] in Hrun.
  2: { apply IH in Hrun; [exact Hrun |]. repeat split; assumption. }
  destruct (transform fuel e choice _) as [s6 | |] eqn:Htransform;
    try discriminate Hrun.
  apply IH in Hrun; [exact Hrun |].
  apply sane_say; [exact I |].
  apply transform_sane in Htransform; [exact Htransform | ..];
    cbn [say stdin disk console inputFile outputFile key_buffer].
  - repeat split; try assumption.
    apply Forall_app. split; [exact Hc5 | repeat constructor].
  - rewrite Hin4, Hout4. subst s3. cbn [inputFile outputFile].
    intros Hpath. apply path_of_inj in Hpath; try assumption.
    unfold same_string in Hsame. apply bool_decide_eq_false in Hsame. contradiction.
  - rewrite Hin4, Hdisk4. subst s3. cbn [inputFile disk].
    unfold fileExists in Hexists. apply bool_decide_eq_true in Hexists. exact Hexists.
  - apply Hrange. reflexivity.
Qed.

(** X21. [main] returns 0 only, and whenever it starts a transform the
    choice was 1 or 2, the input file exists, the name given for the output
    is not the name given for the input, and the key has 4 to 126
    characters.  The names are compared as strings, as [strcmp] does: two
    names of one file are not told apart. *)
Theorem main_guards_transforms (fuel : nat) (e : env) (input : list Z)
    (files : gmap string (list Z)) (r : Z) (s : session) :
  main fuel e input files = Done (r, s) -> Forall is_uchar input ->
  r = 0 /\
  forall choice inF outF key before result events,
    UiTransform choice inF outF key before result events ∈ console s ->
    (choice = 1 \/ choice = 2) /\
    path_of inF <> path_of outF /\
    is_Some (before !! path_of inF) /\
    (4 <= strlen key <= 126)%nat.
Proof.
  intros Hrun Hin. unfold main in Hrun.
  apply main_loop_sane in Hrun as [-> (_ & _ & _ & Hconsole)].
  - split; [reflexivity |]. intros choice inF outF key before result events Hu.
    exact (proj1 (Forall_forall _ _) Hconsole _ Hu).
  - repeat split; try assumption; repeat constructor.
Qed.

Lemma main_guards_transforms_witness :
  exists s,
    main 6 calm [49; 10; 97; 10; 98; 10; 107; 101; 121; 107; 10; 51; 10]
      {[ "a" := [1; 2; 3] ]} = Done (0, s).
Proof.
  destruct (main 6 calm [49; 10; 97; 10; 98; 10; 107; 101; 121; 107; 10; 51; 10]
              {[ "a" := [1; 2; 3] ]}) as [[r s] | |] eqn:Hrun;
    try (vm_compute in Hrun; discriminate Hrun).
  destruct (main_guards_transforms 6 calm
              [49; 10; 97; 10; 98; 10; 107; 101; 121; 107; 10; 51; 10]
              {[ "a" := [1; 2; 3] ]} r s Hrun) as [-> _].
  - repeat constructor; unfold is_uchar; lia.
  - exists s. reflexivity.
Defined.

(** X18. At the end of the input (after white space at most) [getChoice]
    never returns, whatever the number of rounds allowed, and so [main]
    never returns either: the program does not stop when its input ends. *)
Theorem getChoice_end_of_input (fuel : nat) (e : env) (input : list Z)
    (printed : list ui) (files : gmap string (list Z)) :
  Forall (fun c => is_space c = true) input ->
  getChoice fuel input printed = OutOfFuel /\ main fuel e input files = OutOfFuel.
Proof.
  intros Hspaces. split; [apply getChoice_starved; exact Hspaces |].
  unfold main. destruct fuel as [| fuel]; [reflexivity |].
  cbn [main_loop stdin]. rewrite getChoice_starved by exact Hspaces. reflexivity.
Qed.

Lemma getChoice_end_of_input_witness :
  getChoice 1000 [32; 10] [] = OutOfFuel /\ main 1000 calm [32; 10] ∅ = OutOfFuel.
Proof.
  apply (getChoice_end_of_input 1000 calm [32; 10] [] ∅). repeat constructor.
Defined.

(** ** A dialogue *)

Lemma line_end_newline rest : line_end (NEWLINE :: rest).
Proof. right. eauto. Qed.

Lemma MAX_FILENAME_LENGTH_big : (1 < MAX_FILENAME_LENGTH)%nat.
Proof. unfold MAX_FILENAME_LENGTH. lia. Qed.

Lemma MAX_KEY_LENGTH_big : (1 < MAX_KEY_LENGTH)%nat.
Proof. unfold MAX_KEY_LENGTH. lia. Qed.

Lemma getFilename_line old prompt line rest :
  plain_line line -> line <> [] -> (length line < 255)%nat ->
  getFilename old prompt (line ++ NEWLINE :: rest) =
    (0, line ++ [0], rest, [UiPrompt prompt]).
Proof.
  intros Hline Hne Hlen. unfold getFilename.
  rewrite (fgets_line _ line (NEWLINE :: rest) Hline (line_end_newline rest)
             MAX_FILENAME_LENGTH_big).
  change (MAX_FILENAME_LENGTH - 1)%nat with 255%nat.
  rewrite (proj2 (Nat.ltb_lt _ _) Hlen).
  rewrite bool_decide_eq_false_2 by (destruct line; discriminate).
  change (take 1 (NEWLINE :: rest)) with [NEWLINE].
  destruct (strip_newline line Hline) as [-> ->].
  rewrite strlen_snoc_newline by exact Hline.
  destruct line; [congruence |]. reflexivity.
Qed.

Lemma getEncryptionKey_line line rest :
  plain_line line -> (4 <= length line <= 126)%nat ->
  getEncryptionKey (line ++ NEWLINE :: rest) = (0, line ++ [0], rest, [UiEnterKey 4]).
Proof.
  intros Hline Hlen. unfold getEncryptionKey, secureKeyInput.
  rewrite (fgets_line _ line (NEWLINE :: rest) Hline (line_end_newline rest)
             MAX_KEY_LENGTH_big).
  change (MAX_KEY_LENGTH - 1)%nat with 127%nat.
  assert ((length line <? 127)%nat = true) as -> by (apply Nat.ltb_lt; lia).
  rewrite bool_decide_eq_false_2 by (destruct line; discriminate).
  change (take 1 (NEWLINE :: rest)) with [NEWLINE].
  destruct (strip_newline line Hline) as [-> ->].
  destruct (validateKey_cases (line ++ [0])) as (Hacc & _ & Hquiet & _).
  assert (strlen (line ++ [0]) = length line) as Hs
    by (rewrite strlen_plain by exact Hline; simpl; lia).
  destruct (validateKey (line ++ [0])) as [st msgs]. cbn [fst snd] in *.
  assert (st = 0) as -> by (apply Hacc; lia).
  rewrite (Hquiet eq_refl). reflexivity.
Qed.

Lemma path_of_line line : plain_line line -> path_of (line ++ [0]) = path_of line.
Proof.
  intros H. unfold path_of.
  rewrite cstring_terminated, cstring_plain by exact H. reflexivity.
Qed.

Lemma same_string_lines a b :
  plain_line a -> plain_line b -> a <> b -> same_string (a ++ [0]) (b ++ [0]) = false.
Proof.
  intros Ha Hb Hne. unfold same_string.
  rewrite !cstring_terminated by assumption. apply bool_decide_eq_false_2. exact Hne.
Qed.

(** The dialogue that leads to a transform. *)
Lemma main_loop_dialogue (fuel : nat) (e : env) (s : session) (digit : Z)
    (a b k rest : list Z) :
  digit = 49 \/ digit = 50 ->
  plain_line a -> plain_line b -> plain_line k ->
  a <> [] -> b <> [] -> (length a < 255)%nat -> (length b < 255)%nat -> a <> b ->
  (4 <= length k <= 126)%nat ->
  is_Some (disk s !! path_of a) -> disk s !! path_of b = None ->
  stdin s = digit :: NEWLINE :: a ++ NEWLINE :: b ++ NEWLINE :: k ++ NEWLINE :: rest ->
  main_loop (S (S fuel)) e s =
    match transform (S fuel) e (digit - 48) (answered s a b k rest) with
    | Done s' => main_loop (S fuel) e (say UiBlank s')
    | Undefined => Undefined
    | OutOfFuel => OutOfFuel
    end.
Proof.
  intros Hdigit Ha Hb Hk Hane Hbne Hla Hlb Hab Hlk Hexists Hfresh Hin.
  cbn [main_loop]. rewrite Hin.
  rewrite (getChoice_line fuel [] digit []
             (NEWLINE :: a ++ NEWLINE :: b ++ NEWLINE :: k ++ NEWLINE :: rest));
    [| constructor | tauto | constructor | discriminate | apply line_end_newline].
  assert ((digit - 48 =? 3) = false) as -> by (destruct Hdigit as [-> | ->]; reflexivity).
  cbn [tail stdin disk console inputFile outputFile key_buffer].
  rewrite (getFilename_line _ _ a _ Ha Hane Hla).
  cbn [Z.eqb negb stdin disk console inputFile outputFile key_buffer].
  unfold fileExists at 1. rewrite (path_of_line a Ha).
  rewrite bool_decide_eq_true_2 by exact Hexists. cbn [negb].
  rewrite (getFilename_line _ _ b _ Hb Hbne Hlb).
  cbn [Z.eqb negb stdin disk console inputFile outputFile key_buffer].
  rewrite (same_string_lines a b Ha Hb Hab).
  unfold confirm_overwrite, fileExists.
  cbn [stdin disk console inputFile outputFile key_buffer].
  rewrite (path_of_line b Hb), Hfresh.
  rewrite bool_decide_eq_false_2 by (intros [x Hx]; discriminate Hx).
  cbn [stdin disk console inputFile outputFile key_buffer].
  rewrite (getEncryptionKey_line k rest Hk Hlk).
  cbn [Z.eqb negb stdin disk console inputFile outputFile key_buffer].
  unfold answered. rewrite <- !app_assoc. reflexivity.
Qed.

(** A transform started by [main] without faults. *)
Lemma transform_calm fuel choice s D :
  choice = 1 \/ choice = 2 ->
  disk s !! path_of (inputFile s) = Some D -> D <> [] ->
  path_of (inputFile s) <> path_of (outputFile s) ->
  (0 < strlen (key_buffer s))%nat -> (length D < fuel)%nat ->
  exists s',
    transform fuel calm choice s = Done s' /\
    stdin s' = stdin s /\
    disk s' = <[path_of (outputFile s) :=
                  chunked_xor BUFFER_SIZE D (key_buffer s) (strlen (key_buffer s))]>
                (disk s).
Proof.
  intros Hchoice HD Hnil Hne Hkey Hfuel.
  destruct (encryptFile_calm BUFFER_SIZE fuel (path_of (inputFile s))
              (path_of (outputFile s)) (key_buffer s) (disk s) D HD Hnil Hne
              BUFFER_SIZE_pos Hkey Hfuel) as (w & Hrun & Hfs).
  unfold transform, encryptFile. cbv beta zeta. rewrite Hrun.
  destruct Hchoice as [-> | ->]; cbn [Z.eqb say stdin disk];
    eexists; (split; [reflexivity |]); auto.
Qed.

Lemma paths_differ a b :
  plain_line a -> plain_line b -> Forall is_uchar a -> Forall is_uchar b ->
  a <> b -> path_of a <> path_of b.
Proof.
  intros Ha Hb Hua Hub Hne Hpath.
  apply path_of_inj in Hpath; try assumption.
  rewrite !cstring_plain in Hpath by assumption. contradiction.
Qed.

(** X23. Encrypting a file and decrypting the result through the menu, with
    the same key typed twice, restores the file: after the session
    [1, a, b, k, 2, b, c, k, 3] without faults the file [c] holds what the
    file [a] holds. *)
Theorem session_round_trip (fuel : nat) (a b c k D : list Z)
    (files : gmap string (list Z)) :
  plain_line a -> plain_line b -> plain_line c -> plain_line k ->
  Forall is_uchar a -> Forall is_uchar b -> Forall is_uchar c ->
  a <> [] -> b <> [] -> c <> [] ->
  (length a < 255)%nat -> (length b < 255)%nat -> (length c < 255)%nat ->
  a <> b -> b <> c ->
  (4 <= length k <= 126)%nat ->
  files !! path_of a = Some D -> D <> [] -> Forall is_uchar D ->
  files !! path_of b = None -> files !! path_of c = None ->
  (length D + 3 < fuel)%nat ->
  exists s,
    main fuel calm
      (49 :: NEWLINE :: a ++ NEWLINE :: b ++ NEWLINE :: k ++ NEWLINE ::
       50 :: NEWLINE :: b ++ NEWLINE :: c ++ NEWLINE :: k ++ NEWLINE ::
       [51; NEWLINE]) files = Done (0, s) /\
    disk s !! path_of c = Some D /\
    disk s !! path_of a = Some D /\
    stdin s = [].
Proof.
  intros Ha Hb Hc Hk Hua Hub Huc Hane Hbne Hcne Hla Hlb Hlc Hab Hbc Hlk HD Hnil HuD
    Hfb Hfc Hfuel.
  destruct fuel as [| [| [| [| fuel]]]]; try lia.
  assert (strlen (k ++ [0]) = length k) as Hkey
    by (rewrite strlen_plain by exact Hk; simpl; lia).
  pose proof (paths_differ a b Ha Hb Hua Hub Hab) as Hpab.
  pose proof (paths_differ b c Hb Hc Hub Huc Hbc) as Hpbc.
  assert (path_of a <> path_of c) as Hpac by congruence.
  unfold main.
  set (script2 := 50 :: NEWLINE :: b ++ NEWLINE :: c ++ NEWLINE :: k ++ NEWLINE ::
                  [51; NEWLINE]).
  set (s0 := Session (49 :: NEWLINE :: a ++ NEWLINE :: b ++ NEWLINE :: k ++ NEWLINE ::
                      script2) files [UiBanner] [] [] []).
  (* encryption *)
  rewrite (main_loop_dialogue (S (S fuel)) calm s0 49 a b k script2);
    try assumption; try reflexivity; [| auto | cbn [s0 disk]; rewrite HD; eauto].
  destruct (transform_calm (S (S (S fuel))) (49 - 48) (answered s0 a b k script2) D)
    as (s1 & -> & Hin1 & Hdisk1);
    cbn [answered say stdin disk inputFile outputFile key_buffer];
    rewrite ?path_of_line by assumption; try assumption; [auto | lia | lia |].
  cbn [answered say stdin disk inputFile outputFile key_buffer] in Hin1, Hdisk1.
  rewrite !path_of_line in Hdisk1 by assumption. rewrite Hkey in Hdisk1.
  set (X := chunked_xor BUFFER_SIZE D (k ++ [0]) (length k)) in *.
  (* decryption *)
  rewrite (main_loop_dialogue (S fuel) calm (say UiBlank s1) 50 b c k
             [51; NEWLINE]);
    try assumption; try reflexivity; [| auto | ..]; cbn [say disk stdin].
  2: { rewrite Hdisk1, lookup_insert_eq. eauto. }
  2: { rewrite Hdisk1, lookup_insert_ne by congruence. exact Hfc. }
  destruct (transform_calm (S (S fuel)) (50 - 48)
              (answered (say UiBlank s1) b c k [51; NEWLINE]) X)
    as (s2 & -> & Hin2 & Hdisk2);
    cbn [answered say stdin disk inputFile outputFile key_buffer];
    rewrite ?path_of_line by assumption; try assumption; [auto | | | lia | |].
  { rewrite Hdisk1. apply lookup_insert_eq. }
  { intros HX. apply (f_equal length) in HX. subst X.
    rewrite chunked_xor_length in HX. destruct D; [congruence | discriminate HX]. }
  { subst X. rewrite chunked_xor_length. lia. }
  cbn [answered say stdin disk inputFile outputFile key_buffer] in Hin2, Hdisk2.
  rewrite !path_of_line in Hdisk2 by assumption. rewrite Hkey in Hdisk2.
  subst X. rewrite chunked_xor_involutive in Hdisk2 by exact HuD.
  (* the way out *)
  cbn [main_loop say stdin]. rewrite Hin2.
  rewrite (getChoice_line fuel [] 51 [] [NEWLINE]);
    [| constructor | tauto | constructor | discriminate | apply line_end_newline].
  cbn [Z.sub Z.eqb Z.add Z.opp Z.pos_sub Pos.eqb tail].
  eexists. split; [reflexivity |]. cbn [say disk stdin].
  rewrite Hdisk2, Hdisk1.
  rewrite lookup_insert_eq, !lookup_insert_ne by congruence. auto.
Qed.

(** X22. When the choice 1 or 2 is followed by the name of an existing
    file, the name of a file that does not exist yet and a key of 4 to 126
    characters, each on its line, [main] starts the transform with exactly
    these names and this key, and then shows the menu again. *)
Theorem dialogue_starts_transform (fuel : nat) (e : env) (s : session) (digit : Z)
    (a b k rest : list Z) :
  digit = 49 \/ digit = 50 ->
  plain_line a -> plain_line b -> plain_line k ->
  a <> [] -> b <> [] -> (length a < 255)%nat -> (length b < 255)%nat -> a <> b ->
  (4 <= length k <= 126)%nat ->
  is_Some (disk s !! path_of a) -> disk s !! path_of b = None ->
  stdin s = digit :: NEWLINE :: a ++ NEWLINE :: b ++ NEWLINE :: k ++ NEWLINE :: rest ->
  main_loop (S (S fuel)) e s =
    match transform (S fuel) e (digit - 48) (answered s a b k rest) with
    | Done s' => main_loop (S fuel) e (say UiBlank s')
    | Undefined => Undefined
    | OutOfFuel => OutOfFuel
    end.
Proof. exact (main_loop_dialogue fuel e s digit a b k rest). Qed.

Lemma dialogue_starts_transform_witness :
  main_loop 3 calm (Session [49; 10; 97; 10; 98; 10; 107; 101; 121; 107; 10; 51; 10]
                      {[ "a" := [1; 2; 3] ]} [UiBanner] [] [] []) =
  match transform 2 calm (49 - 48)
          (answered (Session [49; 10; 97; 10; 98; 10; 107; 101; 121; 107; 10; 51; 10]
                       {[ "a" := [1; 2; 3] ]} [UiBanner] [] [] [])
             [97] [98] [107; 101; 121; 107] [51; 10]) with
  | Done s' => main_loop 2 calm (say UiBlank s')
  | Undefined => Undefined
  | OutOfFuel => OutOfFuel
  end.
Proof.
  apply (dialogue_starts_transform 1 calm
           (Session [49; 10; 97; 10; 98; 10; 107; 101; 121; 107; 10; 51; 10]
              {[ "a" := [1; 2; 3] ]} [UiBanner] [] [] [])
           49 [97] [98] [107; 101; 121; 107] [51; 10]).
  - auto.
  - repeat constructor; discriminate.
  - repeat constructor; discriminate.
  - repeat constructor; discriminate.
  - discriminate.
  - discriminate.
  - simpl. lia.
  - simpl. lia.
  - discriminate.
  - simpl. lia.
  - vm_compute. eauto.
  - vm_compute. reflexivity.
  - reflexivity.
Defined.

Lemma session_round_trip_witness :
  exists s,
    main 7 calm
      (49 :: NEWLINE :: [97] ++ NEWLINE :: [98] ++ NEWLINE :: [107; 101; 121; 107] ++
       NEWLINE :: 50 :: NEWLINE :: [98] ++ NEWLINE :: [99] ++ NEWLINE ::
       [107; 101; 121; 107] ++ NEWLINE :: [51; NEWLINE])
      {[ "a" := [1; 2; 3] ]} = Done (0, s) /\
    disk s !! path_of [99] = Some [1; 2; 3].
Proof.
  assert (Hline : forall c : Z, c <> 0 -> c <> NEWLINE -> plain_line [c]).
  { intros c H0 Hn. repeat constructor; assumption. }
  assert (Hbyte : forall c : Z, 0 <= c < 256 -> Forall is_uchar [c]).
  { intros c Hc. repeat constructor; unfold is_uchar; lia. }
  destruct (session_round_trip 7 [97] [98] [99] [107; 101; 121; 107] [1; 2; 3]
              {[ "a" := [1; 2; 3] ]}) as (s & Hrun & Hc & _).
  - apply Hline; discriminate.
  - apply Hline; discriminate.
  - apply Hline; discriminate.
  - repeat constructor; discriminate.
  - apply Hbyte; lia.
  - apply Hbyte; lia.
  - apply Hbyte; lia.
  - discriminate.
  - discriminate.
  - discriminate.
  - simpl; lia.
  - simpl; lia.
  - simpl; lia.
  - discriminate.
  - discriminate.
  - simpl; lia.
  - vm_compute; reflexivity.
  - discriminate.
  - repeat constructor; unfold is_uchar; lia.
  - vm_compute; reflexivity.
  - vm_compute; reflexivity.
  - simpl; lia.
  - exists s. split; assumption.
Defined.

(** ** An existing output file *)

(** X24. When the output file exists and the answer to the question about
    overwriting it does not start with y or Y, [main] prints the
    cancellation, asks for no key, starts no transform and leaves every
    file as it is; the rest of the answer's line is discarded. *)
Theorem overwrite_declined (fuel : nat) (e : env) (s : session) (digit : Z)
    (a b : list Z) (answer : Z) (junk rest : list Z) :
  digit = 49 \/ digit = 50 ->
  plain_line a -> plain_line b ->
  a <> [] -> b <> [] -> (length a < 255)%nat -> (length b < 255)%nat -> a <> b ->
  is_Some (disk s !! path_of a) -> is_Some (disk s !! path_of b) ->
  is_space answer = false -> answer <> 121 -> answer <> 89 ->
  Forall (fun c => c <> NEWLINE) junk ->
  stdin s = digit :: NEWLINE :: a ++ NEWLINE :: b ++ NEWLINE :: answer :: junk ++
            NEWLINE :: rest ->
  main_loop (S (S fuel)) e s =
    main_loop (S fuel) e
      (Session rest (disk s)
         (console s ++
          [UiMenu; UiEnterChoice; UiPrompt "Enter input filename: ";
           UiPrompt "Enter output filename: "; UiOverwrite b; UiCancelled])
         (a ++ [0]) (b ++ [0]) (key_buffer s)).
Proof.
  intros Hdigit Ha Hb Hane Hbne Hla Hlb Hab Hina Hinb Hsp Hy HY Hjunk Hin.
  cbn [main_loop]. rewrite Hin.
  rewrite (getChoice_line fuel [] digit []
             (NEWLINE :: a ++ NEWLINE :: b ++ NEWLINE :: answer :: junk ++ NEWLINE :: rest));
    [| constructor | tauto | constructor | discriminate | apply line_end_newline].
  assert ((digit - 48 =? 3) = false) as -> by (destruct Hdigit as [-> | ->]; reflexivity).
  cbn [tail stdin disk console inputFile outputFile key_buffer].
  rewrite (getFilename_line _ _ a _ Ha Hane Hla).
  cbn [Z.eqb negb stdin disk console inputFile outputFile key_buffer].
  unfold fileExists at 1. rewrite (path_of_line a Ha).
  rewrite bool_decide_eq_true_2 by exact Hina. cbn [negb].
  rewrite (getFilename_line _ _ b _ Hb Hbne Hlb).
  cbn [Z.eqb negb stdin disk console inputFile outputFile key_buffer].
  rewrite (same_string_lines a b Ha Hb Hab).
  unfold confirm_overwrite, fileExists.
  cbn [say stdin disk console inputFile outputFile key_buffer].
  rewrite (path_of_line b Hb).
  rewrite bool_decide_eq_true_2 by exact Hinb.
  unfold scanf_char. cbn [skip_spaces]. rewrite Hsp.
  assert ((tolower answer =? 121) = false) as ->.
  { apply Z.eqb_neq. unfold tolower.
    destruct ((65 <=? answer) && (answer <=? 90)); lia. }
  cbn [negb].
  rewrite (clearInputBuffer_line junk (NEWLINE :: rest) Hjunk (line_end_newline rest)).
  cbn [tail say stdin disk console inputFile outputFile key_buffer].
  rewrite cstring_terminated by exact Hb.
  rewrite <- !app_assoc. reflexivity.
Qed.

Lemma overwrite_declined_witness :
  main_loop 5 calm
    (Session [49; 10; 97; 10; 98; 10; 110; 111; 10; 51; 10]
       {[ "a" := [1; 2; 3]; "b" := [4] ]} [UiBanner] [] [] []) =
  main_loop 4 calm
    (Session [51; 10] {[ "a" := [1; 2; 3]; "b" := [4] ]}
       ([UiBanner] ++
        [UiMenu; UiEnterChoice; UiPrompt "Enter input filename: ";
         UiPrompt "Enter output filename: "; UiOverwrite [98]; UiCancelled])
       ([97] ++ [0]) ([98] ++ [0]) []).
Proof.
  pose proof (overwrite_declined 3 calm
                (Session [49; 10; 97; 10; 98; 10; 110; 111; 10; 51; 10]
                   {[ "a" := [1; 2; 3]; "b" := [4] ]} [UiBanner] [] [] [])
                49 [97] [98] 110 [111] [51; 10]) as H.
  cbn [stdin disk console key_buffer] in H. apply H; clear H.
  - auto.
  - repeat constructor; discriminate.
  - repeat constructor; discriminate.
  - discriminate.
  - discriminate.
  - simpl. lia.
  - simpl. lia.
  - discriminate.
  - vm_compute. eauto.
  - vm_compute. eauto.
  - reflexivity.
  - discriminate.
  - discriminate.
  - repeat constructor; discriminate.
  - reflexivity.
Defined.

(** ** [getFileSize] *)

(** X25. [getFileSize] touches neither the files nor the console nor the
    error indicator of the stream; it returns -1 exactly when one of its
    three library calls fails, and otherwise the length of the file, with
    the stream back at its start. *)
Theorem getFileSize_outcomes (e : env) (inputFile : string) (w : world) :
  fs (getFileSize e inputFile w).2 = fs w /\
  trace (getFileSize e inputFile w).2 = trace w /\
  in_err (getFileSize e inputFile w).2 = in_err w /\
  ((getFileSize e inputFile w).1 = -1 <->
   fseek_end_ok e = false \/ ftell_ok e = false \/ fseek_set_ok e = false) /\
  ((getFileSize e inputFile w).1 <> -1 ->
   (getFileSize e inputFile w).1 = Z.of_nat (length (content inputFile w)) /\
   in_pos (getFileSize e inputFile w).2 = 0%nat).
Proof.
  unfold getFileSize.
  destruct (fseek_end_ok e), (ftell_ok e), (fseek_set_ok e);
    cbn [negb fst snd fs trace in_err in_pos];
    repeat split; try reflexivity; try tauto; try (intros; auto; fail);
    try (intros H; lia); try (intros [H | [H | H]]; discriminate H).
Qed.
